(** * slic: a declarative command-line argument parser

    A shallow embedding of [include/slic.hpp] (namespace [slic]): the value
    coercion [ValueParser<T>::parse], the declaration tuple [T::Options] and
    the single-pass scanner [ArgParser<T>::parse] with its helpers
    [tryParseOption], [tryParsePositional], [setVarArgs] and [checkRequired].

    Conventions.
    - [std::string_view] is [string]; [int] is [Z]; [size_t] is [nat].  No
      [int] computed by the scanner leaves the interval [-1 .. argc], so no
      wrap-around is written out.
    - The options struct [T] is a finite map from member pointers (numbered
      fields) to field contents; [parse] starts from the struct it is given,
      which stands for the default-initialised [m_options].
    - [std::from_chars] is standard-library code, written out after the
      C++ standard: its integer overloads as [from_chars_int], its
      floating-point overloads as [from_chars_floating], with binary
      floating-point numbers as [spec_float].  The parser itself is
      verified for any floating-point [from_chars], a variable of the
      section [Slic], and then run with [from_chars_floating].
    - A lambda that captures by reference becomes a function on the captured
      variables; the fold expressions [forEach...] become recursion over the
      declaration list. *)

From Stdlib Require Import ZArith String Ascii Lia SpecFloat.
From stdpp Require Import gmap strings list.

Local Open Scope Z_scope.

(** ** [std::string_view] operations used by the parser *)

Module sv.

(** [sv.starts_with(c)]. *)
Definition starts_with (c : ascii) (s : string) : bool :=
  match s with
  | String c' _ => Ascii.eqb c' c
  | EmptyString => false
  end.

(** [sv.find(c)]: position of the first occurrence, [None] for [npos]. *)
Fixpoint find (c : ascii) (s : string) : option nat :=
  match s with
  | EmptyString => None
  | String c' s' => if Ascii.eqb c' c then Some O else option_map S (find c s')
  end.

(** [sv.substr(pos)]: the suffix starting at [pos]. *)
Fixpoint substr_from (pos : nat) (s : string) : string :=
  match pos, s with
  | O, _ => s
  | S p, String _ s' => substr_from p s'
  | S _, EmptyString => EmptyString
  end.

(** [sv.substr(0, n)]: the prefix of length [n]. *)
Fixpoint substr_to (n : nat) (s : string) : string :=
  match n, s with
  | O, _ => EmptyString
  | S m, String c s' => String c (substr_to m s')
  | S _, EmptyString => EmptyString
  end.

(** [sv.empty()]. *)
Definition empty (s : string) : bool :=
  match s with
  | EmptyString => true
  | String _ _ => false
  end.

(** [sv.find_last_of(c)]: position of the last occurrence, [None] for
    [npos]. *)
Fixpoint find_last_of (c : ascii) (s : string) : option nat :=
  match s with
  | EmptyString => None
  | String c' s' =>
      match find_last_of c s' with
      | Some p => Some (S p)
      | None => if Ascii.eqb c' c then Some O else None
      end
  end.

End sv.

(** ** Parse results *)

Inductive ParseError : Set :=
| PE_None
| MissingValue
| InvalidValue
| UnknownOption
| MissingRequiredArg
| TooManyArgs.

Record ParseResult : Set := mkParseResult {
  error : ParseError;
  context : string
}.

Definition success : ParseResult := mkParseResult PE_None "".

Definition failure (err : ParseError) (ctx : string) : ParseResult :=
  mkParseResult err ctx.

Definition isOk (r : ParseResult) : bool :=
  match error r with
  | PE_None => true
  | _ => false
  end.

(** [ParseResult::errorMessage]. *)
Definition errorMessage (r : ParseResult) : string :=
  match error r with
  | PE_None => "Success"
  | MissingValue => "Missing value for option"
  | InvalidValue => "Invalid value"
  | UnknownOption => "Unknown option"
  | MissingRequiredArg => "Missing required argument"
  | TooManyArgs => "Too many arguments"
  end.

(** What [std::endl] writes. *)
Definition endl : string := String "010"%char EmptyString.

(** [ParseResult::print]: the text it writes to [std::cerr]. *)
Definition print (r : ParseResult) : string :=
  if isOk r then EmptyString
  else if sv.empty (context r)
  then "Error: " +:+ errorMessage r +:+ endl
  else "Error: " +:+ errorMessage r +:+ " '" +:+ context r
       +:+ String "'"%char EmptyString +:+ endl.

(** ** [std::from_chars] *)

Inductive errc : Set :=
| errc_ok
| invalid_argument
| result_out_of_range.

(** [ptr] is kept as an offset from [first]. *)
Record from_chars_result : Set := mk_from_chars_result {
  ptr : nat;
  ec : errc
}.

Definition is_digit (c : ascii) : bool :=
  (48 <=? nat_of_ascii c)%nat && (nat_of_ascii c <=? 57)%nat.

Definition digit_value (c : ascii) : Z := Z.of_nat (nat_of_ascii c) - 48.

(** The longest run of decimal digits at the head of [s]: its length added
    to [n] and its value accumulated on [acc]. *)
Fixpoint scan_digits (s : string) (n : nat) (acc : Z) : nat * Z :=
  match s with
  | String c s' =>
      if is_digit c then scan_digits s' (S n) (10 * acc + digit_value c)
      else (n, acc)
  | EmptyString => (n, acc)
  end.

(** The values of an integer type of [bits] bits. *)
Definition int_in_range (sgn : bool) (bits : N) (v : Z) : bool :=
  if sgn
  then (- 2 ^ (Z.of_N bits - 1) <=? v) && (v <? 2 ^ (Z.of_N bits - 1))
  else (0 <=? v) && (v <? 2 ^ Z.of_N bits).

(** [std::from_chars(first, last, value)] in base 10 for an integer type.
    The function belongs to the C++ standard library; it is written out
    here after [charconv.from.chars].  The pattern is an optional minus
    sign, accepted for a signed type only, followed by a non-empty run of
    decimal digits; no white space, no plus sign, no prefix.  Without a
    match the result is [invalid_argument] at [first]; with a match [ptr]
    is one past the run and [value] is written unless the number is not
    representable in the type, which is reported as [result_out_of_range]
    and leaves [value] alone. *)
Definition from_chars_int (sgn : bool) (bits : N) (input : string) (value : Z)
  : from_chars_result * Z :=
  let neg := sgn && sv.starts_with "-"%char input in
  let body := if neg then sv.substr_from 1 input else input in
  let '(n, m) := scan_digits body O 0 in
  match n with
  | O => (mk_from_chars_result O invalid_argument, value)
  | S _ =>
      let v := if neg then - m else m in
      let p := ((if neg then 1 else 0) + n)%nat in
      if int_in_range sgn bits v
      then (mk_from_chars_result p errc_ok, v)
      else (mk_from_chars_result p result_out_of_range, value)
  end.

(** ** Field types *)

Inductive FloatKind : Set := Float | Double | LongDouble.

(** [detail::unwrap_optional_t<T>] of a field type, as far as
    [ValueParser] tells types apart: [bool], [std::string_view], the
    integer types by signedness and width, the floating-point types, and
    everything else. *)
Inductive InnerType : Set :=
| TBool
| TStringView
| TInt (sgn : bool) (bits : N)
| TFloating (k : FloatKind)
| TOther.

(** A field type [T]: [detail::is_optional_v<T>] and its unwrapped type. *)
Record FieldType : Set := mkFieldType {
  is_optional_v : bool;
  unwrap_optional_t : InnerType
}.

Definition is_bool (T : InnerType) : bool :=
  match T with
  | TBool => true
  | _ => false
  end.

(** [int], [long] and [unsigned int] of an LP64 platform. *)
Definition t_int : InnerType := TInt true 32.
Definition t_long : InnerType := TInt true 64.
Definition t_unsigned : InnerType := TInt false 32.

Definition plain (T : InnerType) : FieldType := mkFieldType false T.
Definition optional (T : InnerType) : FieldType := mkFieldType true T.

(** [ArgSpan]: a [std::span] over [argv], kept as offset and size. *)
Record ArgSpan : Set := mkArgSpan {
  span_data : Z;
  span_size : nat
}.

(** The tokens an [ArgSpan] over [argv] iterates through. *)
Definition ArgSpan_tokens (argv : list string) (sp : ArgSpan) : list string :=
  take (span_size sp) (drop (Z.to_nat (span_data sp)) argv).

(** ** Declarations: the elements of the tuple [T::Options].
    Member pointers are field numbers.  Descriptions only feed [printHelp]
    and are left out. *)
Inductive Decl : Set :=
| Option_ (m_name m_altName : string) (T : FieldType) (m_field : nat)
| Arg (m_name : string) (T : FieldType) (m_field : nat)
| VarArgs (m_field : nat).

(** [Option::matches]. *)
Definition matches (m_name m_altName arg : string) : bool :=
  String.eqb arg m_name || String.eqb arg m_altName.

Definition is_option_v (d : Decl) : bool :=
  match d with Option_ _ _ _ _ => true | _ => false end.

Definition is_arg_v (d : Decl) : bool :=
  match d with Arg _ _ _ => true | _ => false end.

Definition is_varargs_v (d : Decl) : bool :=
  match d with VarArgs _ => true | _ => false end.

(** [Option::needsValue]. *)
Definition needsValue (T : FieldType) : bool :=
  negb (is_bool (unwrap_optional_t T)).

(** The member pointer a declaration carries. *)
Definition decl_field (d : Decl) : nat :=
  match d with
  | Option_ _ _ _ m_field => m_field
  | Arg _ _ m_field => m_field
  | VarArgs m_field => m_field
  end.

(** ** The numeric grammar, as the specification words it *)

(** The number a run of decimal digits denotes. *)
Fixpoint decimal_value (s : string) : Z :=
  match s with
  | EmptyString => 0
  | String c s' => digit_value c * 10 ^ Z.of_nat (String.length s') + decimal_value s'
  end.

(** A non-empty string of decimal digits only. *)
Fixpoint all_digits (s : string) : bool :=
  match s with
  | EmptyString => false
  | String c EmptyString => is_digit c
  | String c s' => is_digit c && all_digits s'
  end.

(** The whole token read by the integer grammar: an optional minus sign
    (signed types only) and decimal digits, nothing before and nothing
    after.  [None] when the token is not of that form. *)
Definition int_literal (sgn : bool) (input : string) : option Z :=
  if sv.starts_with "-"%char input then
    if sgn && all_digits (sv.substr_from 1 input)
    then Some (- decimal_value (sv.substr_from 1 input))
    else None
  else if all_digits input then Some (decimal_value input) else None.

(** The spellings of the two truth values. *)
Definition true_spellings : list string := ["true"; "1"; "yes"; "on"; "y"].
Definition false_spellings : list string := ["false"; "0"; "no"; "off"; "n"].

(** [c] occurs in [s]. *)
Definition contains (c : ascii) (s : string) : Prop :=
  exists s1 s2, s = s1 +:+ String c s2.

(** ** [std::from_chars] for floating-point types

    The function belongs to the C++ standard library; it is written out
    here after [charconv.from.chars] for the default format
    [chars_format::general].  The pattern is the subject sequence of
    [strtod] in the C locale without a plus sign in front and without the
    hexadecimal form: an optional minus sign, then one of
    - a non-empty sequence of decimal digits that may contain one decimal
      point, then optionally an exponent part: [e] or [E], an optional
      sign, a non-empty sequence of decimal digits;
    - [inf] or [infinity], in any letter case;
    - [nan] in any letter case, then optionally a sequence of digits,
      letters and underscores in parentheses.
    The longest prefix of that form is matched; no white space is
    skipped.  The parsed value is rounded to nearest. *)

(** What a matched pattern denotes: the decimal number
    [(-1)^neg * m * 10^e], an infinity, or a NaN. *)
Inductive FloatLiteral : Set :=
| LitDecimal (neg : bool) (m e : Z)
| LitInfinity (neg : bool)
| LitNaN (neg : bool).

Definition is_alpha (c : ascii) : bool :=
  ((65 <=? nat_of_ascii c) && (nat_of_ascii c <=? 90)
   || (97 <=? nat_of_ascii c) && (nat_of_ascii c <=? 122))%nat.

Definition to_lower (c : ascii) : ascii :=
  if ((65 <=? nat_of_ascii c) && (nat_of_ascii c <=? 90))%nat
  then ascii_of_nat (nat_of_ascii c + 32)
  else c.

Fixpoint lower (s : string) : string :=
  match s with
  | EmptyString => EmptyString
  | String c s' => String (to_lower c) (lower s')
  end.

(** [s] starts with the lower-case [word], letter case ignored. *)
Definition starts_with_nocase (word s : string) : bool :=
  String.eqb (lower (sv.substr_to (String.length word) s)) word.

(** The characters of an n-char-sequence. *)
Definition is_nchar (c : ascii) : bool :=
  is_digit c || is_alpha c || Ascii.eqb c "_".

(** The length of the longest run of such characters at the head of [s]. *)
Fixpoint scan_nchars (s : string) : nat :=
  match s with
  | String c s' => if is_nchar c then S (scan_nchars s') else O
  | EmptyString => O
  end.

(** The parenthesised sequence that may follow [nan]: the number of
    characters matched at the head of [s], parentheses included. *)
Definition scan_nan_sequence (s : string) : nat :=
  if sv.starts_with "(" s then
    let n := scan_nchars (sv.substr_from 1 s) in
    if sv.starts_with ")" (sv.substr_from (S n) s) then S (S n) else O
  else O.

(** The exponent part at the head of [s]: the number of characters
    matched, none when no digit follows the letter and the sign, and the
    exponent. *)
Definition scan_exponent (s : string) : nat * Z :=
  if sv.starts_with "e" s || sv.starts_with "E" s then
    let s1 := sv.substr_from 1 s in
    let minus := sv.starts_with "-" s1 in
    let signed := minus || sv.starts_with "+" s1 in
    let '(n, x) :=
      scan_digits (if signed then sv.substr_from 1 s1 else s1) O 0 in
    match n with
    | O => (O, 0)
    | S _ => (S ((if signed then 1 else 0) + n), if minus then - x else x)
    end
  else (O, 0).

(** The decimal form at the head of [body]: the number of characters
    matched, none without a digit, the digits read as one integer and the
    power of ten that scales it. *)
Definition scan_decimal (body : string) : nat * Z * Z :=
  let '(n1, m1) := scan_digits body O 0 in
  let rest := sv.substr_from n1 body in
  let point := sv.starts_with "." rest in
  let '(n2, m2) :=
    if point then scan_digits (sv.substr_from 1 rest) O m1 else (O, m1) in
  match (n1 + n2)%nat with
  | O => (O, 0, 0)
  | S _ =>
      let len := (n1 + (if point then 1 else 0) + n2)%nat in
      let '(n3, x) := scan_exponent (sv.substr_from len body) in
      ((len + n3)%nat, m2, x - Z.of_nat n2)
  end.

(** The pattern behind the optional minus sign: the number of characters
    matched, none without a match, and what they denote. *)
Definition match_float (neg : bool) (body : string) : nat * FloatLiteral :=
  let '(n, m, e) := scan_decimal body in
  match n with
  | S _ => (n, LitDecimal neg m e)
  | O =>
      if starts_with_nocase "infinity" body then (8%nat, LitInfinity neg)
      else if starts_with_nocase "inf" body then (3%nat, LitInfinity neg)
      else if starts_with_nocase "nan" body
      then ((3 + scan_nan_sequence (sv.substr_from 3 body))%nat, LitNaN neg)
      else (O, LitNaN neg)
  end.

(** The binary formats of [float], [double] and [long double] on x86-64
    Linux: the precision in bits and the exponent of the infinities. *)
Definition float_prec (k : FloatKind) : Z :=
  match k with Float => 24 | Double => 53 | LongDouble => 64 end.

Definition float_emax (k : FloatKind) : Z :=
  match k with Float => 128 | Double => 1024 | LongDouble => 16384 end.

(** [(-1)^neg * m * 10^e] rounded to the nearest value of the format,
    ties to even: the quotient of the integers [m * 10^max(0,e)] and
    [10^max(0,-e)]. *)
Definition round_decimal (k : FloatKind) (neg : bool) (m e : Z) : spec_float :=
  match m * 10 ^ Z.max 0 e with
  | Zpos p =>
      SFdiv (float_prec k) (float_emax k)
        (S754_finite neg p 0)
        (S754_finite false (Z.to_pos (10 ^ Z.max 0 (- e))) 0)
  | _ => S754_zero neg
  end.

(** The value a matched pattern is parsed to.  [None] when the number is
    not in the range of the type: its rounding overflows to an infinity,
    or it is not zero and rounds to zero. *)
Definition parsed_value (k : FloatKind) (lit : FloatLiteral)
  : option spec_float :=
  match lit with
  | LitDecimal neg m e =>
      match round_decimal k neg m e with
      | S754_infinity _ => None
      | S754_zero s => if m =? 0 then Some (S754_zero s) else None
      | x => Some x
      end
  | LitInfinity neg => Some (S754_infinity neg)
  | LitNaN _ => Some S754_nan
  end.

(** What [T value{}] leaves in a floating-point [value]. *)
Definition float_zero : spec_float := S754_zero false.

(** [std::from_chars(first, last, value)] for a floating-point type.
    Without a match the result is [invalid_argument] at [first]; with a
    match [ptr] is one past the matched characters and [value] is written
    unless the number is out of range, which is reported as
    [result_out_of_range] and leaves [value] alone. *)
Definition from_chars_floating (k : FloatKind) (input : string)
    (value : spec_float) : from_chars_result * spec_float :=
  let neg := sv.starts_with "-"%char input in
  let body := if neg then sv.substr_from 1 input else input in
  let '(n, lit) := match_float neg body in
  match n with
  | O => (mk_from_chars_result O invalid_argument, value)
  | S _ =>
      let p := ((if neg then 1 else 0) + n)%nat in
      match parsed_value k lit with
      | Some x => (mk_from_chars_result p errc_ok, x)
      | None => (mk_from_chars_result p result_out_of_range, value)
      end
  end.

(** ** The value nearest to a number *)

(** [x] is zero or a finite number. *)
Definition is_finite (x : spec_float) : bool :=
  match x with
  | S754_zero _ | S754_finite _ _ _ => true
  | _ => false
  end.

(** The number that the zero or finite [x] stands for, times [2^K]. *)
Definition scaled_value (K : Z) (x : spec_float) : Z :=
  match x with
  | S754_finite s m e => (if s then - Zpos m else Zpos m) * 2 ^ (e + K)
  | _ => 0
  end.

(** [x] is a finite value of the format of [k], and no finite value of
    that format is nearer to the rational number [num / den].  With [-K]
    the least exponent of the format, every finite value times [2^K] is an
    integer; the distances are compared after multiplication by
    [den * 2^K]. *)
Definition nearest_value (k : FloatKind) (num den : Z) (x : spec_float)
  : Prop :=
  let K := - emin (float_prec k) (float_emax k) in
  valid_binary (float_prec k) (float_emax k) x = true
  /\ is_finite x = true
  /\ forall y,
       valid_binary (float_prec k) (float_emax k) y = true ->
       is_finite y = true ->
       Z.abs (den * scaled_value K x - num * 2 ^ K)
       <= Z.abs (den * scaled_value K y - num * 2 ^ K).

(** ** The floating-point grammar, read on the whole token *)

(** A possibly empty string of decimal digits. *)
Fixpoint digits (s : string) : bool :=
  match s with
  | EmptyString => true
  | String c s' => is_digit c && digits s'
  end.

(** A possibly empty string of digits, letters and underscores. *)
Fixpoint nchars (s : string) : bool :=
  match s with
  | EmptyString => true
  | String c s' => is_nchar c && nchars s'
  end.

(** [mantissa s m n]: [s] is a sequence of decimal digits, at least one,
    with at most one decimal point in it; [m] is the number its digits
    write and [n] the number of digits behind the point. *)
Inductive mantissa : string -> Z -> nat -> Prop :=
| mantissa_integer ds :
    all_digits ds = true ->
    mantissa ds (decimal_value ds) O
| mantissa_point ip fp :
    digits ip = true -> digits fp = true ->
    (0 < String.length ip + String.length fp)%nat ->
    mantissa (ip +:+ String "." fp) (decimal_value (ip +:+ fp))
      (String.length fp).

(** [exponent s e]: [s] is empty and [e] is zero, or [s] is an exponent
    part with exponent [e]. *)
Inductive exponent : string -> Z -> Prop :=
| exponent_absent : exponent EmptyString 0
| exponent_unsigned c ds :
    c = "e"%char \/ c = "E"%char -> all_digits ds = true ->
    exponent (String c ds) (decimal_value ds)
| exponent_plus c ds :
    c = "e"%char \/ c = "E"%char -> all_digits ds = true ->
    exponent (String c (String "+" ds)) (decimal_value ds)
| exponent_minus c ds :
    c = "e"%char \/ c = "E"%char -> all_digits ds = true ->
    exponent (String c (String "-" ds)) (- decimal_value ds).

(** [float_body neg s lit]: the whole of [s] is a number without sign,
    and with the sign [neg] it denotes [lit]. *)
Inductive float_body (neg : bool) : string -> FloatLiteral -> Prop :=
| body_decimal ms es m n e :
    mantissa ms m n -> exponent es e ->
    float_body neg (ms +:+ es) (LitDecimal neg m (e - Z.of_nat n))
| body_infinity s :
    lower s = "inf" \/ lower s = "infinity" ->
    float_body neg s (LitInfinity neg)
| body_nan s :
    lower s = "nan" ->
    float_body neg s (LitNaN neg)
| body_nan_sequence s cs :
    lower s = "nan" -> nchars cs = true ->
    float_body neg (s +:+ String "(" (cs +:+ ")")) (LitNaN neg).

(** The whole token is read by the floating-point grammar and denotes
    [lit]: an optional minus sign and a number, nothing before and nothing
    after. *)
Definition float_literal (input : string) (lit : FloatLiteral) : Prop :=
  float_body false input lit
  \/ exists body, input = String "-" body /\ float_body true body lit.

(** ** The option structs of [tests/tests.cpp] *)

Module Tests.

Definition SimpleOptions : list Decl :=
  [Option_ "-v" "--verbose" (plain TBool) 0;
   Option_ "-c" "--count" (plain t_int) 1;
   Arg "name" (plain TStringView) 2].

Definition BoolOptions : list Decl :=
  [Option_ "-a" "--flag1" (plain TBool) 0;
   Option_ "-b" "--flag2" (plain TBool) 1;
   Option_ "-o" "--opt-flag" (optional TBool) 2].

Definition NumericOptions : list Decl :=
  [Option_ "-i" "--int" (plain t_int) 0;
   Option_ "-l" "--long" (plain t_long) 1;
   Option_ "-u" "--uint" (plain t_unsigned) 2;
   Option_ "-f" "--float" (plain (TFloating Float)) 3;
   Option_ "-d" "--double" (plain (TFloating Double)) 4].

Definition OptionalArgOptions : list Decl :=
  [Arg "required" (plain TStringView) 0;
   Arg "optional" (optional TStringView) 1].

Definition VarArgsOptions : list Decl :=
  [Arg "command" (plain TStringView) 0;
   VarArgs 1].

End Tests.

Section Slic.

(** The parser only inspects the [ptr] and [ec] that [std::from_chars]
    returns for a floating-point type and stores the value it wrote: the
    section takes the floating-point values [F] and that function as
    given.  Behind the section they are [spec_float] and
    [from_chars_floating]. *)
Variable F : Set.
Variable from_chars_float : FloatKind -> string -> F -> from_chars_result * F.
Variable F_zero : F.

Inductive Value : Set :=
| VBool (b : bool)
| VStringView (s : string)
| VInt (z : Z)
| VFloat (x : F).

(** [ValueParser<T>::parse]. *)
Definition ValueParser_parse (T : InnerType) (input : string) : option Value :=
  match T with
  | TBool =>
      if String.eqb input "true" || String.eqb input "1"
         || String.eqb input "yes" || String.eqb input "on"
         || String.eqb input "y"
      then Some (VBool true)
      else if String.eqb input "false" || String.eqb input "0"
              || String.eqb input "no" || String.eqb input "off"
              || String.eqb input "n"
      then Some (VBool false)
      else None
  | TStringView => Some (VStringView input)
  | TInt sgn bits =>
      let '(r, value) := from_chars_int sgn bits input 0 in
      match ec r with
      | errc_ok =>
          if (ptr r =? String.length input)%nat then Some (VInt value) else None
      | _ => None
      end
  | TFloating k =>
      let '(r, value) := from_chars_float k input F_zero in
      match ec r with
      | errc_ok =>
          if (ptr r =? String.length input)%nat then Some (VFloat value) else None
      | _ => None
      end
  | TOther => None
  end.

(** ** The options struct [T] *)

(** What a field of the options struct holds: a value, a [std::optional] of
    a value, or an [ArgSpan]. *)
Inductive FieldVal : Set :=
| FPlain (v : Value)
| FOptional (o : option Value)
| FArgSpan (sp : ArgSpan).

(** [m_options.*field = parsed] for a field of type [T]: an optional field
    receives an engaged optional. *)
Definition store (T : FieldType) (parsed : Value) : FieldVal :=
  if is_optional_v T then FOptional (Some parsed) else FPlain parsed.

(** The captured variables of the lambda in [tryParseOption]: [result],
    [index] and [m_options]. *)
Record OptionCapture : Set := mkOptionCapture {
  oc_result : ParseResult;
  oc_index : Z;
  oc_options : gmap nat FieldVal
}.

(** The captured variables of the lambda in [tryParsePositional]. *)
Record ArgCapture : Set := mkArgCapture {
  ac_result : ParseResult;
  ac_options : gmap nat FieldVal
}.

(** ** Iteration over the declaration tuple *)

Inductive IterResult : Set := Continue | Break.

(** [forEachOptionUntil]: every tuple element runs the inner lambda, which
    returns at once when [result] is already [Break] and calls [func] on
    options only. *)
Fixpoint forEachOptionUntil {St : Type} (func : Decl -> St -> IterResult * St)
    (Options : list Decl) (result : IterResult) (st : St) : IterResult * St :=
  match Options with
  | [] => (result, st)
  | d :: rest =>
      match result with
      | Break => forEachOptionUntil func rest Break st
      | Continue =>
          if is_option_v d
          then let '(r, st') := func d st in forEachOptionUntil func rest r st'
          else forEachOptionUntil func rest Continue st
      end
  end.

(** [forEachArgIndexed]: the same over positionals, with the running
    [idx] handed to [func] and incremented at every call. *)
Fixpoint forEachArgIndexed {St : Type}
    (func : Decl -> nat -> St -> IterResult * St)
    (Options : list Decl) (result : IterResult) (idx : nat) (st : St)
  : IterResult * St :=
  match Options with
  | [] => (result, st)
  | d :: rest =>
      match result with
      | Break => forEachArgIndexed func rest Break idx st
      | Continue =>
          if is_arg_v d
          then let '(r, st') := func d idx st in
               forEachArgIndexed func rest r (S idx) st'
          else forEachArgIndexed func rest Continue idx st
      end
  end.

(** [argumentCount], [hasVarArgs] and [varArgsIndex]: folds over the tuple
    indices. *)
Definition argumentCount (Options : list Decl) : nat :=
  fold_left (fun count d => if is_arg_v d then S count else count) Options O.

Definition hasVarArgs (Options : list Decl) : bool :=
  fold_left (fun found d => if is_varargs_v d then true else found)
    Options false.

Fixpoint varArgsIndex_from (Options : list Decl) (I count : nat) : nat :=
  match Options with
  | [] => count
  | d :: rest =>
      varArgsIndex_from rest (S I) (if is_varargs_v d then I else count)
  end.

Definition varArgsIndex (Options : list Decl) : nat :=
  varArgsIndex_from Options O O.

(** ** The parser *)

(** [m_argv[i]]; [m_argc] is the length of [m_argv]. *)
Definition argv_at (m_argv : list string) (i : Z) : string :=
  nth (Z.to_nat i) m_argv EmptyString.

Definition argc_of (m_argv : list string) : Z := Z.of_nat (length m_argv).

(** The lambda of [tryParseOption]. *)
Definition tryParseOption_func (m_argv : list string) (arg optName : string)
    (inlineValue : option string) (opt : Decl) (c : OptionCapture)
  : IterResult * OptionCapture :=
  match opt with
  | Option_ m_name m_altName T m_field =>
      if negb (matches m_name m_altName optName) then (Continue, c)
      else if is_bool (unwrap_optional_t T) then
        match inlineValue with
        | Some v =>
            match ValueParser_parse TBool v with
            | None =>
                (Break, mkOptionCapture (failure InvalidValue arg)
                          (oc_index c) (oc_options c))
            | Some parsed =>
                (Break, mkOptionCapture success (oc_index c)
                          (<[m_field := store T parsed]> (oc_options c)))
            end
        | None =>
            (Break, mkOptionCapture success (oc_index c)
                      (<[m_field := store T (VBool true)]> (oc_options c)))
        end
      else
        let source :=
          match inlineValue with
          | Some v => Some (v, oc_index c)
          | None =>
              if oc_index c + 1 <? argc_of m_argv
              then Some (argv_at m_argv (oc_index c + 1), oc_index c + 1)
              else None
          end in
        match source with
        | None =>
            (Break, mkOptionCapture (failure MissingValue optName)
                      (oc_index c) (oc_options c))
        | Some (value, index) =>
            match ValueParser_parse (unwrap_optional_t T) value with
            | None =>
                (Break, mkOptionCapture (failure InvalidValue arg)
                          index (oc_options c))
            | Some parsed =>
                (Break, mkOptionCapture success index
                          (<[m_field := store T parsed]> (oc_options c)))
            end
        end
  | _ => (Continue, c)
  end.

(** [optName] and [inlineValue] of a token: the split at the first [=]. *)
Definition optName_of (arg : string) : string :=
  match sv.find "="%char arg with
  | Some eqPos => sv.substr_to eqPos arg
  | None => arg
  end.

Definition inlineValue_of (arg : string) : option string :=
  match sv.find "="%char arg with
  | Some eqPos => Some (sv.substr_from (S eqPos) arg)
  | None => None
  end.

(** [tryParseOption(arg, index)]: the result, with [index] and [m_options]
    as it leaves them. *)
Definition tryParseOption (Options : list Decl) (m_argv : list string)
    (arg : string) (index : Z) (m_options : gmap nat FieldVal)
  : OptionCapture :=
  let optName := optName_of arg in
  let inlineValue := inlineValue_of arg in
  snd (forEachOptionUntil
         (tryParseOption_func m_argv arg optName inlineValue)
         Options Continue
         (mkOptionCapture (failure UnknownOption optName) index m_options)).

(** The lambda of [tryParsePositional]. *)
Definition tryParsePositional_func (value : string) (targetIndex : nat)
    (arg : Decl) (idx : nat) (c : ArgCapture) : IterResult * ArgCapture :=
  match arg with
  | Arg m_name T m_field =>
      if negb (idx =? targetIndex)%nat then (Continue, c)
      else
        match ValueParser_parse (unwrap_optional_t T) value with
        | None =>
            (Break, mkArgCapture (failure InvalidValue value) (ac_options c))
        | Some parsed =>
            (Break, mkArgCapture success
                      (<[m_field := store T parsed]> (ac_options c)))
        end
  | _ => (Continue, c)
  end.

(** [tryParsePositional(value, targetIndex)]. *)
Definition tryParsePositional (Options : list Decl) (value : string)
    (targetIndex : nat) (m_options : gmap nat FieldVal) : ArgCapture :=
  snd (forEachArgIndexed (tryParsePositional_func value targetIndex)
         Options Continue O
         (mkArgCapture (failure TooManyArgs value) m_options)).

(** [setVarArgs(startIndex)]. *)
Definition setVarArgs (Options : list Decl) (m_argv : list string)
    (startIndex : Z) (m_options : gmap nat FieldVal) : gmap nat FieldVal :=
  if hasVarArgs Options then
    match nth_error Options (varArgsIndex Options) with
    | Some (VarArgs m_field) =>
        <[m_field := FArgSpan (mkArgSpan startIndex
                                 (Z.to_nat (argc_of m_argv - startIndex)))]>
          m_options
    | _ => m_options
    end
  else m_options.

(** The lambda of [checkRequired]; it captures [missingArg]. *)
Definition checkRequired_func (count : nat) (arg : Decl) (idx : nat)
    (missingArg : string) : IterResult * string :=
  match arg with
  | Arg m_name T _ =>
      if negb (is_optional_v T) then
        if (count <=? idx)%nat && sv.empty missingArg
        then (Break, m_name)
        else (Continue, missingArg)
      else (Continue, missingArg)
  | _ => (Continue, missingArg)
  end.

(** [checkRequired(count)]. *)
Definition checkRequired (Options : list Decl) (count : nat) : ParseResult :=
  let missingArg :=
    snd (forEachArgIndexed (checkRequired_func count) Options Continue O
           EmptyString) in
  if negb (sv.empty missingArg)
  then failure MissingRequiredArg missingArg
  else success.

(** How one pass through the body of the [for] loop of [parse] ends: at the
    end of the body (then [++i] follows), at a [break], or at a [return]. *)
Inductive BodyExit : Set :=
| BodyEnd (i : Z) (positionalIndex : nat) (m_options : gmap nat FieldVal)
| BodyBreak (varArgsStart : Z) (positionalIndex : nat)
    (m_options : gmap nat FieldVal)
| BodyReturn (result : ParseResult) (m_options : gmap nat FieldVal).

(** The body of the [for] loop of [parse]. *)
Definition parse_body (Options : list Decl) (m_argv : list string)
    (i : Z) (positionalIndex : nat) (varArgsStart : Z)
    (m_options : gmap nat FieldVal) : BodyExit :=
  let arg := argv_at m_argv i in
  if String.eqb arg "--" then
    BodyBreak (if i + 1 <? argc_of m_argv then i + 1 else varArgsStart)
      positionalIndex m_options
  else if sv.starts_with "-"%char arg then
    let c := tryParseOption Options m_argv arg i m_options in
    if negb (isOk (oc_result c))
    then BodyReturn (oc_result c) (oc_options c)
    else BodyEnd (oc_index c) positionalIndex (oc_options c)
  else
    let c := tryParsePositional Options arg positionalIndex m_options in
    if isOk (ac_result c)
    then BodyEnd i (S positionalIndex) (ac_options c)
    else
      match error (ac_result c) with
      | TooManyArgs =>
          if hasVarArgs Options
          then BodyBreak i positionalIndex (ac_options c)
          else BodyReturn (ac_result c) (ac_options c)
      | _ => BodyReturn (ac_result c) (ac_options c)
      end.

(** The statements of [parse] after the loop. *)
Definition parse_tail (Options : list Decl) (m_argv : list string)
    (varArgsStart : Z) (positionalIndex : nat)
    (m_options : gmap nat FieldVal) : ParseResult * gmap nat FieldVal :=
  (checkRequired Options positionalIndex,
   if 0 <=? varArgsStart
   then setVarArgs Options m_argv varArgsStart m_options
   else m_options).

(** The [for] loop of [parse] from index [i], followed by the tail.  [fuel]
    bounds the number of passes; [None] means it ran out. *)
Fixpoint parse_loop (fuel : nat) (Options : list Decl) (m_argv : list string)
    (i : Z) (positionalIndex : nat) (varArgsStart : Z)
    (m_options : gmap nat FieldVal)
  : option (ParseResult * gmap nat FieldVal) :=
  if argc_of m_argv <=? i
  then Some (parse_tail Options m_argv varArgsStart positionalIndex m_options)
  else
    match fuel with
    | O => None
    | S fuel' =>
        match parse_body Options m_argv i positionalIndex varArgsStart
                m_options with
        | BodyEnd i' positionalIndex' m_options' =>
            parse_loop fuel' Options m_argv (i' + 1) positionalIndex'
              varArgsStart m_options'
        | BodyBreak varArgsStart' positionalIndex' m_options' =>
            Some (parse_tail Options m_argv varArgsStart' positionalIndex'
                    m_options')
        | BodyReturn result m_options' => Some (result, m_options')
        end
    end.

(** [ArgParser<T>::parse()] on the tokens [m_argv], starting from the
    options struct [m_options]: the result and the struct it leaves. *)
Definition parse (Options : list Decl) (m_argv : list string)
    (m_options : gmap nat FieldVal)
  : option (ParseResult * gmap nat FieldVal) :=
  parse_loop (length m_argv) Options m_argv 1 O (-1) m_options.

(** The constructor of [ArgParser]: what it leaves in [m_programName]. *)
Definition programName (m_argv : list string) : string :=
  if 0 <? argc_of m_argv then
    let m_programName := argv_at m_argv 0 in
    match sv.find_last_of "/"%char m_programName with
    | Some slash => sv.substr_from (S slash) m_programName
    | None => m_programName
    end
  else EmptyString.

(** ** [ArgSpan] members *)

(** The default-constructed [ArgSpan]. *)
Definition ArgSpan_default : ArgSpan := mkArgSpan 0 O.

Definition ArgSpan_size (sp : ArgSpan) : nat := span_size sp.

Definition ArgSpan_empty (sp : ArgSpan) : bool := (span_size sp =? 0)%nat.

(** [operator[]]: element [idx] of the span over [m_argv]. *)
Definition ArgSpan_at (m_argv : list string) (sp : ArgSpan) (idx : nat)
  : string :=
  argv_at m_argv (span_data sp + Z.of_nat idx).

Definition ArgSpan_front (m_argv : list string) (sp : ArgSpan) : string :=
  ArgSpan_at m_argv sp O.

Definition ArgSpan_back (m_argv : list string) (sp : ArgSpan) : string :=
  ArgSpan_at m_argv sp (span_size sp - 1).

(** [begin()] and [end()]: iterators are offsets into [m_argv]. *)
Definition ArgSpan_begin (sp : ArgSpan) : Z := span_data sp.
Definition ArgSpan_end (sp : ArgSpan) : Z :=
  span_data sp + Z.of_nat (span_size sp).

(** A range-based [for] over iterators: dereference and increment until
    [it == end].  [None] means the fuel ran out. *)
Fixpoint range_for (fuel : nat) (m_argv : list string) (it end_ : Z)
  : option (list string) :=
  if it =? end_ then Some []
  else
    match fuel with
    | O => None
    | S fuel' =>
        option_map (cons (argv_at m_argv it))
          (range_for fuel' m_argv (it + 1) end_)
    end.

(** [for (auto arg : span)], collecting the elements. *)
Definition ArgSpan_collect (m_argv : list string) (sp : ArgSpan)
  : option (list string) :=
  range_for (span_size sp) m_argv (ArgSpan_begin sp) (ArgSpan_end sp).

(** ** Notions used to state the properties *)

(** The first declared option whose primary or alternate name is exactly
    [optName], in declaration order. *)
Definition first_match (Options : list Decl) (optName : string) : option Decl :=
  List.find
    (fun d =>
       match d with
       | Option_ m_name m_altName _ _ =>
           String.eqb optName m_name || String.eqb optName m_altName
       | _ => false
       end) Options.

(** The positional slots, in declaration order. *)
Definition slots (Options : list Decl) : list Decl :=
  List.filter is_arg_v Options.

(** The field a token addresses when it is scanned with fill count
    [positionalIndex]: that of the first matching option for a dash token,
    that of the slot at the fill count otherwise. *)
Definition addressed_field (Options : list Decl) (arg : string)
    (positionalIndex : nat) : option nat :=
  if sv.starts_with "-"%char arg then
    match first_match Options (optName_of arg) with
    | Some (Option_ _ _ _ m_field) => Some m_field
    | _ => None
    end
  else
    match nth_error (slots Options) positionalIndex with
    | Some (Arg _ _ m_field) => Some m_field
    | _ => None
    end.

(** The name of the first slot, from slot number [idx] on, that is not
    optional-wrapped and that the fill count [count] did not reach: the
    slots numbered below [count] are the filled ones. *)
Fixpoint first_unmet (args : list Decl) (idx count : nat) : option string :=
  match args with
  | [] => None
  | Arg m_name T _ :: rest =>
      if negb (is_optional_v T) && (count <=? idx)%nat then Some m_name
      else first_unmet rest (S idx) count
  | _ :: rest => first_unmet rest idx count
  end.

(** [m_field] is the field of the variadic slot the parser writes: that
    of the last [VarArgs] of the tuple. *)
Definition is_variadic_slot (Options : list Decl) (m_field : nat) : Prop :=
  exists l1 l2,
    Options = l1 ++ VarArgs m_field :: l2
    /\ forall d, In d l2 -> is_varargs_v d = false.

(** The state of the scan between two passes of the loop. *)
Record ScanState : Set := mkScanState {
  st_i : Z;
  st_positionalIndex : nat;
  st_options : gmap nat FieldVal
}.

(** [scan Options m_argv s s']: from [s] the loop reaches [s'] through
    passes that all run to the end of the body. *)
Inductive scan (Options : list Decl) (m_argv : list string)
  : ScanState -> ScanState -> Prop :=
| scan_here s : scan Options m_argv s s
| scan_pass s i' positionalIndex' m_options' s' :
    st_i s < argc_of m_argv ->
    parse_body Options m_argv (st_i s) (st_positionalIndex s) (-1)
      (st_options s) = BodyEnd i' positionalIndex' m_options' ->
    scan Options m_argv (mkScanState (i' + 1) positionalIndex' m_options') s' ->
    scan Options m_argv s s'.

(** The loop of [parse] resumed in state [s]. *)
Definition parse_from (Options : list Decl) (m_argv : list string)
    (s : ScanState) : option (ParseResult * gmap nat FieldVal) :=
  parse_loop (length m_argv) Options m_argv (st_i s) (st_positionalIndex s)
    (-1) (st_options s).

(** The state in which [parse] enters its loop. *)
Definition initial (m_options : gmap nat FieldVal) : ScanState :=
  mkScanState 1 O m_options.

(** A list of assignments [field := contents], carried out from left to
    right. *)
Definition assign_all (log : list (nat * FieldVal))
    (m_options : gmap nat FieldVal) : gmap nat FieldVal :=
  fold_left (fun m p => <[fst p := snd p]> m) log m_options.

(** * Properties *)

(** ** Strings *)

Lemma find_Some_split c s p :
  sv.find c s = Some p ->
  s = sv.substr_to p s +:+ String c (sv.substr_from (S p) s)
  /\ sv.find c (sv.substr_to p s) = None.
Proof.
  revert p. induction s as [|a s IH]; intros p; simpl; [discriminate|].
  destruct (Ascii.eqb_spec a c) as [->|Hne].
  - intros [= <-]. simpl. auto.
  - destruct (sv.find c s) as [q|] eqn:Hq; simpl; [|discriminate].
    intros [= <-]. destruct (IH q eq_refl) as [Hs Hn].
    split; [rewrite Hs at 1; reflexivity|].
    cbn [sv.substr_to sv.find].
    destruct (Ascii.eqb_spec a c); [contradiction|]. now rewrite Hn.
Qed.

Lemma find_None_iff c s : sv.find c s = None <-> ~ contains c s.
Proof.
  split.
  - induction s as [|a s IH]; simpl; intros Hf (s1 & s2 & Heq).
    + destruct s1; discriminate.
    + destruct (Ascii.eqb_spec a c) as [->|Hne]; [discriminate|].
      destruct (sv.find c s); [discriminate|].
      destruct s1 as [|b s1]; simpl in Heq; injection Heq as Hb Hs.
      * congruence.
      * apply IH; [reflexivity|]. now exists s1, s2.
  - intros Hn. destruct (sv.find c s) as [p|] eqn:Hf; [|reflexivity].
    exfalso. apply Hn. apply find_Some_split in Hf as [Hs _].
    eexists _, _. exact Hs.
Qed.

(** ** Digits *)

Lemma all_digits_cons c s :
  all_digits (String c s)
  = is_digit c && (sv.empty s || all_digits s).
Proof. destruct s; simpl; [now rewrite andb_true_r|reflexivity]. Qed.

Lemma scan_digits_all s n acc :
  sv.empty s || all_digits s = true ->
  scan_digits s n acc
  = ((n + String.length s)%nat,
     acc * 10 ^ Z.of_nat (String.length s) + decimal_value s).
Proof.
  revert n acc. induction s as [|c s IH]; intros n acc Hd.
  - simpl. f_equal; lia.
  - rewrite all_digits_cons in Hd. simpl in Hd.
    apply andb_true_iff in Hd as [Hc Hs].
    cbn [scan_digits String.length decimal_value]. rewrite Hc, (IH _ _ Hs).
    f_equal; [lia|]. rewrite Nat2Z.inj_succ, Z.pow_succ_r by lia. ring.
Qed.

Lemma scan_digits_partial s n acc :
  sv.empty s || all_digits s = false ->
  (fst (scan_digits s n acc) < n + String.length s)%nat.
Proof.
  revert n acc. induction s as [|c s IH]; intros n acc Hd; [discriminate|].
  rewrite all_digits_cons in Hd. cbn [sv.empty orb] in Hd.
  cbn [scan_digits String.length].
  destruct (is_digit c); simpl in Hd |- *; [|lia].
  specialize (IH (S n) (10 * acc + digit_value c) Hd). lia.
Qed.

(** ** Iteration over the declarations *)

Lemma forEachOptionUntil_Break {St : Type}
    (func : Decl -> St -> IterResult * St) Options st :
  forEachOptionUntil func Options Break st = (Break, st).
Proof. induction Options as [|d rest IH]; simpl; auto. Qed.

Lemma forEachArgIndexed_Break {St : Type}
    (func : Decl -> nat -> St -> IterResult * St) Options idx st :
  forEachArgIndexed func Options Break idx st = (Break, st).
Proof. induction Options as [|d rest IH]; simpl; auto. Qed.

Lemma tryParseOption_func_match m_argv arg optName inlineValue
    m_name m_altName T m_field c :
  matches m_name m_altName optName = true ->
  fst (tryParseOption_func m_argv arg optName inlineValue
         (Option_ m_name m_altName T m_field) c) = Break.
Proof.
  intros Hm. unfold tryParseOption_func. rewrite Hm. cbn [negb].
  destruct (is_bool (unwrap_optional_t T)).
  - destruct inlineValue as [v|]; [|reflexivity].
    destruct (ValueParser_parse TBool v); reflexivity.
  - destruct inlineValue as [v|].
    + destruct (ValueParser_parse (unwrap_optional_t T) v); reflexivity.
    + destruct (oc_index c + 1 <? argc_of m_argv); [|reflexivity].
      destruct (ValueParser_parse _ _); reflexivity.
Qed.

(** The fold of [tryParseOption] stops at the first matching option and
    runs the lambda on it alone. *)
Lemma forEachOptionUntil_first_match m_argv arg optName inlineValue Options c :
  forEachOptionUntil (tryParseOption_func m_argv arg optName inlineValue)
    Options Continue c
  = match first_match Options optName with
    | Some d =>
        (Break, snd (tryParseOption_func m_argv arg optName inlineValue d c))
    | None => (Continue, c)
    end.
Proof.
  unfold first_match.
  induction Options as [|d rest IH]; [reflexivity|].
  cbn [forEachOptionUntil List.find].
  destruct d as [n a T f|n T f|f]; cbn [is_option_v]; try exact IH.
  fold (matches n a optName).
  destruct (matches n a optName) eqn:Hm.
  - pose proof (tryParseOption_func_match m_argv arg optName inlineValue
                  n a T f c Hm) as Hb.
    destruct (tryParseOption_func _ _ _ _ _ c) as [r c']. simpl in Hb.
    subst r. apply forEachOptionUntil_Break.
  - unfold tryParseOption_func at 1. rewrite Hm. cbn [negb]. exact IH.
Qed.

Lemma tryParseOption_first_match Options m_argv arg index m_options :
  tryParseOption Options m_argv arg index m_options
  = let c0 := mkOptionCapture (failure UnknownOption (optName_of arg))
                index m_options in
    match first_match Options (optName_of arg) with
    | Some d =>
        snd (tryParseOption_func m_argv arg (optName_of arg)
               (inlineValue_of arg) d c0)
    | None => c0
    end.
Proof.
  unfold tryParseOption. rewrite forEachOptionUntil_first_match.
  destruct (first_match _ _); reflexivity.
Qed.

Lemma first_match_Some Options optName d :
  first_match Options optName = Some d ->
  exists m_name m_altName T m_field,
    d = Option_ m_name m_altName T m_field
    /\ matches m_name m_altName optName = true.
Proof.
  unfold first_match. intros H. apply find_some in H as [_ H].
  destruct d as [n a T f| |]; try discriminate. now exists n, a, T, f.
Qed.

(** The first match, spelled out on the declaration list. *)
Lemma first_match_split Options optName l1 m_name m_altName T m_field l2 :
  Options = l1 ++ Option_ m_name m_altName T m_field :: l2 ->
  (forall n a T' f, In (Option_ n a T' f) l1 -> optName <> n /\ optName <> a) ->
  optName = m_name \/ optName = m_altName ->
  first_match Options optName = Some (Option_ m_name m_altName T m_field).
Proof.
  intros -> Hl1 Hm. unfold first_match.
  induction l1 as [|d l1 IH]; cbn [app List.find].
  - destruct Hm as [<-|<-]; rewrite String.eqb_refl;
      [reflexivity|now rewrite orb_true_r].
  - destruct d as [n a T' f| |].
    + destruct (Hl1 n a T' f (or_introl eq_refl)) as [Hn Ha].
      apply String.eqb_neq in Hn, Ha. rewrite Hn, Ha. simpl.
      apply IH. intros ? ? ? ? Hin. eapply Hl1. right. exact Hin.
    + apply IH. intros ? ? ? ? Hin. eapply Hl1. right. exact Hin.
    + apply IH. intros ? ? ? ? Hin. eapply Hl1. right. exact Hin.
Qed.

Lemma first_match_None Options optName :
  (forall n a T f, In (Option_ n a T f) Options -> optName <> n /\ optName <> a) ->
  first_match Options optName = None.
Proof.
  intros H. unfold first_match.
  induction Options as [|d rest IH]; [reflexivity|]. cbn [List.find].
  destruct d as [n a T f| |].
  - destruct (H n a T f (or_introl eq_refl)) as [Hn Ha].
    apply String.eqb_neq in Hn, Ha. rewrite Hn, Ha. simpl.
    apply IH. intros ? ? ? ? Hin. eapply H. right. exact Hin.
  - apply IH. intros ? ? ? ? Hin. eapply H. right. exact Hin.
  - apply IH. intros ? ? ? ? Hin. eapply H. right. exact Hin.
Qed.

(** The fold of [tryParsePositional] runs the lambda on the slot numbered
    [targetIndex], if there is one. *)
Lemma forEachArgIndexed_slot value targetIndex Options idx c :
  (idx <= targetIndex)%nat ->
  forEachArgIndexed (tryParsePositional_func value targetIndex)
    Options Continue idx c
  = match nth_error (slots Options) (targetIndex - idx) with
    | Some d =>
        (Break, snd (tryParsePositional_func value targetIndex d targetIndex c))
    | None => (Continue, c)
    end.
Proof.
  revert idx. unfold slots.
  induction Options as [|d rest IH]; intros idx Hle.
  - simpl. now destruct (targetIndex - idx)%nat.
  - cbn [forEachArgIndexed List.filter].
    destruct d as [n a T f|n T f|f]; cbn [is_arg_v]; try (apply IH; lia).
    unfold tryParsePositional_func at 1.
    destruct (Nat.eqb_spec idx targetIndex) as [->|Hne]; cbn [negb].
    + rewrite Nat.sub_diag. cbn [nth_error].
      unfold tryParsePositional_func.
      rewrite Nat.eqb_refl. cbn [negb].
      destruct (ValueParser_parse _ _); rewrite forEachArgIndexed_Break;
        reflexivity.
    + rewrite IH by lia.
      replace (targetIndex - idx)%nat with (S (targetIndex - S idx)) by lia.
      reflexivity.
Qed.

Lemma tryParsePositional_slot Options value targetIndex m_options :
  tryParsePositional Options value targetIndex m_options
  = let c0 := mkArgCapture (failure TooManyArgs value) m_options in
    match nth_error (slots Options) targetIndex with
    | Some d => snd (tryParsePositional_func value targetIndex d targetIndex c0)
    | None => c0
    end.
Proof.
  unfold tryParsePositional. rewrite forEachArgIndexed_slot by lia.
  rewrite Nat.sub_0_r. destruct (nth_error _ _); reflexivity.
Qed.

Lemma slots_are_args Options n d :
  nth_error (slots Options) n = Some d ->
  exists m_name T m_field, d = Arg m_name T m_field.
Proof.
  intros H. apply nth_error_In in H. apply filter_In in H as [_ H].
  destruct d as [|n' T f|]; try discriminate. now exists n', T, f.
Qed.

Lemma argumentCount_slots Options :
  argumentCount Options = length (slots Options).
Proof.
  unfold argumentCount, slots.
  enough (H : forall n,
             fold_left (fun count d => if is_arg_v d then S count else count)
               Options n
             = (n + length (List.filter is_arg_v Options))%nat)
    by apply (H O).
  induction Options as [|d rest IH]; intros n; simpl; [lia|].
  rewrite IH. destruct (is_arg_v d); simpl; lia.
Qed.

(** The fold of [checkRequired] stops at the first unmet required slot. *)
Lemma forEachArgIndexed_checkRequired count Options idx :
  forEachArgIndexed (checkRequired_func count) Options Continue idx EmptyString
  = match first_unmet Options idx count with
    | Some m_name => (Break, m_name)
    | None => (Continue, EmptyString)
    end.
Proof.
  revert idx. induction Options as [|d rest IH]; intros idx; [reflexivity|].
  cbn [forEachArgIndexed first_unmet].
  destruct d as [n a T f|n T f|f]; cbn [is_arg_v]; try apply IH.
  unfold checkRequired_func.
  destruct (is_optional_v T); cbn [negb andb]; [apply IH|].
  destruct (count <=? idx)%nat; cbn [andb sv.empty]; [|apply IH].
  apply forEachArgIndexed_Break.
Qed.

Lemma checkRequired_first_unmet Options count :
  checkRequired Options count
  = match first_unmet Options O count with
    | Some m_name =>
        if sv.empty m_name then success
        else failure MissingRequiredArg m_name
    | None => success
    end.
Proof.
  unfold checkRequired. rewrite forEachArgIndexed_checkRequired.
  destruct (first_unmet Options O count) as [n|]; [|reflexivity].
  cbn [snd]. now destruct (sv.empty n).
Qed.

(** ** What one token does *)

Local Ltac effect_cases :=
  cbn; repeat split; intros; try lia; try discriminate; eauto 10.

(** [tryParseOption] advances [index] by at most one, writes nothing when
    it fails, and writes the field of the first matching option when it
    succeeds. *)
Lemma tryParseOption_effect Options m_argv arg index m_options :
  let c := tryParseOption Options m_argv arg index m_options in
  index <= oc_index c <= index + 1
  /\ (isOk (oc_result c) = false -> oc_options c = m_options)
  /\ (isOk (oc_result c) = true ->
      exists m_name m_altName T m_field v,
        first_match Options (optName_of arg)
        = Some (Option_ m_name m_altName T m_field)
        /\ oc_options c = <[m_field := v]> m_options).
Proof.
  cbv zeta. rewrite tryParseOption_first_match. cbv zeta.
  destruct (first_match Options (optName_of arg)) as [d|] eqn:Hfm.
  2:{ effect_cases. }
  destruct (first_match_Some _ _ _ Hfm) as (n & a & T & f & -> & Hm).
  unfold tryParseOption_func. rewrite Hm. cbn [negb].
  destruct (is_bool (unwrap_optional_t T)).
  - destruct (inlineValue_of arg) as [v|].
    + destruct (ValueParser_parse TBool v) as [parsed|]; effect_cases.
    + effect_cases.
  - destruct (inlineValue_of arg) as [v|].
    + destruct (ValueParser_parse (unwrap_optional_t T) v) as [parsed|]; effect_cases.
    + cbn [oc_index oc_options].
      destruct (index + 1 <? argc_of m_argv).
      * destruct (ValueParser_parse _ _) as [parsed|]; effect_cases.
      * effect_cases.
Qed.

(** [tryParsePositional] reports [TooManyArgs] exactly when no slot is
    left, writes nothing when it fails, and writes the field of the slot
    at the fill count when it succeeds. *)
Lemma tryParsePositional_effect Options value targetIndex m_options :
  let c := tryParsePositional Options value targetIndex m_options in
  (isOk (ac_result c) = false -> ac_options c = m_options)
  /\ (isOk (ac_result c) = true ->
      exists m_name T m_field v,
        nth_error (slots Options) targetIndex = Some (Arg m_name T m_field)
        /\ ac_options c = <[m_field := v]> m_options)
  /\ (nth_error (slots Options) targetIndex = None ->
      ac_result c = failure TooManyArgs value)
  /\ (error (ac_result c) = TooManyArgs ->
      nth_error (slots Options) targetIndex = None).
Proof.
  cbv zeta. rewrite tryParsePositional_slot. cbv zeta.
  destruct (nth_error (slots Options) targetIndex) as [d|] eqn:Hn.
  2:{ effect_cases. }
  destruct (slots_are_args _ _ _ Hn) as (n & T & f & ->).
  unfold tryParsePositional_func. rewrite Nat.eqb_refl. cbn [negb].
  destruct (ValueParser_parse (unwrap_optional_t T) value) as [parsed|]; effect_cases.
Qed.

(** A pass that runs to the end of the body moved on by one or two tokens
    and assigned the field its token addresses; a pass that breaks or
    returns assigned nothing. *)
Lemma parse_body_BodyEnd Options m_argv i positionalIndex varArgsStart m_options
    i' positionalIndex' m_options' :
  parse_body Options m_argv i positionalIndex varArgsStart m_options
  = BodyEnd i' positionalIndex' m_options' ->
  i <= i' <= i + 1
  /\ exists m_field v,
       addressed_field Options (argv_at m_argv i) positionalIndex
       = Some m_field
       /\ m_options' = <[m_field := v]> m_options.
Proof.
  unfold parse_body, addressed_field.
  destruct (String.eqb _ "--"); [discriminate|].
  destruct (sv.starts_with _ _).
  - pose proof (tryParseOption_effect Options m_argv (argv_at m_argv i) i
                  m_options) as (Hi & _ & Hok).
    cbv zeta in Hi, Hok.
    destruct (isOk (oc_result _)); cbn [negb]; [|discriminate].
    intros [= <- <- <-]. split; [exact Hi|].
    destruct (Hok eq_refl) as (n & a & T & f & v & Hfm & Hm).
    rewrite Hfm. eauto.
  - pose proof (tryParsePositional_effect Options (argv_at m_argv i)
                  positionalIndex m_options) as (_ & Hok & _).
    cbv zeta in Hok.
    destruct (isOk (ac_result _)).
    + intros [= <- <- <-]. split; [lia|].
      destruct (Hok eq_refl) as (n & T & f & v & Hn & Hm).
      rewrite Hn. eauto.
    + destruct (error (ac_result _)); try discriminate.
      destruct (hasVarArgs Options); discriminate.
Qed.

Lemma parse_body_BodyReturn Options m_argv i positionalIndex varArgsStart
    m_options result m_options' :
  parse_body Options m_argv i positionalIndex varArgsStart m_options
  = BodyReturn result m_options' ->
  isOk result = false /\ m_options' = m_options.
Proof.
  unfold parse_body.
  destruct (String.eqb _ "--"); [discriminate|].
  destruct (sv.starts_with _ _).
  - pose proof (tryParseOption_effect Options m_argv (argv_at m_argv i) i
                  m_options) as (_ & Hfail & _).
    cbv zeta in Hfail.
    destruct (isOk (oc_result _)) eqn:Hok; cbn [negb]; [discriminate|].
    intros [= <- <-]. auto.
  - pose proof (tryParsePositional_effect Options (argv_at m_argv i)
                  positionalIndex m_options) as (Hfail & _).
    cbv zeta in Hfail.
    destruct (isOk (ac_result _)) eqn:Hok; [discriminate|].
    destruct (error (ac_result _)); try (intros [= <- <-]; auto).
    destruct (hasVarArgs Options); [discriminate|]. intros [= <- <-]; auto.
Qed.

Lemma parse_body_BodyBreak Options m_argv i positionalIndex varArgsStart
    m_options varArgsStart' positionalIndex' m_options' :
  parse_body Options m_argv i positionalIndex varArgsStart m_options
  = BodyBreak varArgsStart' positionalIndex' m_options' ->
  positionalIndex' = positionalIndex /\ m_options' = m_options.
Proof.
  unfold parse_body.
  destruct (String.eqb _ "--"); [intros [= _ <- <-]; auto|].
  destruct (sv.starts_with _ _).
  - destruct (isOk (oc_result _)); discriminate.
  - pose proof (tryParsePositional_effect Options (argv_at m_argv i)
                  positionalIndex m_options) as (Hfail & _).
    cbv zeta in Hfail.
    destruct (isOk (ac_result _)) eqn:Hok; [discriminate|].
    destruct (error (ac_result _)); try discriminate.
    destruct (hasVarArgs Options); [|discriminate]. intros [= _ <- <-]; auto.
Qed.

(** ** The loop *)

(** Fuel beyond the number of remaining tokens changes nothing. *)
Lemma parse_loop_fuel Options m_argv varArgsStart n :
  forall fuel i positionalIndex m_options,
    (Z.to_nat (argc_of m_argv - i) <= n)%nat -> (n <= fuel)%nat ->
    parse_loop fuel Options m_argv i positionalIndex varArgsStart m_options
    = parse_loop n Options m_argv i positionalIndex varArgsStart m_options.
Proof.
  induction n as [|n IH]; intros fuel i pos m Hn Hfuel.
  - destruct fuel; cbn [parse_loop];
      destruct (Z.leb_spec (argc_of m_argv) i); try reflexivity; lia.
  - destruct fuel as [|fuel]; [lia|]. cbn [parse_loop].
    destruct (Z.leb_spec (argc_of m_argv) i); [reflexivity|].
    destruct (parse_body _ _ _ _ _ _) as [i' pos' m'| |] eqn:Hb;
      try reflexivity.
    apply parse_body_BodyEnd in Hb as [Hi _]. apply IH; lia.
Qed.

(** The loop terminates: with one unit of fuel per remaining token it
    returns. *)
Lemma parse_loop_total Options m_argv varArgsStart n :
  forall i positionalIndex m_options,
    (Z.to_nat (argc_of m_argv - i) <= n)%nat ->
    exists r,
      parse_loop n Options m_argv i positionalIndex varArgsStart m_options
      = Some r.
Proof.
  induction n as [|n IH]; intros i pos m Hn; cbn [parse_loop];
    destruct (Z.leb_spec (argc_of m_argv) i); eauto; try lia.
  destruct (parse_body _ _ _ _ _ _) as [i' pos' m'| |] eqn:Hb; eauto.
  apply parse_body_BodyEnd in Hb as [Hi _]. apply IH; lia.
Qed.

(** The loop, one pass at a time. *)
Lemma parse_from_unfold Options m_argv s :
  0 <= st_i s ->
  parse_from Options m_argv s
  = if argc_of m_argv <=? st_i s
    then Some (parse_tail Options m_argv (-1) (st_positionalIndex s)
                 (st_options s))
    else
      match parse_body Options m_argv (st_i s) (st_positionalIndex s) (-1)
              (st_options s) with
      | BodyEnd i' positionalIndex' m_options' =>
          parse_from Options m_argv
            (mkScanState (i' + 1) positionalIndex' m_options')
      | BodyBreak varArgsStart' positionalIndex' m_options' =>
          Some (parse_tail Options m_argv varArgsStart' positionalIndex'
                  m_options')
      | BodyReturn result m_options' => Some (result, m_options')
      end.
Proof.
  intros Hi. unfold parse_from at 1.
  rewrite <- (parse_loop_fuel _ _ _ (length m_argv) (S (length m_argv)))
    by (unfold argc_of; lia).
  reflexivity.
Qed.

Lemma parse_from_total Options m_argv s :
  0 <= st_i s -> exists r, parse_from Options m_argv s = Some r.
Proof.
  intros Hi. apply parse_loop_total. unfold argc_of. lia.
Qed.

(** [parse] always returns. *)
Lemma parse_total Options m_argv m_options :
  exists r, parse Options m_argv m_options = Some r.
Proof. apply (parse_from_total Options m_argv (initial m_options)). cbn. lia. Qed.

Lemma scan_index Options m_argv s s' :
  scan Options m_argv s s' -> st_i s <= st_i s'.
Proof.
  induction 1 as [s|s i' pos' m' s' Hlt Hb _ IH]; [lia|].
  apply parse_body_BodyEnd in Hb as [Hi _]. cbn in IH. lia.
Qed.

(** Resuming the loop anywhere along the scan gives the same outcome. *)
Lemma scan_parse_from Options m_argv s s' :
  scan Options m_argv s s' -> 0 <= st_i s ->
  parse_from Options m_argv s = parse_from Options m_argv s'.
Proof.
  induction 1 as [s|s i' pos' m' s' Hlt Hb _ IH]; intros Hi; [reflexivity|].
  rewrite parse_from_unfold by exact Hi.
  destruct (Z.leb_spec (argc_of m_argv) (st_i s)); [lia|].
  rewrite Hb. apply IH. cbn.
  apply parse_body_BodyEnd in Hb as [Hi' _]. lia.
Qed.

Lemma parse_scan Options m_argv m_options s :
  scan Options m_argv (initial m_options) s ->
  parse Options m_argv m_options = parse_from Options m_argv s
  /\ 1 <= st_i s.
Proof.
  intros Hs. split.
  - apply (scan_parse_from _ _ _ _ Hs). cbn. lia.
  - apply scan_index in Hs. cbn in Hs. exact Hs.
Qed.

(** Every run of the loop is a scan that ends in one of three ways: the
    tokens are exhausted, a pass breaks, or a pass returns. *)
Lemma parse_from_outcome Options m_argv n :
  forall s0 r,
    (Z.to_nat (argc_of m_argv - st_i s0) <= n)%nat -> 0 <= st_i s0 ->
    parse_from Options m_argv s0 = Some r ->
    exists s,
      scan Options m_argv s0 s
      /\ ((argc_of m_argv <= st_i s
           /\ r = parse_tail Options m_argv (-1) (st_positionalIndex s)
                    (st_options s))
          \/ (st_i s < argc_of m_argv
              /\ exists varArgsStart,
                   parse_body Options m_argv (st_i s) (st_positionalIndex s)
                     (-1) (st_options s)
                   = BodyBreak varArgsStart (st_positionalIndex s)
                       (st_options s)
                   /\ r = parse_tail Options m_argv varArgsStart
                            (st_positionalIndex s) (st_options s))
          \/ (st_i s < argc_of m_argv
              /\ exists result,
                   parse_body Options m_argv (st_i s) (st_positionalIndex s)
                     (-1) (st_options s)
                   = BodyReturn result (st_options s)
                   /\ r = (result, st_options s))).
Proof.
  induction n as [|n IH]; intros s0 r Hn Hi; rewrite parse_from_unfold by exact Hi;
    destruct (Z.leb_spec (argc_of m_argv) (st_i s0)) as [Hle|Hlt]; try lia.
  - intros [= <-]. exists s0. split; [constructor|]. left. auto.
  - intros [= <-]. exists s0. split; [constructor|]. left. auto.
  - destruct (parse_body _ _ _ _ _ _) as [i' pos' m'|v pos' m'|res m'] eqn:Hb.
    + intros Hr. pose proof (parse_body_BodyEnd _ _ _ _ _ _ _ _ _ Hb) as [Hi' _].
      destruct (IH (mkScanState (i' + 1) pos' m') r) as (s & Hs & Hcase);
        cbn; try lia; try exact Hr.
      exists s. split; [|exact Hcase]. eapply scan_pass; eauto.
    + intros [= <-].
      pose proof (parse_body_BodyBreak _ _ _ _ _ _ _ _ _ Hb) as [-> ->].
      exists s0. split; [constructor|]. right. left. eauto.
    + intros [= <-].
      pose proof (parse_body_BodyReturn _ _ _ _ _ _ _ _ Hb) as [_ ->].
      exists s0. split; [constructor|]. right. right. eauto.
Qed.

(** A field that no scanned token addressed keeps the value it had. *)
Lemma scan_frame Options m_argv s0 s :
  scan Options m_argv s0 s ->
  forall m_field,
    (forall s',
        scan Options m_argv s0 s' -> st_i s' < st_i s ->
        addressed_field Options (argv_at m_argv (st_i s'))
          (st_positionalIndex s') <> Some m_field) ->
    st_options s !! m_field = st_options s0 !! m_field.
Proof.
  induction 1 as [s|s0 i' pos' m' s Hlt Hb Hs IH]; intros f Hf; [reflexivity|].
  pose proof (scan_index _ _ _ _ Hs) as Hmono. cbn in Hmono.
  pose proof (parse_body_BodyEnd _ _ _ _ _ _ _ _ _ Hb)
    as (Hi' & g & v & Hg & ->).
  rewrite IH.
  - cbn. apply lookup_insert_ne. intros ->.
    apply (Hf s0); [constructor|lia|exact Hg].
  - intros s' Hs' Hlt'. apply Hf; [|exact Hlt'].
    eapply scan_pass; eauto.
Qed.

(** ** The variadic slot *)

Lemma hasVarArgs_fold_true l :
  fold_left (fun found d => if is_varargs_v d then true else found) l true
  = true.
Proof. induction l as [|d l IH]; simpl; [|destruct (is_varargs_v d)]; auto. Qed.

Lemma hasVarArgs_false Options :
  hasVarArgs Options = false <-> forall f, ~ In (VarArgs f) Options.
Proof.
  unfold hasVarArgs. induction Options as [|d rest IH]; simpl.
  - split; auto.
  - destruct d as [n a T f|n T f|f]; simpl.
    + rewrite IH. split; [intros H g [?|?]; [discriminate|eapply H; eauto]|].
      intros H g Hg. eapply H; eauto.
    + rewrite IH. split; [intros H g [?|?]; [discriminate|eapply H; eauto]|].
      intros H g Hg. eapply H; eauto.
    + rewrite hasVarArgs_fold_true. split; [discriminate|].
      intros H. exfalso. eapply H; eauto.
Qed.

Lemma varArgsIndex_from_none l :
  forall I count,
    (forall d, In d l -> is_varargs_v d = false) ->
    varArgsIndex_from l I count = count.
Proof.
  induction l as [|d l IH]; intros I count H; [reflexivity|].
  cbn [varArgsIndex_from]. rewrite (H d (or_introl eq_refl)).
  apply IH. intros; apply H; now right.
Qed.

Lemma varArgsIndex_from_last l1 m_field l2 :
  forall I count,
    (forall d, In d l2 -> is_varargs_v d = false) ->
    varArgsIndex_from (l1 ++ VarArgs m_field :: l2) I count
    = (I + length l1)%nat.
Proof.
  induction l1 as [|d l1 IH]; intros I count H.
  - cbn. rewrite varArgsIndex_from_none by exact H. lia.
  - cbn [app varArgsIndex_from length]. rewrite IH by exact H. lia.
Qed.

Lemma hasVarArgs_slot Options m_field :
  is_variadic_slot Options m_field -> hasVarArgs Options = true.
Proof.
  intros (l1 & l2 & -> & _).
  destruct (hasVarArgs _) eqn:H; [reflexivity|].
  exfalso. rewrite hasVarArgs_false in H. apply (H m_field).
  apply in_or_app. right. now left.
Qed.

Lemma is_variadic_slot_exists Options :
  hasVarArgs Options = true -> exists m_field, is_variadic_slot Options m_field.
Proof.
  induction Options as [|d rest IH]; [discriminate|]. intros Hd.
  destruct (hasVarArgs rest) eqn:Hrest.
  - destruct (IH eq_refl) as (f & l1 & l2 & -> & Hl2).
    exists f, (d :: l1), l2. auto.
  - rewrite hasVarArgs_false in Hrest.
    destruct d as [n a T f|n T f|f];
      try (unfold hasVarArgs in Hd; cbn in Hd;
           fold (hasVarArgs rest) in Hd;
           apply hasVarArgs_false in Hrest; congruence).
    exists f, [], rest. split; [reflexivity|].
    intros [| |g] Hin; try reflexivity. exfalso. eapply Hrest; eauto.
Qed.

(** [setVarArgs] assigns the field of the variadic slot and nothing else;
    without a variadic slot it does nothing. *)
Lemma setVarArgs_slot Options m_argv startIndex m_options m_field :
  is_variadic_slot Options m_field ->
  setVarArgs Options m_argv startIndex m_options
  = <[m_field := FArgSpan (mkArgSpan startIndex
                             (Z.to_nat (argc_of m_argv - startIndex)))]>
      m_options.
Proof.
  intros Hslot. unfold setVarArgs. rewrite (hasVarArgs_slot _ _ Hslot).
  destruct Hslot as (l1 & l2 & -> & Hl2).
  unfold varArgsIndex. rewrite varArgsIndex_from_last by exact Hl2.
  rewrite nth_error_app2 by (simpl; lia).
  replace (0 + length l1 - length l1)%nat with O by lia. reflexivity.
Qed.

Lemma setVarArgs_none Options m_argv startIndex m_options :
  (forall f, ~ In (VarArgs f) Options) ->
  setVarArgs Options m_argv startIndex m_options = m_options.
Proof.
  intros H. apply hasVarArgs_false in H. unfold setVarArgs. now rewrite H.
Qed.

(** The span from [startIndex] to the end of [argv] holds the tokens from
    that index on, in order. *)
Lemma ArgSpan_tokens_suffix (m_argv : list string) startIndex :
  0 <= startIndex ->
  ArgSpan_tokens m_argv
    (mkArgSpan startIndex (Z.to_nat (argc_of m_argv - startIndex)))
  = drop (Z.to_nat startIndex) m_argv.
Proof.
  intros H. unfold ArgSpan_tokens, argc_of. cbn.
  apply take_ge. rewrite length_drop. lia.
Qed.

Lemma drop_argv_at (m_argv : list string) i :
  0 <= i < argc_of m_argv ->
  drop (Z.to_nat i) m_argv = argv_at m_argv i :: drop (Z.to_nat (i + 1)) m_argv.
Proof.
  unfold argc_of, argv_at. intros H.
  replace (Z.to_nat (i + 1)) with (S (Z.to_nat i)) by lia.
  assert (Hn : (Z.to_nat i < length m_argv)%nat) by lia.
  clear H. revert Hn. generalize (Z.to_nat i) as n. clear i.
  induction m_argv as [|a l IH]; intros n Hn; cbn in *; [lia|].
  destruct n; [reflexivity|]. cbn. apply IH; lia.
Qed.

(** ** Value coercion *)

Lemma scan_digits_whole body :
  all_digits body = true ->
  scan_digits body O 0 = (String.length body, decimal_value body)
  /\ String.length body <> O.
Proof.
  intros H. split; [|destruct body; [discriminate|cbn; lia]].
  rewrite scan_digits_all by (rewrite H; apply orb_true_r).
  f_equal.
Qed.

Lemma scan_digits_short body :
  all_digits body = false ->
  fst (scan_digits body O 0) = O
  \/ (fst (scan_digits body O 0) < String.length body)%nat.
Proof.
  intros H. destruct body as [|c body]; [now left|]. right.
  apply (scan_digits_partial (String c body) O 0). now rewrite H.
Qed.

Lemma dash_is_no_digit s :
  sv.starts_with "-"%char s = true -> scan_digits s O 0 = (O, 0).
Proof.
  destruct s as [|c s]; [discriminate|]. cbn [sv.starts_with].
  intros H. apply Ascii.eqb_eq in H. subst c. reflexivity.
Qed.

Lemma starts_with_length c s :
  sv.starts_with c s = true ->
  String.length s = S (String.length (sv.substr_from 1 s)).
Proof. destruct s; [discriminate|reflexivity]. Qed.

(** Integer coercion is the integer grammar on the whole token followed by
    the range check of the target type. *)
Lemma ValueParser_int sgn bits input :
  ValueParser_parse (TInt sgn bits) input
  = match int_literal sgn input with
    | Some z => if int_in_range sgn bits z then Some (VInt z) else None
    | None => None
    end.
Proof.
  unfold ValueParser_parse, from_chars_int, int_literal.
  destruct (sv.starts_with "-"%char input) eqn:Hdash.
  - destruct sgn; cbn [andb].
    + pose proof (starts_with_length _ _ Hdash) as Hlen.
      set (body := sv.substr_from 1 input) in *.
      destruct (all_digits body) eqn:Hall.
      * destruct (scan_digits_whole _ Hall) as [-> Hne].
        destruct (String.length body) as [|n] eqn:Hb; [congruence|].
        destruct (int_in_range true bits (- decimal_value body));
          cbn [ec ptr]; [|reflexivity].
        rewrite Hlen, Nat.eqb_refl. reflexivity.
      * pose proof (scan_digits_short _ Hall) as Hshort.
        destruct (scan_digits body O 0) as [n m]. cbn [fst] in Hshort.
        destruct n as [|n]; [reflexivity|].
        destruct (int_in_range true bits (- m)); cbn [ec ptr];
          [|reflexivity].
        destruct (Nat.eqb_spec (1 + S n) (String.length input));
          [lia|reflexivity].
    + rewrite (dash_is_no_digit _ Hdash). reflexivity.
  - rewrite andb_false_r.
    destruct (all_digits input) eqn:Hall.
    + destruct (scan_digits_whole _ Hall) as [-> Hne].
      destruct (String.length input) as [|n] eqn:Hb; [congruence|].
      destruct (int_in_range sgn bits (decimal_value input));
        cbn [ec ptr]; [|reflexivity].
      rewrite Nat.eqb_refl. reflexivity.
    + pose proof (scan_digits_short _ Hall) as Hshort.
      destruct (scan_digits input O 0) as [n m]. cbn [fst] in Hshort.
      destruct n as [|n]; [reflexivity|].
      destruct (int_in_range sgn bits m); cbn [ec ptr]; [|reflexivity].
      destruct (Nat.eqb_spec (0 + S n) (String.length input));
        [lia|reflexivity].
Qed.

(** C7. Boolean coercion yields [true] exactly on the tokens "true", "1",
    "yes", "on" and "y", yields [false] exactly on "false", "0", "no",
    "off" and "n", compared case-sensitively, and fails on every other
    token. *)
Theorem bool_coercion input :
  (ValueParser_parse TBool input = Some (VBool true)
   <-> In input true_spellings)
  /\ (ValueParser_parse TBool input = Some (VBool false)
      <-> In input false_spellings)
  /\ (ValueParser_parse TBool input = None
      <-> ~ In input (true_spellings ++ false_spellings)).
Proof.
  unfold ValueParser_parse, true_spellings, false_spellings.
  destruct (String.eqb_spec input "true") as [->|?];
    [cbn; intuition congruence|].
  destruct (String.eqb_spec input "1") as [->|?];
    [cbn; intuition congruence|].
  destruct (String.eqb_spec input "yes") as [->|?];
    [cbn; intuition congruence|].
  destruct (String.eqb_spec input "on") as [->|?];
    [cbn; intuition congruence|].
  destruct (String.eqb_spec input "y") as [->|?];
    [cbn; intuition congruence|].
  destruct (String.eqb_spec input "false") as [->|?];
    [cbn; intuition congruence|].
  destruct (String.eqb_spec input "0") as [->|?];
    [cbn; intuition congruence|].
  destruct (String.eqb_spec input "no") as [->|?];
    [cbn; intuition congruence|].
  destruct (String.eqb_spec input "off") as [->|?];
    [cbn; intuition congruence|].
  destruct (String.eqb_spec input "n") as [->|?];
    [cbn; intuition congruence|].
  cbn. intuition congruence.
Qed.

(** ** Options *)

Lemma parse_at Options m_argv m0 s :
  scan Options m_argv (initial m0) s ->
  st_i s < argc_of m_argv ->
  parse Options m_argv m0
  = match parse_body Options m_argv (st_i s) (st_positionalIndex s) (-1)
            (st_options s) with
    | BodyEnd i' positionalIndex' m_options' =>
        parse_from Options m_argv
          (mkScanState (i' + 1) positionalIndex' m_options')
    | BodyBreak varArgsStart' positionalIndex' m_options' =>
        Some (parse_tail Options m_argv varArgsStart' positionalIndex'
                m_options')
    | BodyReturn result m_options' => Some (result, m_options')
    end.
Proof.
  intros Hs Hlt. destruct (parse_scan _ _ _ _ Hs) as [-> Hi].
  rewrite parse_from_unfold by lia.
  destruct (Z.leb_spec (argc_of m_argv) (st_i s)); [lia|reflexivity].
Qed.

Lemma scan_extend Options m_argv s0 s i' positionalIndex' m_options' :
  scan Options m_argv s0 s ->
  st_i s < argc_of m_argv ->
  parse_body Options m_argv (st_i s) (st_positionalIndex s) (-1)
    (st_options s) = BodyEnd i' positionalIndex' m_options' ->
  scan Options m_argv s0 (mkScanState (i' + 1) positionalIndex' m_options').
Proof.
  induction 1 as [s|s0 i1 pos1 m1 s Hlt Hb Hs IH]; intros Hlt' Hb'.
  - eapply scan_pass; eauto. constructor.
  - eapply scan_pass; eauto.
Qed.

Lemma parse_body_option Options m_argv i positionalIndex varArgsStart m_options :
  argv_at m_argv i <> "--" ->
  sv.starts_with "-"%char (argv_at m_argv i) = true ->
  parse_body Options m_argv i positionalIndex varArgsStart m_options
  = let c := tryParseOption Options m_argv (argv_at m_argv i) i m_options in
    if negb (isOk (oc_result c))
    then BodyReturn (oc_result c) (oc_options c)
    else BodyEnd (oc_index c) positionalIndex (oc_options c).
Proof.
  intros Hsep Hdash. unfold parse_body.
  apply String.eqb_neq in Hsep. now rewrite Hsep, Hdash.
Qed.

Lemma parse_body_positional Options m_argv i positionalIndex varArgsStart
    m_options :
  sv.starts_with "-"%char (argv_at m_argv i) = false ->
  parse_body Options m_argv i positionalIndex varArgsStart m_options
  = let c := tryParsePositional Options (argv_at m_argv i) positionalIndex
               m_options in
    if isOk (ac_result c)
    then BodyEnd i (S positionalIndex) (ac_options c)
    else
      match error (ac_result c) with
      | TooManyArgs =>
          if hasVarArgs Options
          then BodyBreak i positionalIndex (ac_options c)
          else BodyReturn (ac_result c) (ac_options c)
      | _ => BodyReturn (ac_result c) (ac_options c)
      end.
Proof.
  intros Hdash. unfold parse_body.
  destruct (String.eqb_spec (argv_at m_argv i) "--") as [Heq|_];
    [|now rewrite Hdash].
  rewrite Heq in Hdash. discriminate.
Qed.

(** C4. Option handling splits the token at its first [=] into the option
    name and an inline value (none when the token has no [=]); the declared
    options are searched in declaration order and the first one whose
    primary or alternate name equals the option name decides, whatever
    follows it; when no declared option has that name the result is
    UnknownOption with the option name as context, and [parse] returns
    it. *)
Theorem option_lookup Options m_argv arg index m_options :
  match inlineValue_of arg with
  | Some v =>
      arg = optName_of arg +:+ String "="%char v
      /\ ~ contains "="%char (optName_of arg)
  | None => optName_of arg = arg /\ ~ contains "="%char arg
  end
  /\ (forall l1 m_name m_altName T m_field l2,
         Options = l1 ++ Option_ m_name m_altName T m_field :: l2 ->
         (forall n a T' f,
             In (Option_ n a T' f) l1 ->
             optName_of arg <> n /\ optName_of arg <> a) ->
         optName_of arg = m_name \/ optName_of arg = m_altName ->
         tryParseOption Options m_argv arg index m_options
         = snd (tryParseOption_func m_argv arg (optName_of arg)
                  (inlineValue_of arg)
                  (Option_ m_name m_altName T m_field)
                  (mkOptionCapture (failure UnknownOption (optName_of arg))
                     index m_options)))
  /\ ((forall n a T f,
          In (Option_ n a T f) Options ->
          optName_of arg <> n /\ optName_of arg <> a) ->
      tryParseOption Options m_argv arg index m_options
      = mkOptionCapture (failure UnknownOption (optName_of arg))
          index m_options
      /\ forall m0 s,
           scan Options m_argv (initial m0) s ->
           st_i s < argc_of m_argv ->
           argv_at m_argv (st_i s) = arg ->
           arg <> "--" ->
           sv.starts_with "-"%char arg = true ->
           parse Options m_argv m0
           = Some (failure UnknownOption (optName_of arg), st_options s)).
Proof.
  split; [|split].
  - unfold inlineValue_of, optName_of.
    destruct (sv.find "="%char arg) as [eqPos|] eqn:Hf.
    + apply find_Some_split in Hf as [Hs Hn]. split; [exact Hs|].
      now apply find_None_iff.
    + split; [reflexivity|]. now apply find_None_iff.
  - intros l1 n a T f l2 HO Hl1 Hm.
    rewrite tryParseOption_first_match. cbv zeta.
    now rewrite (first_match_split _ _ _ _ _ _ _ _ HO Hl1 Hm).
  - intros Hnone.
    assert (Htry : forall i m,
               tryParseOption Options m_argv arg i m
               = mkOptionCapture (failure UnknownOption (optName_of arg)) i m).
    { intros i m. rewrite tryParseOption_first_match. cbv zeta.
      now rewrite (first_match_None _ _ Hnone). }
    split; [apply Htry|].
    intros m0 s Hs Hlt Harg Hsep Hdash. subst arg.
    rewrite (parse_at _ _ _ _ Hs Hlt).
    rewrite parse_body_option by assumption. cbv zeta.
    rewrite Htry. reflexivity.
Qed.

Lemma first_match_matches Options optName m_name m_altName T m_field :
  first_match Options optName = Some (Option_ m_name m_altName T m_field) ->
  matches m_name m_altName optName = true.
Proof.
  intros H. destruct (first_match_Some _ _ _ H) as (n & a & T' & f & Heq & Hm).
  now injection Heq as -> -> -> ->.
Qed.

(** C5. When the first matching option is bound to a non-boolean field, its
    value is the inline value if the token has one, otherwise the next
    token, which is consumed: the scan resumes behind it.  With neither,
    [parse] returns MissingValue with the option name as context; when the
    value does not coerce, [parse] returns InvalidValue with the whole
    option token as context; otherwise the coerced value is assigned to
    the bound field. *)
Theorem option_with_value Options m_argv m0 s m_name m_altName T m_field :
  scan Options m_argv (initial m0) s ->
  st_i s < argc_of m_argv ->
  argv_at m_argv (st_i s) <> "--" ->
  sv.starts_with "-"%char (argv_at m_argv (st_i s)) = true ->
  first_match Options (optName_of (argv_at m_argv (st_i s)))
  = Some (Option_ m_name m_altName T m_field) ->
  is_bool (unwrap_optional_t T) = false ->
  let arg := argv_at m_argv (st_i s) in
  let source :=
    match inlineValue_of arg with
    | Some v => Some (v, st_i s)
    | None =>
        if st_i s + 1 <? argc_of m_argv
        then Some (argv_at m_argv (st_i s + 1), st_i s + 1)
        else None
    end in
  match source with
  | None =>
      parse Options m_argv m0
      = Some (failure MissingValue (optName_of arg), st_options s)
  | Some (value, index) =>
      match ValueParser_parse (unwrap_optional_t T) value with
      | None =>
          parse Options m_argv m0
          = Some (failure InvalidValue arg, st_options s)
      | Some parsed =>
          scan Options m_argv (initial m0)
            (mkScanState (index + 1) (st_positionalIndex s)
               (<[m_field := store T parsed]> (st_options s)))
      end
  end.
Proof.
  intros Hs Hlt Hsep Hdash Hfm Hbool. cbv zeta.
  pose proof (parse_at _ _ _ _ Hs Hlt) as Hparse.
  rewrite parse_body_option in Hparse by assumption. cbv zeta in Hparse.
  assert (Hbody := parse_body_option Options m_argv (st_i s)
                     (st_positionalIndex s) (-1) (st_options s) Hsep Hdash).
  cbv zeta in Hbody.
  rewrite tryParseOption_first_match in Hparse, Hbody.
  cbv zeta in Hparse, Hbody. rewrite Hfm in Hparse, Hbody.
  unfold tryParseOption_func in Hparse, Hbody.
  rewrite (first_match_matches _ _ _ _ _ _ Hfm), Hbool in Hparse, Hbody.
  cbn [negb oc_index oc_options] in Hparse, Hbody.
  destruct (inlineValue_of (argv_at m_argv (st_i s))) as [v|].
  - destruct (ValueParser_parse (unwrap_optional_t T) v) as [parsed|].
    + apply (scan_extend _ _ _ _ _ _ _ Hs Hlt Hbody).
    + exact Hparse.
  - destruct (st_i s + 1 <? argc_of m_argv).
    + destruct (ValueParser_parse (unwrap_optional_t T) _) as [parsed|].
      * apply (scan_extend _ _ _ _ _ _ _ Hs Hlt Hbody).
      * exact Hparse.
    + exact Hparse.
Qed.

(** C6. When the first matching option is bound to a boolean field: an
    inline value is coerced as a boolean, a failure making [parse] return
    InvalidValue with the whole option token as context and a success
    assigning the coerced value; without an inline value the field is
    assigned [true], whatever it held before. *)
Theorem boolean_option Options m_argv m0 s m_name m_altName T m_field :
  scan Options m_argv (initial m0) s ->
  st_i s < argc_of m_argv ->
  argv_at m_argv (st_i s) <> "--" ->
  sv.starts_with "-"%char (argv_at m_argv (st_i s)) = true ->
  first_match Options (optName_of (argv_at m_argv (st_i s)))
  = Some (Option_ m_name m_altName T m_field) ->
  is_bool (unwrap_optional_t T) = true ->
  let arg := argv_at m_argv (st_i s) in
  match inlineValue_of arg with
  | Some v =>
      match ValueParser_parse TBool v with
      | None =>
          parse Options m_argv m0
          = Some (failure InvalidValue arg, st_options s)
      | Some parsed =>
          scan Options m_argv (initial m0)
            (mkScanState (st_i s + 1) (st_positionalIndex s)
               (<[m_field := store T parsed]> (st_options s)))
      end
  | None =>
      scan Options m_argv (initial m0)
        (mkScanState (st_i s + 1) (st_positionalIndex s)
           (<[m_field := store T (VBool true)]> (st_options s)))
      /\ <[m_field := store T (VBool true)]> (st_options s) !! m_field
         = Some (store T (VBool true))
  end.
Proof.
  intros Hs Hlt Hsep Hdash Hfm Hbool. cbv zeta.
  pose proof (parse_at _ _ _ _ Hs Hlt) as Hparse.
  rewrite parse_body_option in Hparse by assumption. cbv zeta in Hparse.
  assert (Hbody := parse_body_option Options m_argv (st_i s)
                     (st_positionalIndex s) (-1) (st_options s) Hsep Hdash).
  cbv zeta in Hbody.
  rewrite tryParseOption_first_match in Hparse, Hbody.
  cbv zeta in Hparse, Hbody. rewrite Hfm in Hparse, Hbody.
  unfold tryParseOption_func in Hparse, Hbody.
  rewrite (first_match_matches _ _ _ _ _ _ Hfm), Hbool in Hparse, Hbody.
  cbn [negb oc_index oc_options] in Hparse, Hbody.
  destruct (inlineValue_of (argv_at m_argv (st_i s))) as [v|].
  - destruct (ValueParser_parse TBool v) as [parsed|].
    + apply (scan_extend _ _ _ _ _ _ _ Hs Hlt Hbody).
    + exact Hparse.
  - split; [|apply lookup_insert_eq].
    apply (scan_extend _ _ _ _ _ _ _ Hs Hlt Hbody).
Qed.

(** ** Separator and overflow *)

Lemma parse_body_separator Options m_argv i positionalIndex varArgsStart
    m_options :
  argv_at m_argv i = "--" ->
  parse_body Options m_argv i positionalIndex varArgsStart m_options
  = BodyBreak (if i + 1 <? argc_of m_argv then i + 1 else varArgsStart)
      positionalIndex m_options.
Proof. intros H. unfold parse_body. now rewrite H. Qed.

(** What [setVarArgs] leaves in the variadic slot: a span over all tokens
    from [startIndex] on. *)
Lemma setVarArgs_tokens Options m_argv startIndex m_options m_field :
  0 <= startIndex ->
  is_variadic_slot Options m_field ->
  exists sp,
    setVarArgs Options m_argv startIndex m_options
    = <[m_field := FArgSpan sp]> m_options
    /\ ArgSpan_tokens m_argv sp = drop (Z.to_nat startIndex) m_argv.
Proof.
  intros H0 Hslot. eexists. split; [apply setVarArgs_slot, Hslot|].
  apply ArgSpan_tokens_suffix, H0.
Qed.

Lemma parse_separator Options m_argv m0 s :
  scan Options m_argv (initial m0) s ->
  st_i s < argc_of m_argv ->
  argv_at m_argv (st_i s) = "--" ->
  parse Options m_argv m0
  = Some (checkRequired Options (st_positionalIndex s),
          if st_i s + 1 <? argc_of m_argv
          then setVarArgs Options m_argv (st_i s + 1) (st_options s)
          else st_options s).
Proof.
  intros Hs Hlt Hsep.
  rewrite (parse_at _ _ _ _ Hs Hlt).
  rewrite parse_body_separator by exact Hsep.
  destruct (parse_scan _ _ _ _ Hs) as [_ Hi].
  unfold parse_tail.
  destruct (Z.ltb_spec (st_i s + 1) (argc_of m_argv)); [|reflexivity].
  destruct (Z.leb_spec 0 (st_i s + 1)); [reflexivity|lia].
Qed.

(** C2. When the scan reaches a token equal to "--" and a further token
    exists, scanning stops there and the variadic slot receives the span
    of all tokens behind the separator, in their order and as they are;
    when no further token exists, scanning stops and nothing is
    assigned.  The outcome is that of the required-slot check. *)
Theorem separator_starts_variadic_slice Options m_argv m0 s :
  scan Options m_argv (initial m0) s ->
  st_i s < argc_of m_argv ->
  argv_at m_argv (st_i s) = "--" ->
  (st_i s + 1 < argc_of m_argv ->
   parse Options m_argv m0
   = Some (checkRequired Options (st_positionalIndex s),
           setVarArgs Options m_argv (st_i s + 1) (st_options s))
   /\ forall m_field,
        is_variadic_slot Options m_field ->
        exists sp,
          setVarArgs Options m_argv (st_i s + 1) (st_options s)
          = <[m_field := FArgSpan sp]> (st_options s)
          /\ ArgSpan_tokens m_argv sp = drop (Z.to_nat (st_i s + 1)) m_argv)
  /\ (argc_of m_argv <= st_i s + 1 ->
      parse Options m_argv m0
      = Some (checkRequired Options (st_positionalIndex s), st_options s)).
Proof.
  intros Hs Hlt Hsep.
  pose proof (parse_separator _ _ _ _ Hs Hlt Hsep) as Hparse.
  destruct (parse_scan _ _ _ _ Hs) as [_ Hi].
  split.
  - intros Hmore. destruct (Z.ltb_spec (st_i s + 1) (argc_of m_argv)); [|lia].
    split; [exact Hparse|].
    intros f Hf. apply setVarArgs_tokens; [lia|exact Hf].
  - intros Hlast. destruct (Z.ltb_spec (st_i s + 1) (argc_of m_argv)); [lia|].
    exact Hparse.
Qed.

(** *** The scan reads the tokens from left to right *)

Lemma argv_at_app (common rest : list string) j :
  0 <= j < Z.of_nat (length common) ->
  argv_at (common ++ rest) j = argv_at common j.
Proof. intros H. unfold argv_at. apply app_nth1. lia. Qed.

Lemma argc_of_app (common rest : list string) :
  argc_of (common ++ rest) = argc_of common + argc_of rest.
Proof. unfold argc_of. rewrite length_app. lia. Qed.

Lemma argc_of_nonneg (m_argv : list string) : 0 <= argc_of m_argv.
Proof. unfold argc_of. lia. Qed.

(** A pass at index [j] looks at the tokens [j] and [j + 1] only: two token
    sequences that agree beyond [j + 1] make it end the same way. *)
Lemma tryParseOption_prefix Options common rest rest' arg j m_options :
  0 <= j -> j + 1 < argc_of common ->
  tryParseOption Options (common ++ rest) arg j m_options
  = tryParseOption Options (common ++ rest') arg j m_options.
Proof.
  intros H0 Hj. rewrite !tryParseOption_first_match. cbv zeta.
  destruct (first_match Options (optName_of arg)) as [d|]; [|reflexivity].
  unfold tryParseOption_func. cbn [oc_index oc_options].
  rewrite !argv_at_app by (unfold argc_of in Hj; lia).
  rewrite !argc_of_app.
  pose proof (argc_of_nonneg rest). pose proof (argc_of_nonneg rest').
  destruct (Z.ltb_spec (j + 1) (argc_of common + argc_of rest)); [|lia].
  destruct (Z.ltb_spec (j + 1) (argc_of common + argc_of rest')); [|lia].
  reflexivity.
Qed.

Lemma parse_body_prefix Options common rest rest' j positionalIndex
    varArgsStart m_options :
  0 <= j -> j + 1 < argc_of common ->
  parse_body Options (common ++ rest) j positionalIndex varArgsStart m_options
  = parse_body Options (common ++ rest') j positionalIndex varArgsStart
      m_options.
Proof.
  intros H0 Hj. unfold parse_body.
  rewrite !argv_at_app by (unfold argc_of in Hj; lia).
  rewrite (tryParseOption_prefix Options common rest rest') by assumption.
  rewrite !argc_of_app.
  pose proof (argc_of_nonneg rest). pose proof (argc_of_nonneg rest').
  destruct (Z.ltb_spec (j + 1) (argc_of common + argc_of rest)); [|lia].
  destruct (Z.ltb_spec (j + 1) (argc_of common + argc_of rest')); [|lia].
  reflexivity.
Qed.

Lemma scan_prefix Options common rest rest' s0 s :
  scan Options (common ++ rest) s0 s ->
  0 <= st_i s0 -> st_i s < argc_of common ->
  scan Options (common ++ rest') s0 s.
Proof.
  induction 1 as [s|s0 i' pos' m' s Hlt Hb Hs IH]; intros H0 Hin;
    [constructor|].
  pose proof (scan_index _ _ _ _ Hs) as Hmono. cbn in Hmono.
  pose proof (parse_body_BodyEnd _ _ _ _ _ _ _ _ _ Hb) as [Hi' _].
  eapply scan_pass.
  - rewrite argc_of_app. pose proof (argc_of_nonneg rest'). lia.
  - rewrite <- Hb. apply parse_body_prefix; lia.
  - apply IH; cbn; lia.
Qed.

(** C10. When no variadic slot is declared and the scan reaches the
    separator "--" with tokens behind it, scanning stops there: the outcome
    is the required-slot check at the fill count reached before the
    separator and the options struct is as it was on arrival.  The tokens
    behind the separator are discarded: they raise no error, are assigned
    nowhere, and any other tokens in their place, or none, give the same
    outcome and the same options struct. *)
Theorem separator_without_variadic_slot Options pre rest m0 s :
  (forall m_field, ~ In (VarArgs m_field) Options) ->
  rest <> [] ->
  scan Options (pre ++ "--" :: rest) (initial m0) s ->
  st_i s = Z.of_nat (length pre) ->
  parse Options (pre ++ "--" :: rest) m0
  = Some (checkRequired Options (st_positionalIndex s), st_options s)
  /\ forall rest',
       parse Options (pre ++ "--" :: rest') m0
       = parse Options (pre ++ "--" :: rest) m0.
Proof.
  intros Hnone Hrest Hs Hi.
  assert (Hgen : forall tail,
             scan Options (pre ++ "--" :: tail) (initial m0) s ->
             parse Options (pre ++ "--" :: tail) m0
             = Some (checkRequired Options (st_positionalIndex s),
                     st_options s)).
  { intros tail Hs'.
    rewrite (parse_separator _ _ _ _ Hs').
    - rewrite setVarArgs_none by exact Hnone. now destruct (_ <? _).
    - unfold argc_of. rewrite length_app. cbn [length]. lia.
    - unfold argv_at. rewrite Hi, Nat2Z.id.
      now rewrite nth_middle. }
  split; [apply Hgen, Hs|].
  intros rest'. rewrite (Hgen rest Hs). apply Hgen.
  change (pre ++ "--" :: rest') with (pre ++ ["--"] ++ rest').
  change (pre ++ "--" :: rest) with (pre ++ ["--"] ++ rest) in Hs.
  rewrite app_assoc in Hs |- *.
  apply (scan_prefix _ _ _ _ _ _ Hs); [cbn; lia|].
  unfold argc_of. rewrite length_app. cbn [length]. lia.
Qed.

Lemma parse_overflow Options m_argv m0 s :
  scan Options m_argv (initial m0) s ->
  st_i s < argc_of m_argv ->
  sv.starts_with "-"%char (argv_at m_argv (st_i s)) = false ->
  (argumentCount Options <= st_positionalIndex s)%nat ->
  parse Options m_argv m0
  = if hasVarArgs Options
    then Some (checkRequired Options (st_positionalIndex s),
               setVarArgs Options m_argv (st_i s) (st_options s))
    else Some (failure TooManyArgs (argv_at m_argv (st_i s)), st_options s).
Proof.
  intros Hs Hlt Hdash Hfull.
  rewrite (parse_at _ _ _ _ Hs Hlt).
  rewrite parse_body_positional by exact Hdash. cbv zeta.
  destruct (parse_scan _ _ _ _ Hs) as [_ Hi].
  pose proof (tryParsePositional_effect Options (argv_at m_argv (st_i s))
                (st_positionalIndex s) (st_options s))
    as (Hfail & _ & Hnone & _).
  cbv zeta in Hfail, Hnone.
  assert (Hn : nth_error (slots Options) (st_positionalIndex s) = None).
  { apply nth_error_None. rewrite <- argumentCount_slots. exact Hfull. }
  specialize (Hnone Hn). rewrite Hnone in Hfail |- *.
  rewrite (Hfail eq_refl). cbn [isOk error failure].
  destruct (hasVarArgs Options); [|reflexivity].
  unfold parse_tail. destruct (Z.leb_spec 0 (st_i s)); [reflexivity|lia].
Qed.

(** C8. When the scan reaches a token that does not start with a dash while
    every declared positional slot is filled: with a variadic slot
    declared, scanning stops there and the slot receives the span of that
    token and all tokens behind it, in their order; without one, [parse]
    returns TooManyArgs with that token as context. *)
Theorem positional_overflow Options m_argv m0 s :
  scan Options m_argv (initial m0) s ->
  st_i s < argc_of m_argv ->
  sv.starts_with "-"%char (argv_at m_argv (st_i s)) = false ->
  (argumentCount Options <= st_positionalIndex s)%nat ->
  (forall m_field,
      is_variadic_slot Options m_field ->
      exists sp,
        parse Options m_argv m0
        = Some (checkRequired Options (st_positionalIndex s),
                <[m_field := FArgSpan sp]> (st_options s))
        /\ ArgSpan_tokens m_argv sp
           = argv_at m_argv (st_i s) :: drop (Z.to_nat (st_i s + 1)) m_argv)
  /\ ((forall m_field, ~ In (VarArgs m_field) Options) ->
      parse Options m_argv m0
      = Some (failure TooManyArgs (argv_at m_argv (st_i s)), st_options s)).
Proof.
  intros Hs Hlt Hdash Hfull.
  pose proof (parse_overflow _ _ _ _ Hs Hlt Hdash Hfull) as Hparse.
  destruct (parse_scan _ _ _ _ Hs) as [_ Hi].
  split.
  - intros f Hf. rewrite (hasVarArgs_slot _ _ Hf) in Hparse.
    destruct (setVarArgs_tokens Options m_argv (st_i s) (st_options s) f)
      as (sp & Hset & Htok); [lia|exact Hf|].
    exists sp. split; [now rewrite <- Hset|].
    rewrite Htok. apply drop_argv_at. lia.
  - intros Hnone. apply hasVarArgs_false in Hnone.
    now rewrite Hnone in Hparse.
Qed.

(** ** The required-slot check *)

(** When the tokens are exhausted the outcome is the required-slot
    check. *)
Lemma parse_exhausted Options m_argv m0 s :
  scan Options m_argv (initial m0) s ->
  argc_of m_argv <= st_i s ->
  parse Options m_argv m0
  = Some (checkRequired Options (st_positionalIndex s), st_options s).
Proof.
  intros Hs Hle. destruct (parse_scan _ _ _ _ Hs) as [-> Hi].
  rewrite parse_from_unfold by lia.
  destruct (Z.leb_spec (argc_of m_argv) (st_i s)); [reflexivity|lia].
Qed.

(** With slot names that are not empty, the check reports the first unmet
    required slot by its name and succeeds when there is none. *)
Lemma checkRequired_named Options count :
  (forall m_name T m_field,
      In (Arg m_name T m_field) Options -> m_name <> EmptyString) ->
  checkRequired Options count
  = match first_unmet Options O count with
    | Some m_name => failure MissingRequiredArg m_name
    | None => success
    end.
Proof.
  intros Hnamed. rewrite checkRequired_first_unmet.
  destruct (first_unmet Options O count) as [n|] eqn:Hu; [|reflexivity].
  assert (Hin : exists T f, In (Arg n T f) Options).
  { clear Hnamed. revert Hu. generalize O.
    induction Options as [|d rest IH]; intros idx; [discriminate|].
    cbn [first_unmet]. destruct d as [n' a T f|n' T f|f].
    - intros H. destruct (IH _ H) as (T' & f' & Hin). exists T', f'. now right.
    - destruct (negb (is_optional_v T) && (count <=? idx)%nat).
      + intros [= ->]. exists T, f. now left.
      + intros H. destruct (IH _ H) as (T' & f' & Hin).
        exists T', f'. now right.
    - intros H. destruct (IH _ H) as (T' & f' & Hin). exists T', f'. now right. }
  destruct Hin as (T & f & Hin). specialize (Hnamed _ _ _ Hin).
  destruct n; [contradiction|reflexivity].
Qed.

(** C1. A declaration list whose only positional slot is required and has
    the empty name, scanned without any token for it: the slot is unmet,
    yet the check returns success, because [checkRequired] takes an empty
    [missingArg] for the absence of a missing slot. *)
Theorem required_slot_with_empty_name :
  first_unmet [Arg EmptyString (plain TStringView) O] O O = Some EmptyString
  /\ checkRequired [Arg EmptyString (plain TStringView) O] O = success
  /\ parse [Arg EmptyString (plain TStringView) O] ["prog"] ∅
     = Some (success, ∅).
Proof. repeat split. Qed.

(** ** Failure *)

(** C9. When [parse] fails, the tokens before the point of failure were
    all processed without error, and one of three things happened.  Some
    scanned token failed: [parse] returns that token's error at once, with
    the options struct exactly as the earlier tokens left it.  Or the
    tokens were exhausted and the required-slot check failed: the options
    struct is exactly as the scanned tokens left it.  Or the scan stopped
    at a token (the separator, or a token beyond the last positional
    slot) and the required-slot check failed: the options struct is as
    the tokens before left it, with the variadic slot assigned when the
    stop determined a start for it, and every other field untouched.  In
    all cases a field that none of the tokens processed before addressed
    holds its initial value in the struct those tokens left. *)
Theorem fail_fast_no_rollback Options m_argv m0 result m_final :
  parse Options m_argv m0 = Some (result, m_final) ->
  isOk result = false ->
  exists s,
    scan Options m_argv (initial m0) s
    /\ ((st_i s < argc_of m_argv
         /\ parse_body Options m_argv (st_i s) (st_positionalIndex s) (-1)
              (st_options s) = BodyReturn result (st_options s)
         /\ m_final = st_options s)
        \/ (argc_of m_argv <= st_i s
            /\ result = checkRequired Options (st_positionalIndex s)
            /\ m_final = st_options s)
        \/ (st_i s < argc_of m_argv
            /\ exists varArgsStart,
                 parse_body Options m_argv (st_i s) (st_positionalIndex s)
                   (-1) (st_options s)
                 = BodyBreak varArgsStart (st_positionalIndex s)
                     (st_options s)
                 /\ result = checkRequired Options (st_positionalIndex s)
                 /\ m_final
                    = if 0 <=? varArgsStart
                      then setVarArgs Options m_argv varArgsStart
                             (st_options s)
                      else st_options s))
    /\ (forall m_field,
           ~ is_variadic_slot Options m_field ->
           m_final !! m_field = st_options s !! m_field)
    /\ forall m_field,
         (forall s',
             scan Options m_argv (initial m0) s' -> st_i s' < st_i s ->
             addressed_field Options (argv_at m_argv (st_i s'))
               (st_positionalIndex s') <> Some m_field) ->
         st_options s !! m_field = m0 !! m_field.
Proof.
  intros Hparse Hfail.
  destruct (parse_from_outcome Options m_argv (length m_argv) (initial m0)
              (result, m_final)) as (s & Hs & Hcase);
    [unfold argc_of; cbn; lia|cbn; lia|exact Hparse|].
  exists s. split; [exact Hs|].
  assert (Hvar : forall v f,
             ~ is_variadic_slot Options f ->
             setVarArgs Options m_argv v (st_options s) !! f
             = st_options s !! f).
  { intros v f Hf. destruct (hasVarArgs Options) eqn:Hva.
    - destruct (is_variadic_slot_exists _ Hva) as [g Hg].
      rewrite (setVarArgs_slot _ _ _ _ _ Hg).
      apply lookup_insert_ne. intros ->. exact (Hf Hg).
    - unfold setVarArgs. now rewrite Hva. }
  split; [|split].
  - destruct Hcase as [[Hle Hr]|[[Hlt (v & Hb & Hr)]|[Hlt (res & Hb & Hr)]]].
    + right. left. unfold parse_tail in Hr. cbn in Hr.
      injection Hr as -> ->. auto.
    + right. right. unfold parse_tail in Hr. injection Hr as -> ->.
      split; [exact Hlt|]. exists v. auto.
    + left. injection Hr as -> ->. auto.
  - intros f Hf.
    destruct Hcase as [[Hle Hr]|[[Hlt (v & Hb & Hr)]|[Hlt (res & Hb & Hr)]]].
    + unfold parse_tail in Hr. cbn in Hr. now injection Hr as _ ->.
    + unfold parse_tail in Hr. injection Hr as _ ->.
      destruct (0 <=? v); [now apply Hvar|reflexivity].
    + now injection Hr as _ ->.
  - intros f Hf. apply (scan_frame _ _ _ _ Hs f Hf).
Qed.

(** * Further properties of the code *)

(** ** More on strings *)

Lemma str_length_app s t :
  String.length (s +:+ t) = (String.length s + String.length t)%nat.
Proof.
  induction s as [|c s IH]; simpl; [reflexivity|now f_equal].
Qed.

Lemma append_inj_l s t1 t2 : s +:+ t1 = s +:+ t2 -> t1 = t2.
Proof. induction s as [|c s IH]; simpl; [auto|]. intros [= H]. auto. Qed.

Lemma append_inj_r s1 s2 t : s1 +:+ t = s2 +:+ t -> s1 = s2.
Proof.
  revert s2. induction s1 as [|c s1 IH]; intros [|c' s2]; simpl; intros H.
  - reflexivity.
  - apply (f_equal String.length) in H.
    rewrite !str_length_app in H. simpl in H. lia.
  - apply (f_equal String.length) in H.
    rewrite !str_length_app in H. simpl in H. lia.
  - injection H as -> H. f_equal. auto.
Qed.

Lemma append_cons a s t : String a s +:+ t = String a (s +:+ t).
Proof. reflexivity. Qed.

Lemma append_snoc s c t :
  (s +:+ String c EmptyString) +:+ t = s +:+ String c t.
Proof.
  induction s as [|a s IH]; [reflexivity|]. rewrite !append_cons. now f_equal.
Qed.

Lemma find_app_first c s t :
  sv.find c s = None ->
  sv.find c (s +:+ String c t) = Some (String.length s).
Proof.
  induction s as [|a s IH].
  - intros _. simpl. now rewrite Ascii.eqb_refl.
  - rewrite append_cons. simpl.
    destruct (Ascii.eqb a c); [discriminate|].
    destruct (sv.find c s); [discriminate|]. intros _. now rewrite IH.
Qed.

Lemma substr_to_app s t : sv.substr_to (String.length s) (s +:+ t) = s.
Proof.
  induction s as [|a s IH]; [now destruct t|].
  rewrite append_cons. simpl. now rewrite IH.
Qed.

Lemma substr_from_app s c t :
  sv.substr_from (S (String.length s)) (s +:+ String c t) = t.
Proof.
  induction s as [|a s IH]; [reflexivity|].
  rewrite append_cons. exact IH.
Qed.

Lemma find_last_of_None c s :
  sv.find_last_of c s = None <-> sv.find c s = None.
Proof.
  induction s as [|a s IH]; simpl; [tauto|].
  destruct (Ascii.eqb a c).
  - split; [destruct (sv.find_last_of c s)|]; discriminate.
  - destruct (sv.find_last_of c s) as [p|]; destruct (sv.find c s) as [q|];
      simpl.
    + split; discriminate.
    + destruct IH as [_ H]. discriminate (H eq_refl).
    + destruct IH as [H _]. discriminate (H eq_refl).
    + tauto.
Qed.

Lemma find_last_of_Some c s p :
  sv.find_last_of c s = Some p ->
  s = sv.substr_to p s +:+ String c (sv.substr_from (S p) s)
  /\ sv.find c (sv.substr_from (S p) s) = None.
Proof.
  revert p. induction s as [|a s IH]; intros p; cbn [sv.find_last_of];
    [discriminate|].
  destruct (sv.find_last_of c s) as [q|] eqn:Hq.
  - intros [= <-]. destruct (IH q eq_refl) as [Hs Hn].
    split; [rewrite Hs at 1; reflexivity|exact Hn].
  - destruct (Ascii.eqb_spec a c) as [->|]; [|discriminate].
    intros [= <-]. split; [reflexivity|].
    now apply find_last_of_None.
Qed.

Lemma find_last_of_app c s t :
  sv.find c t = None ->
  sv.find_last_of c (s +:+ String c t) = Some (String.length s).
Proof.
  intros Ht. induction s as [|a s IH].
  - simpl. apply find_last_of_None in Ht. now rewrite Ht, Ascii.eqb_refl.
  - rewrite append_cons. simpl. now rewrite IH.
Qed.

(** X1. The program name kept by the constructor is the part of [argv[0]]
    behind its last slash: it contains no slash, [argv[0]] ends with it,
    what precedes it is empty or ends with a slash, and for an [argv[0]] of
    the form [dir/name] with a slash-free [name] it is [name].  Without any
    token it is empty. *)
Theorem programName_is_basename :
  programName [] = EmptyString
  /\ forall a0 rest,
       ~ contains "/"%char (programName (a0 :: rest))
       /\ (exists dir,
              a0 = dir +:+ programName (a0 :: rest)
              /\ (dir = EmptyString
                  \/ exists d, dir = d +:+ String "/"%char EmptyString))
       /\ (forall dir name,
              a0 = dir +:+ String "/"%char name ->
              ~ contains "/"%char name ->
              programName (a0 :: rest) = name).
Proof.
  split; [reflexivity|]. intros a0 rest.
  assert (Hpn : programName (a0 :: rest)
                = match sv.find_last_of "/"%char a0 with
                  | Some slash => sv.substr_from (S slash) a0
                  | None => a0
                  end).
  { unfold programName, argc_of. cbn [length].
    destruct (Z.ltb_spec 0 (Z.of_nat (S (length rest)))); [reflexivity|lia]. }
  rewrite Hpn. split; [|split].
  - destruct (sv.find_last_of "/"%char a0) as [p|] eqn:Hf.
    + apply find_last_of_Some in Hf as [_ Hn]. now apply find_None_iff.
    + apply find_None_iff. now apply find_last_of_None.
  - destruct (sv.find_last_of "/"%char a0) as [p|] eqn:Hf.
    + apply find_last_of_Some in Hf as [Hs _].
      exists (sv.substr_to p a0 +:+ String "/"%char EmptyString). split.
      * rewrite append_snoc. exact Hs.
      * right. eauto.
    + exists EmptyString. auto.
  - intros dir name -> Hname. apply find_None_iff in Hname.
    rewrite (find_last_of_app _ dir name Hname). apply substr_from_app.
Qed.

(** ** Error reports *)

(** X2. [print] writes nothing exactly for a successful result, and what
    it writes for a failure determines the failure: two failures with the
    same report have the same error kind and the same context. *)
Theorem print_identifies_failure :
  (forall r, print r = EmptyString <-> isOk r = true)
  /\ (forall r1 r2,
         isOk r1 = false -> isOk r2 = false ->
         print r1 = print r2 -> r1 = r2).
Proof.
  split.
  - intros [e c]. unfold print, isOk. cbn [error context].
    destruct e; try tauto; split; try discriminate;
      destruct (sv.empty c); discriminate.
  - intros [e1 c1] [e2 c2]. unfold print, isOk. cbn [error context].
    destruct e1; try discriminate; destruct e2; try discriminate;
      intros _ _; unfold errorMessage; cbn [error];
      destruct c1 as [|a1 c1]; destruct c2 as [|a2 c2]; cbn [sv.empty];
      intros H; apply append_inj_l in H;
      try (cbn in H; discriminate H);
      apply append_inj_l in H;
      try reflexivity;
      try (cbn in H; discriminate H);
      apply append_inj_l in H; apply append_inj_r in H; now rewrite H.
Qed.

(** ** [ArgSpan] *)

Lemma take_drop_step (m_argv : list string) it n :
  0 <= it < argc_of m_argv ->
  take (S n) (drop (Z.to_nat it) m_argv)
  = argv_at m_argv it :: take n (drop (Z.to_nat (it + 1)) m_argv).
Proof. intros H. now rewrite (drop_argv_at m_argv it H). Qed.

Lemma range_for_tokens (m_argv : list string) n :
  forall it,
    0 <= it -> it + Z.of_nat n <= argc_of m_argv ->
    range_for n m_argv it (it + Z.of_nat n)
    = Some (take n (drop (Z.to_nat it) m_argv)).
Proof.
  induction n as [|n IH]; intros it H0 Hn.
  - cbn [range_for]. replace (it + Z.of_nat 0) with it by lia.
    now rewrite Z.eqb_refl.
  - cbn [range_for]. destruct (Z.eqb_spec it (it + Z.of_nat (S n))); [lia|].
    replace (it + Z.of_nat (S n)) with (it + 1 + Z.of_nat n) by lia.
    rewrite IH by lia. rewrite take_drop_step by lia. reflexivity.
Qed.

Lemma ArgSpan_tokens_lookup (m_argv : list string) sp idx :
  0 <= span_data sp ->
  span_data sp + Z.of_nat (span_size sp) <= argc_of m_argv ->
  (idx < span_size sp)%nat ->
  ArgSpan_tokens m_argv sp !! idx = Some (ArgSpan_at m_argv sp idx).
Proof.
  intros H0 Hn Hidx. unfold ArgSpan_tokens, ArgSpan_at, argv_at, argc_of in *.
  rewrite lookup_take_lt by exact Hidx. rewrite lookup_drop.
  replace (Z.to_nat (span_data sp + Z.of_nat idx))
    with (Z.to_nat (span_data sp) + idx)%nat by lia.
  destruct (nth_lookup_or_length m_argv (Z.to_nat (span_data sp) + idx)
              EmptyString) as [H|H]; [exact H|lia].
Qed.

Lemma ArgSpan_tokens_length (m_argv : list string) sp :
  0 <= span_data sp ->
  span_data sp + Z.of_nat (span_size sp) <= argc_of m_argv ->
  length (ArgSpan_tokens m_argv sp) = span_size sp.
Proof.
  intros H0 Hn. unfold ArgSpan_tokens, argc_of in *.
  rewrite length_take, length_drop. lia.
Qed.

(** X3. For a span that lies within [argv], the members of [ArgSpan] agree
    with each other: a range-based [for] visits [size()] elements, the
    element visited at position [idx] is [operator[](idx)], [empty()] holds
    exactly when nothing is visited, and on a non-empty span [front()] and
    [back()] are the first and the last element visited. *)
Theorem ArgSpan_members_agree (m_argv : list string) sp :
  0 <= span_data sp ->
  span_data sp + Z.of_nat (span_size sp) <= argc_of m_argv ->
  exists visited,
    ArgSpan_collect m_argv sp = Some visited
    /\ length visited = ArgSpan_size sp
    /\ (forall idx,
           (idx < ArgSpan_size sp)%nat ->
           visited !! idx = Some (ArgSpan_at m_argv sp idx))
    /\ (ArgSpan_empty sp = true <-> visited = [])
    /\ (ArgSpan_empty sp = false ->
        head visited = Some (ArgSpan_front m_argv sp)
        /\ last visited = Some (ArgSpan_back m_argv sp)).
Proof.
  intros H0 Hn. exists (ArgSpan_tokens m_argv sp).
  pose proof (ArgSpan_tokens_length m_argv sp H0 Hn) as Hlen.
  pose proof (fun idx => ArgSpan_tokens_lookup m_argv sp idx H0 Hn) as Hat.
  unfold ArgSpan_size, ArgSpan_empty, ArgSpan_front, ArgSpan_back.
  split; [|split; [exact Hlen|split; [exact Hat|split]]].
  - unfold ArgSpan_collect, ArgSpan_begin, ArgSpan_end.
    now rewrite range_for_tokens.
  - destruct (Nat.eqb_spec (span_size sp) 0) as [Hz|Hnz]; split; intros H;
      try reflexivity; try discriminate.
    + apply length_zero_iff_nil. lia.
    + rewrite H in Hlen. cbn in Hlen. lia.
  - intros Hne. apply Nat.eqb_neq in Hne. split.
    + rewrite head_lookup. apply Hat. lia.
    + rewrite last_lookup, Hlen.
      replace (pred (span_size sp)) with (span_size sp - 1)%nat by lia.
      apply Hat. lia.
Qed.

Lemma parse_body_BodyBreak_start Options m_argv i positionalIndex m_options
    varArgsStart positionalIndex' m_options' :
  i < argc_of m_argv ->
  parse_body Options m_argv i positionalIndex (-1) m_options
  = BodyBreak varArgsStart positionalIndex' m_options' ->
  varArgsStart = -1 \/ (i <= varArgsStart < argc_of m_argv).
Proof.
  intros Hlt. unfold parse_body.
  destruct (String.eqb _ "--").
  - destruct (Z.ltb_spec (i + 1) (argc_of m_argv)); intros [= <- _ _]; lia.
  - destruct (sv.starts_with _ _).
    + destruct (negb _); discriminate.
    + destruct (isOk _); [discriminate|].
      destruct (error _); try discriminate.
      destruct (hasVarArgs Options); [|discriminate].
      intros [= <- _ _]. lia.
Qed.

(** X4. Whatever the tokens, [parse] writes the variadic slot at most once
    and as its last assignment; the span it writes starts at a scanned
    token, ends with the last token of [argv] and is never empty. *)
Theorem variadic_span_in_bounds Options m_argv m0 result m_final m_field :
  parse Options m_argv m0 = Some (result, m_final) ->
  is_variadic_slot Options m_field ->
  exists s,
    scan Options m_argv (initial m0) s
    /\ (m_final = st_options s
        \/ exists sp,
             m_final = <[m_field := FArgSpan sp]> (st_options s)
             /\ 1 <= span_data sp
             /\ span_data sp + Z.of_nat (span_size sp) = argc_of m_argv
             /\ (0 < span_size sp)%nat).
Proof.
  intros Hparse Hslot.
  destruct (parse_from_outcome Options m_argv (length m_argv) (initial m0)
              (result, m_final)) as (s & Hs & Hcase);
    [unfold argc_of; cbn; lia|cbn; lia|exact Hparse|].
  exists s. split; [exact Hs|].
  destruct (parse_scan _ _ _ _ Hs) as [_ Hi].
  destruct Hcase as [[Hle Hr]|[[Hlt (v & Hb & Hr)]|[Hlt (res & Hb & Hr)]]].
  - left. unfold parse_tail in Hr. cbn in Hr. now injection Hr.
  - unfold parse_tail in Hr. injection Hr as _ ->.
    destruct (parse_body_BodyBreak_start _ _ _ _ _ _ _ _ Hlt Hb) as [->|Hv].
    + left. reflexivity.
    + right. destruct (Z.leb_spec 0 v); [|lia].
      rewrite (setVarArgs_slot _ _ _ _ _ Hslot).
      eexists. split; [reflexivity|]. cbn [span_data span_size].
      unfold argc_of in *. lia.
  - left. now injection Hr.
Qed.

(** X5. When a variadic slot is declared, [varArgsIndex] is the position
    of a [VarArgs] element of the tuple, the last one, so that
    [std::get<varArgsIndex()>] has a [field()]; and [hasVarArgs] holds
    exactly when the tuple has a [VarArgs] element. *)
Theorem varArgsIndex_is_last_VarArgs Options :
  (hasVarArgs Options = true <-> exists m_field, In (VarArgs m_field) Options)
  /\ (hasVarArgs Options = true ->
      exists m_field,
        nth_error Options (varArgsIndex Options) = Some (VarArgs m_field)
        /\ forall j g,
             (varArgsIndex Options < j)%nat ->
             nth_error Options j <> Some (VarArgs g)).
Proof.
  split.
  - split.
    + intros H. destruct (is_variadic_slot_exists _ H) as (f & l1 & l2 & -> & _).
      exists f. apply in_or_app. right. now left.
    + intros [f Hin]. destruct (hasVarArgs Options) eqn:H; [reflexivity|].
      rewrite hasVarArgs_false in H. now destruct (H f).
  - intros H. destruct (is_variadic_slot_exists _ H) as (f & l1 & l2 & -> & Hl2).
    exists f. unfold varArgsIndex.
    rewrite varArgsIndex_from_last by exact Hl2. cbn [Nat.add]. split.
    + rewrite nth_error_app2 by lia. now rewrite Nat.sub_diag.
    + intros j g Hj Hnth. rewrite nth_error_app2 in Hnth by lia.
      destruct (j - length l1)%nat as [|k] eqn:Hk; [lia|]. cbn in Hnth.
      apply nth_error_In in Hnth. now specialize (Hl2 _ Hnth).
Qed.

(** ** Positional slots *)

(** X6. When the scan reaches a token that does not start with a dash and
    a positional slot is free, the token is coerced to the type of the slot
    at the fill count: on failure [parse] returns InvalidValue with the
    token as context and nothing written; on success the slot's field is
    assigned, the fill count grows by one and the scan moves to the next
    token. *)
Theorem positional_slot_filled Options m_argv m0 s m_name T m_field :
  scan Options m_argv (initial m0) s ->
  st_i s < argc_of m_argv ->
  sv.starts_with "-"%char (argv_at m_argv (st_i s)) = false ->
  nth_error (slots Options) (st_positionalIndex s)
  = Some (Arg m_name T m_field) ->
  match ValueParser_parse (unwrap_optional_t T) (argv_at m_argv (st_i s)) with
  | None =>
      parse Options m_argv m0
      = Some (failure InvalidValue (argv_at m_argv (st_i s)), st_options s)
  | Some parsed =>
      scan Options m_argv (initial m0)
        (mkScanState (st_i s + 1) (S (st_positionalIndex s))
           (<[m_field := store T parsed]> (st_options s)))
  end.
Proof.
  intros Hs Hlt Hdash Hslot.
  pose proof (parse_at _ _ _ _ Hs Hlt) as Hparse.
  assert (Hbody := parse_body_positional Options m_argv (st_i s)
                     (st_positionalIndex s) (-1) (st_options s) Hdash).
  rewrite Hbody in Hparse. clear Hdash.
  cbv zeta in Hparse, Hbody.
  rewrite tryParsePositional_slot in Hparse, Hbody.
  cbv zeta in Hparse, Hbody. rewrite Hslot in Hparse, Hbody.
  unfold tryParsePositional_func in Hparse, Hbody.
  rewrite Nat.eqb_refl in Hparse, Hbody. cbn [negb] in Hparse, Hbody.
  destruct (ValueParser_parse (unwrap_optional_t T) _) as [parsed|].
  - apply (scan_extend _ _ _ _ _ _ _ Hs Hlt Hbody).
  - exact Hparse.
Qed.

(** ** The two spellings of an option value *)

Lemma optName_of_plain n :
  ~ contains "="%char n -> optName_of n = n /\ inlineValue_of n = None.
Proof.
  intros H. apply find_None_iff in H. unfold optName_of, inlineValue_of.
  now rewrite H.
Qed.

Lemma optName_of_joined n v :
  ~ contains "="%char n ->
  optName_of (n +:+ String "="%char v) = n
  /\ inlineValue_of (n +:+ String "="%char v) = Some v.
Proof.
  intros H. apply find_None_iff in H. unfold optName_of, inlineValue_of.
  rewrite (find_app_first _ _ v H).
  now rewrite substr_to_app, substr_from_app.
Qed.

(** X7. Joining an option name that holds no [=] and a value with [=]
    gives a token that option handling splits back into exactly that name
    and that value, whatever the value holds (further [=] included); a name
    alone has no inline value. *)
Theorem split_inverts_join n v :
  ~ contains "="%char n ->
  optName_of (n +:+ String "="%char v) = n
  /\ inlineValue_of (n +:+ String "="%char v) = Some v
  /\ optName_of n = n
  /\ inlineValue_of n = None.
Proof.
  intros H. destruct (optName_of_joined n v H), (optName_of_plain n H). auto.
Qed.

(** X8. For an option bound to a non-boolean field, the spelling
    [name=value] in one token and the spelling [name value] in two tokens
    do the same to the options struct and fail or succeed alike; they
    differ only in that the second consumes the token behind the name. *)
Theorem value_spellings_agree Options m_argv1 m_argv2 i1 i2 n v m_options
    m_name m_altName T m_field :
  ~ contains "="%char n ->
  first_match Options n = Some (Option_ m_name m_altName T m_field) ->
  is_bool (unwrap_optional_t T) = false ->
  i2 + 1 < argc_of m_argv2 ->
  argv_at m_argv2 (i2 + 1) = v ->
  let c1 := tryParseOption Options m_argv1 (n +:+ String "="%char v) i1
              m_options in
  let c2 := tryParseOption Options m_argv2 n i2 m_options in
  oc_options c1 = oc_options c2
  /\ error (oc_result c1) = error (oc_result c2)
  /\ oc_index c1 = i1
  /\ oc_index c2 = i2 + 1.
Proof.
  intros Hn Hfm Hbool Hnext Hv. cbv zeta.
  rewrite !tryParseOption_first_match. cbv zeta.
  destruct (optName_of_joined n v Hn) as [-> ->].
  destruct (optName_of_plain n Hn) as [-> ->].
  rewrite Hfm. unfold tryParseOption_func.
  rewrite (first_match_matches _ _ _ _ _ _ Hfm), Hbool.
  cbn [negb oc_index oc_options].
  destruct (Z.ltb_spec (i2 + 1) (argc_of m_argv2)); [|lia].
  rewrite Hv.
  destruct (ValueParser_parse (unwrap_optional_t T) v); cbn; auto.
Qed.

(** X9. For an option bound to a boolean field, writing the flag bare and
    writing it with any of the true spellings as inline value are the
    same: same result, same index, same options struct. *)
Theorem bare_flag_is_true_spelling Options m_argv i n t m_options
    m_name m_altName T m_field :
  ~ contains "="%char n ->
  first_match Options n = Some (Option_ m_name m_altName T m_field) ->
  is_bool (unwrap_optional_t T) = true ->
  In t true_spellings ->
  tryParseOption Options m_argv (n +:+ String "="%char t) i m_options
  = tryParseOption Options m_argv n i m_options.
Proof.
  intros Hn Hfm Hbool Ht.
  rewrite !tryParseOption_first_match. cbv zeta.
  destruct (optName_of_joined n t Hn) as [-> ->].
  destruct (optName_of_plain n Hn) as [-> ->].
  rewrite Hfm. unfold tryParseOption_func.
  rewrite (first_match_matches _ _ _ _ _ _ Hfm), Hbool.
  cbn [negb oc_index oc_options].
  assert (Hp : ValueParser_parse TBool t = Some (VBool true)).
  { unfold true_spellings in Ht. cbn [In] in Ht.
    destruct Ht as [<-|[<-|[<-|[<-|[<-|[]]]]]]; reflexivity. }
  now rewrite Hp.
Qed.

(** X10. [needsValue], which makes the help text announce a value, says
    what option handling does: an option that needs no value never
    consumes the token behind it and succeeds when written bare; an option
    that needs one, written bare as the last token, gives MissingValue with
    the option name as context. *)
Theorem needsValue_describes_parsing Options m_argv arg i m_options
    m_name m_altName T m_field :
  first_match Options (optName_of arg)
  = Some (Option_ m_name m_altName T m_field) ->
  let c := tryParseOption Options m_argv arg i m_options in
  (needsValue T = false -> oc_index c = i)
  /\ (needsValue T = false -> inlineValue_of arg = None ->
      oc_result c = success)
  /\ (needsValue T = true -> inlineValue_of arg = None ->
      argc_of m_argv <= i + 1 ->
      c = mkOptionCapture (failure MissingValue (optName_of arg)) i m_options).
Proof.
  intros Hfm. cbv zeta.
  rewrite tryParseOption_first_match. cbv zeta. rewrite Hfm.
  unfold tryParseOption_func, needsValue.
  rewrite (first_match_matches _ _ _ _ _ _ Hfm).
  cbn [negb oc_index oc_options].
  destruct (is_bool (unwrap_optional_t T)); cbn [negb].
  - split; [|split]; try discriminate.
    + intros _. destruct (inlineValue_of arg) as [v|]; [|reflexivity].
      destruct (ValueParser_parse TBool v); reflexivity.
    + intros _ ->. reflexivity.
  - split; [|split]; try discriminate.
    intros _ -> Hlast.
    destruct (Z.ltb_spec (i + 1) (argc_of m_argv)); [lia|reflexivity].
Qed.

(** ** Invariants of the scan *)

Lemma first_match_In Options optName d :
  first_match Options optName = Some d -> In d Options.
Proof. unfold first_match. intros H. now apply find_some in H. Qed.

Lemma slots_In Options k d :
  nth_error (slots Options) k = Some d -> In d Options.
Proof.
  intros H. apply nth_error_In in H. unfold slots in H.
  now apply filter_In in H.
Qed.

(** What [tryParseOption] can return. *)
Lemma tryParseOption_result Options m_argv arg index m_options :
  let c := tryParseOption Options m_argv arg index m_options in
  (oc_result c = success
   \/ oc_result c = failure UnknownOption (optName_of arg)
   \/ oc_result c = failure InvalidValue arg
   \/ oc_result c = failure MissingValue (optName_of arg))
  /\ (index < argc_of m_argv -> oc_index c < argc_of m_argv).
Proof.
  cbv zeta. rewrite tryParseOption_first_match. cbv zeta.
  destruct (first_match Options (optName_of arg)) as [d|] eqn:Hfm;
    [|cbn; auto].
  destruct (first_match_Some _ _ _ Hfm) as (n & a & T & f & -> & Hm).
  unfold tryParseOption_func. rewrite Hm. cbn [negb oc_index oc_options].
  destruct (is_bool (unwrap_optional_t T)).
  - destruct (inlineValue_of arg) as [v|]; [|cbn; auto].
    destruct (ValueParser_parse TBool v); cbn; auto.
  - destruct (inlineValue_of arg) as [v|].
    + destruct (ValueParser_parse (unwrap_optional_t T) v); cbn; auto.
    + destruct (Z.ltb_spec (index + 1) (argc_of m_argv)); [|cbn; auto 6].
      destruct (ValueParser_parse (unwrap_optional_t T) _); cbn; auto.
Qed.

(** What [tryParsePositional] can return. *)
Lemma tryParsePositional_result Options value targetIndex m_options :
  let c := tryParsePositional Options value targetIndex m_options in
  ac_result c = success
  \/ ac_result c = failure InvalidValue value
  \/ ac_result c = failure TooManyArgs value.
Proof.
  cbv zeta. rewrite tryParsePositional_slot. cbv zeta.
  destruct (nth_error (slots Options) targetIndex) as [d|] eqn:Hn;
    [|cbn; auto].
  destruct (slots_are_args _ _ _ Hn) as (n & T & f & ->).
  unfold tryParsePositional_func. rewrite Nat.eqb_refl. cbn [negb].
  destruct (ValueParser_parse (unwrap_optional_t T) value); cbn; auto.
Qed.

(** The two kinds of pass that run to the end of the body. *)
Lemma parse_body_BodyEnd_cases Options m_argv i positionalIndex varArgsStart
    m_options i' positionalIndex' m_options' :
  i < argc_of m_argv ->
  parse_body Options m_argv i positionalIndex varArgsStart m_options
  = BodyEnd i' positionalIndex' m_options' ->
  (sv.starts_with "-"%char (argv_at m_argv i) = true
   /\ positionalIndex' = positionalIndex
   /\ i <= i' < argc_of m_argv
   /\ exists d v,
        In d Options /\ m_options' = <[decl_field d := v]> m_options)
  \/ (sv.starts_with "-"%char (argv_at m_argv i) = false
      /\ positionalIndex' = S positionalIndex
      /\ i' = i
      /\ exists m_name T m_field v,
           nth_error (slots Options) positionalIndex
           = Some (Arg m_name T m_field)
           /\ m_options' = <[m_field := v]> m_options).
Proof.
  intros Hlt. unfold parse_body.
  destruct (String.eqb _ "--"); [discriminate|].
  destruct (sv.starts_with _ _).
  - pose proof (tryParseOption_effect Options m_argv (argv_at m_argv i) i
                  m_options) as (Hi & _ & Hok).
    pose proof (tryParseOption_result Options m_argv (argv_at m_argv i) i
                  m_options) as (_ & Hbound).
    cbv zeta in Hi, Hok, Hbound.
    destruct (isOk (oc_result _)); cbn [negb]; [|discriminate].
    intros [= <- <- <-]. left.
    destruct (Hok eq_refl) as (n & a & T & f & v & Hfm & Hm).
    split; [reflexivity|]. split; [reflexivity|].
    split; [split; [lia|apply Hbound, Hlt]|].
    exists (Option_ n a T f), v. split; [|exact Hm].
    apply (first_match_In _ _ _ Hfm).
  - pose proof (tryParsePositional_effect Options (argv_at m_argv i)
                  positionalIndex m_options) as (_ & Hok & _).
    cbv zeta in Hok.
    destruct (isOk (ac_result _)).
    + intros [= <- <- <-]. right.
      destruct (Hok eq_refl) as (n & T & f & v & Hn & Hm).
      split; [reflexivity|]. split; [reflexivity|]. split; [reflexivity|].
      eauto 8.
    + destruct (error (ac_result _)); try discriminate.
      destruct (hasVarArgs Options); discriminate.
Qed.

(** X11. Between passes the index of the next token lies between 1 and
    [argc] (1 when there is no token to scan), so no pass reads a token
    that does not exist; the fill count never exceeds the number of
    declared positional slots nor the number of tokens scanned so far. *)
Theorem scan_stays_in_bounds Options m_argv m0 s :
  scan Options m_argv (initial m0) s ->
  1 <= st_i s <= Z.max 1 (argc_of m_argv)
  /\ (st_positionalIndex s <= argumentCount Options)%nat
  /\ Z.of_nat (st_positionalIndex s) <= st_i s - 1.
Proof.
  rewrite argumentCount_slots.
  assert (Hgen : forall s0 s1,
             scan Options m_argv s0 s1 ->
             1 <= st_i s0 <= Z.max 1 (argc_of m_argv)
             /\ (st_positionalIndex s0 <= length (slots Options))%nat
             /\ Z.of_nat (st_positionalIndex s0) <= st_i s0 - 1 ->
             1 <= st_i s1 <= Z.max 1 (argc_of m_argv)
             /\ (st_positionalIndex s1 <= length (slots Options))%nat
             /\ Z.of_nat (st_positionalIndex s1) <= st_i s1 - 1).
  { induction 1 as [s1|s0 i' pos' m' s1 Hlt Hb _ IH]; [auto|].
    intros (Hi & Hpos & Hcount). apply IH. cbn.
    destruct (parse_body_BodyEnd_cases _ _ _ _ _ _ _ _ _ Hlt Hb)
      as [(_ & -> & Hi' & _)|(_ & -> & -> & n & T & f & v & Hn & _)].
    - lia.
    - assert (st_positionalIndex s0 < length (slots Options))%nat
        by (apply nth_error_Some; congruence).
      lia. }
  intros Hs. apply (Hgen _ _ Hs). cbn. lia.
Qed.

Lemma first_unmet_None Options :
  forall idx count k m_name T m_field,
    first_unmet Options idx count = None ->
    nth_error (slots Options) k = Some (Arg m_name T m_field) ->
    is_optional_v T = false ->
    (idx + k < count)%nat.
Proof.
  unfold slots.
  induction Options as [|d rest IH]; intros idx count k n T f Hu Hk Hopt.
  - destruct k; discriminate.
  - destruct d as [n' a' T' f'|n' T' f'|f']; cbn in Hu, Hk;
      try (eapply IH; eassumption).
    destruct k as [|k]; cbn in Hk.
    + injection Hk as -> -> ->. rewrite Hopt in Hu. cbn in Hu.
      destruct (Nat.leb_spec count idx); [discriminate|lia].
    + destruct (negb (is_optional_v T') && (count <=? idx)%nat);
        [discriminate|].
      specialize (IH _ _ _ _ _ _ Hu Hk Hopt). lia.
Qed.

Lemma first_unmet_Some Options :
  forall idx count m_name,
    first_unmet Options idx count = Some m_name ->
    exists T m_field,
      In (Arg m_name T m_field) Options /\ is_optional_v T = false.
Proof.
  induction Options as [|d rest IH]; intros idx count n Hu; [discriminate|].
  cbn [first_unmet] in Hu. destruct d as [n' a' T' f'|n' T' f'|f'].
  - destruct (IH _ _ _ Hu) as (T & f & Hin & Hopt). exists T, f.
    split; [now right|exact Hopt].
  - destruct (is_optional_v T') eqn:Hopt'; cbn in Hu.
    + destruct (IH _ _ _ Hu) as (T & f & Hin & Hopt). exists T, f.
      split; [now right|exact Hopt].
    + destruct (count <=? idx)%nat.
      * injection Hu as ->. exists T', f'. split; [now left|exact Hopt'].
      * destruct (IH _ _ _ Hu) as (T & f & Hin & Hopt). exists T, f.
        split; [now right|exact Hopt].
  - destruct (IH _ _ _ Hu) as (T & f & Hin & Hopt). exists T, f.
    split; [now right|exact Hopt].
Qed.

Lemma insert_keeps_is_Some (m : gmap nat FieldVal) g v f :
  is_Some (m !! f) -> is_Some (<[g := v]> m !! f).
Proof.
  intros H. destruct (decide (g = f)) as [->|Hne].
  - rewrite lookup_insert_eq. eauto.
  - now rewrite lookup_insert_ne.
Qed.

Lemma setVarArgs_keeps_is_Some Options m_argv startIndex
    (m_options : gmap nat FieldVal) f :
  is_Some (m_options !! f) ->
  is_Some (setVarArgs Options m_argv startIndex m_options !! f).
Proof.
  intros H. unfold setVarArgs. destruct (hasVarArgs Options); [|exact H].
  destruct (nth_error Options (varArgsIndex Options)) as [[| |g]|];
    try exact H.
  now apply insert_keeps_is_Some.
Qed.

(** Every slot below the fill count has had its field assigned. *)
Lemma scan_filled_slots Options m_argv s0 s :
  scan Options m_argv s0 s ->
  (forall k m_name T m_field,
      (k < st_positionalIndex s0)%nat ->
      nth_error (slots Options) k = Some (Arg m_name T m_field) ->
      is_Some (st_options s0 !! m_field)) ->
  forall k m_name T m_field,
    (k < st_positionalIndex s)%nat ->
    nth_error (slots Options) k = Some (Arg m_name T m_field) ->
    is_Some (st_options s !! m_field).
Proof.
  induction 1 as [s|s0 i' pos' m' s Hlt Hb _ IH]; intros H0; [exact H0|].
  apply IH. cbn. intros k n T f Hk Hn.
  destruct (parse_body_BodyEnd_cases _ _ _ _ _ _ _ _ _ Hlt Hb)
    as [(_ & -> & _ & d & v & _ & ->)
       |(_ & -> & _ & n' & T' & f' & v & Hn' & ->)].
  - apply insert_keeps_is_Some. eapply H0; eauto.
  - destruct (Nat.eq_dec k (st_positionalIndex s0)) as [->|Hne].
    + rewrite Hn in Hn'. injection Hn' as -> -> ->.
      rewrite lookup_insert_eq. eauto.
    + apply insert_keeps_is_Some. eapply H0; eauto. lia.
Qed.

(** X12. When the slot names are not empty and [parse] succeeds, the field
    of every positional slot that is not optional-wrapped has been
    assigned. *)
Theorem success_fills_required_slots Options m_argv m0 result m_final :
  (forall m_name T m_field,
      In (Arg m_name T m_field) Options -> m_name <> EmptyString) ->
  parse Options m_argv m0 = Some (result, m_final) ->
  isOk result = true ->
  forall k m_name T m_field,
    nth_error (slots Options) k = Some (Arg m_name T m_field) ->
    is_optional_v T = false ->
    is_Some (m_final !! m_field).
Proof.
  intros Hnamed Hparse Hok k n T f Hslot Hreq.
  destruct (parse_from_outcome Options m_argv (length m_argv) (initial m0)
              (result, m_final)) as (s & Hs & Hcase);
    [unfold argc_of; cbn; lia|cbn; lia|exact Hparse|].
  assert (Hfilled : forall count,
             checkRequired Options count = result ->
             (k < count)%nat).
  { intros count Hr. rewrite checkRequired_named in Hr by exact Hnamed.
    destruct (first_unmet Options O count) as [n'|] eqn:Hu.
    - subst result. discriminate Hok.
    - apply (first_unmet_None _ _ _ _ _ _ _ Hu Hslot Hreq). }
  assert (Hinv : (k < st_positionalIndex s)%nat ->
                 is_Some (st_options s !! f)).
  { intros Hk.
    apply (scan_filled_slots _ _ _ _ Hs) with (k := k) (m_name := n) (T := T);
      [|exact Hk|exact Hslot].
    cbn. intros; lia. }
  destruct Hcase as [[Hle Hr]|[[Hlt (v & Hb & Hr)]|[Hlt (res & Hb & Hr)]]].
  - unfold parse_tail in Hr. cbn in Hr. injection Hr as Hr ->.
    apply Hinv, Hfilled. now rewrite Hr.
  - unfold parse_tail in Hr. injection Hr as Hr ->.
    specialize (Hinv (Hfilled _ (eq_sym Hr))).
    destruct (0 <=? v); [now apply setVarArgs_keeps_is_Some|exact Hinv].
  - injection Hr as -> ->.
    apply parse_body_BodyReturn in Hb as [Hb _]. congruence.
Qed.

Lemma addressed_field_declared Options arg positionalIndex m_field :
  addressed_field Options arg positionalIndex = Some m_field ->
  exists d, In d Options /\ decl_field d = m_field.
Proof.
  unfold addressed_field. destruct (sv.starts_with _ _).
  - destruct (first_match Options (optName_of arg)) as [d|] eqn:Hfm;
      [|discriminate].
    destruct d as [n a T f| |]; try discriminate. intros [= <-].
    exists (Option_ n a T f). split; [|reflexivity].
    apply (first_match_In _ _ _ Hfm).
  - destruct (nth_error (slots Options) positionalIndex) as [d|] eqn:Hn;
      [|discriminate].
    destruct d as [|n T f|]; try discriminate. intros [= <-].
    exists (Arg n T f). split; [|reflexivity]. apply (slots_In _ _ _ Hn).
Qed.

Lemma setVarArgs_other Options m_argv startIndex
    (m_options : gmap nat FieldVal) f :
  (forall d, In d Options -> decl_field d <> f) ->
  setVarArgs Options m_argv startIndex m_options !! f = m_options !! f.
Proof.
  intros H. unfold setVarArgs. destruct (hasVarArgs Options); [|reflexivity].
  destruct (nth_error Options (varArgsIndex Options)) as [[| |g]|] eqn:Hn;
    try reflexivity.
  apply lookup_insert_ne. apply nth_error_In in Hn. apply (H _ Hn).
Qed.

(** X13. Whatever the tokens and whatever the outcome, [parse] leaves
    alone every field of the options struct that no declaration is bound
    to. *)
Theorem parse_writes_declared_fields_only Options m_argv m0 result m_final
    m_field :
  parse Options m_argv m0 = Some (result, m_final) ->
  (forall d, In d Options -> decl_field d <> m_field) ->
  m_final !! m_field = m0 !! m_field.
Proof.
  intros Hparse Hfree.
  destruct (parse_from_outcome Options m_argv (length m_argv) (initial m0)
              (result, m_final)) as (s & Hs & Hcase);
    [unfold argc_of; cbn; lia|cbn; lia|exact Hparse|].
  assert (Hscan : st_options s !! m_field = m0 !! m_field).
  { apply (scan_frame _ _ _ _ Hs). intros s' _ _ Ha.
    destruct (addressed_field_declared _ _ _ _ Ha) as (d & Hin & Hd).
    apply (Hfree _ Hin Hd). }
  destruct Hcase as [[Hle Hr]|[[Hlt (v & Hb & Hr)]|[Hlt (res & Hb & Hr)]]].
  - unfold parse_tail in Hr. cbn in Hr. now injection Hr as _ ->.
  - unfold parse_tail in Hr. injection Hr as _ ->.
    destruct (0 <=? v); [|exact Hscan].
    now rewrite setVarArgs_other.
  - now injection Hr as _ ->.
Qed.

(** X14. The context of every result of [parse] refers to something that
    exists: for InvalidValue and TooManyArgs it is a scanned token (for
    InvalidValue from an option, the whole option token), for
    UnknownOption and MissingValue it is the option name of a scanned
    dash token, for MissingRequiredArg it is the non-empty name of a
    declared slot that is not optional-wrapped; a success carries no
    context. *)
Theorem failure_context_provenance Options m_argv m0 result m_final :
  parse Options m_argv m0 = Some (result, m_final) ->
  match error result with
  | PE_None => result = success
  | InvalidValue | TooManyArgs =>
      exists i, 1 <= i < argc_of m_argv /\ context result = argv_at m_argv i
  | UnknownOption | MissingValue =>
      exists i,
        1 <= i < argc_of m_argv
        /\ sv.starts_with "-"%char (argv_at m_argv i) = true
        /\ context result = optName_of (argv_at m_argv i)
  | MissingRequiredArg =>
      exists m_name T m_field,
        In (Arg m_name T m_field) Options
        /\ is_optional_v T = false
        /\ m_name <> EmptyString
        /\ context result = m_name
  end.
Proof.
  intros Hparse.
  destruct (parse_from_outcome Options m_argv (length m_argv) (initial m0)
              (result, m_final)) as (s & Hs & Hcase);
    [unfold argc_of; cbn; lia|cbn; lia|exact Hparse|].
  destruct (parse_scan _ _ _ _ Hs) as [_ Hi].
  assert (Hcheck : forall count,
             result = checkRequired Options count ->
             match error result with
             | PE_None => result = success
             | MissingRequiredArg =>
                 exists m_name T m_field,
                   In (Arg m_name T m_field) Options
                   /\ is_optional_v T = false
                   /\ m_name <> EmptyString
                   /\ context result = m_name
             | _ => False
             end).
  { intros count ->. rewrite checkRequired_first_unmet.
    destruct (first_unmet Options O count) as [n|] eqn:Hu; [|reflexivity].
    destruct (first_unmet_Some _ _ _ _ Hu) as (T & f & Hin & Hopt).
    destruct n as [|c n]; [reflexivity|]. cbn.
    exists (String c n), T, f. repeat split; auto; discriminate. }
  destruct Hcase as [[Hle Hr]|[[Hlt (v & Hb & Hr)]|[Hlt (res & Hb & Hr)]]].
  - unfold parse_tail in Hr. injection Hr as Hr _.
    specialize (Hcheck _ Hr). destruct (error result); tauto.
  - unfold parse_tail in Hr. injection Hr as Hr _.
    specialize (Hcheck _ Hr). destruct (error result); tauto.
  - injection Hr as -> _. clear Hcheck. revert Hb. unfold parse_body.
    destruct (String.eqb _ "--"); [discriminate|].
    destruct (sv.starts_with "-"%char (argv_at m_argv (st_i s))) eqn:Hdash.
    + pose proof (tryParseOption_result Options m_argv
                    (argv_at m_argv (st_i s)) (st_i s) (st_options s))
        as (Hres & _).
      cbv zeta in Hres.
      destruct (isOk (oc_result _)) eqn:Hok; cbn [negb]; [discriminate|].
      intros [= <- _].
      destruct Hres as [Hr|[Hr|[Hr|Hr]]]; rewrite Hr in Hok |- *;
        try discriminate Hok; cbn [error context failure];
        exists (st_i s); repeat split; auto; lia.
    + pose proof (tryParsePositional_result Options
                    (argv_at m_argv (st_i s)) (st_positionalIndex s)
                    (st_options s)) as Hres.
      cbv zeta in Hres.
      destruct (isOk (ac_result _)) eqn:Hok; [discriminate|].
      destruct Hres as [Hr|[Hr|Hr]]; rewrite Hr in Hok |- *;
        try discriminate Hok; cbn [error context failure].
      * intros [= <- _]. cbn. exists (st_i s). split; [lia|reflexivity].
      * destruct (hasVarArgs Options); [discriminate|].
        intros [= <- _]. cbn. exists (st_i s). split; [lia|reflexivity].
Qed.

(** ** Order of the tokens *)

(** A pass reads its own token, the token behind it, and [argc]. *)
Lemma tryParseOption_ext Options m_argv1 m_argv2 arg i m_options :
  argc_of m_argv1 = argc_of m_argv2 ->
  argv_at m_argv1 (i + 1) = argv_at m_argv2 (i + 1) ->
  tryParseOption Options m_argv1 arg i m_options
  = tryParseOption Options m_argv2 arg i m_options.
Proof.
  intros Hc Hn. rewrite !tryParseOption_first_match. cbv zeta.
  destruct (first_match Options (optName_of arg)) as [d|]; [|reflexivity].
  unfold tryParseOption_func. cbn [oc_index oc_options].
  now rewrite Hc, Hn.
Qed.

Lemma parse_body_ext Options m_argv1 m_argv2 i positionalIndex varArgsStart
    m_options :
  argc_of m_argv1 = argc_of m_argv2 ->
  argv_at m_argv1 i = argv_at m_argv2 i ->
  argv_at m_argv1 (i + 1) = argv_at m_argv2 (i + 1) ->
  parse_body Options m_argv1 i positionalIndex varArgsStart m_options
  = parse_body Options m_argv2 i positionalIndex varArgsStart m_options.
Proof.
  intros Hc Hi Hn. unfold parse_body.
  rewrite (tryParseOption_ext Options m_argv1 m_argv2) by assumption.
  now rewrite Hc, Hi.
Qed.

Lemma parse_loop_ext Options m_argv1 m_argv2 varArgsStart fuel :
  argc_of m_argv1 = argc_of m_argv2 ->
  forall i positionalIndex m_options,
    (forall k, i <= k -> argv_at m_argv1 k = argv_at m_argv2 k) ->
    parse_loop fuel Options m_argv1 i positionalIndex varArgsStart m_options
    = parse_loop fuel Options m_argv2 i positionalIndex varArgsStart
        m_options.
Proof.
  intros Hc.
  assert (Htail : forall v pos m,
             parse_tail Options m_argv1 v pos m
             = parse_tail Options m_argv2 v pos m).
  { intros v pos m. unfold parse_tail, setVarArgs. now rewrite Hc. }
  induction fuel as [|fuel IH]; intros i pos m Hk; cbn [parse_loop];
    rewrite Hc, Htail; [reflexivity|].
  destruct (argc_of m_argv2 <=? i); [reflexivity|].
  rewrite (parse_body_ext Options m_argv1 m_argv2)
    by (try exact Hc; apply Hk; lia).
  destruct (parse_body Options m_argv2 i pos varArgsStart m)
    as [i' pos' m'|v pos' m'|res m'] eqn:Hb.
  - apply parse_body_BodyEnd in Hb as [Hi' _]. apply IH.
    intros k Hk'. apply Hk. lia.
  - now rewrite Htail.
  - reflexivity.
Qed.

(** A pass that ran to the end of the body does so on every token sequence
    that has the same token at its index, the same token behind it if the
    pass consumed that one, and a token behind the index as well. *)
Lemma parse_body_BodyEnd_agree Options m_argv1 m_argv2 j positionalIndex
    varArgsStart m_options i' positionalIndex' m_options' :
  parse_body Options m_argv1 j positionalIndex varArgsStart m_options
  = BodyEnd i' positionalIndex' m_options' ->
  argv_at m_argv1 j = argv_at m_argv2 j ->
  (j < i' -> argv_at m_argv1 (j + 1) = argv_at m_argv2 (j + 1)) ->
  j + 1 < argc_of m_argv1 -> j + 1 < argc_of m_argv2 ->
  parse_body Options m_argv2 j positionalIndex varArgsStart m_options
  = BodyEnd i' positionalIndex' m_options'.
Proof.
  intros Hb Hj Hnext Hc1 Hc2. revert Hb. unfold parse_body. rewrite <- Hj.
  destruct (String.eqb _ "--"); [discriminate|].
  destruct (sv.starts_with _ _); [|auto].
  rewrite !tryParseOption_first_match. cbv zeta.
  destruct (first_match Options (optName_of (argv_at m_argv1 j))) as [d|]
    eqn:Hfm; [|auto].
  destruct (first_match_Some _ _ _ Hfm) as (n & a & T & f & -> & Hm).
  unfold tryParseOption_func. rewrite Hm. cbn [negb oc_index oc_options].
  destruct (is_bool (unwrap_optional_t T)); [auto|].
  destruct (inlineValue_of (argv_at m_argv1 j)); [auto|].
  destruct (Z.ltb_spec (j + 1) (argc_of m_argv1)); [|lia].
  destruct (Z.ltb_spec (j + 1) (argc_of m_argv2)); [|lia].
  destruct (ValueParser_parse (unwrap_optional_t T) (argv_at m_argv1 (j + 1)))
    as [parsed|] eqn:Hp; cbn [oc_result oc_index oc_options isOk error
                               success failure negb].
  - intros [= <- <- <-]. rewrite <- Hnext by lia. now rewrite Hp.
  - discriminate.
Qed.

Lemma argv_at_app_r (l1 l2 : list string) k :
  Z.of_nat (length l1) <= k ->
  argv_at (l1 ++ l2) k = argv_at l2 (k - Z.of_nat (length l1)).
Proof.
  intros H. unfold argv_at. rewrite app_nth2 by lia. f_equal. lia.
Qed.

(** The scan up to an index depends on the tokens before that index only,
    as long as there is a token at the index. *)
Lemma scan_prefix_strong Options common rest rest' s0 s :
  scan Options (common ++ rest) s0 s ->
  0 <= st_i s0 -> st_i s <= argc_of common ->
  rest <> [] -> rest' <> [] ->
  scan Options (common ++ rest') s0 s.
Proof.
  intros Hs H0 Hin Hr Hr'.
  assert (Hlen : forall r : list string, r <> [] -> 0 < argc_of r).
  { intros [|x r] H; [congruence|]. unfold argc_of. cbn. lia. }
  specialize (Hlen rest Hr) as Hl. specialize (Hlen rest' Hr') as Hl'.
  induction Hs as [s|s0 i' pos' m' s Hlt Hb Hs IH]; [constructor|].
  pose proof (scan_index _ _ _ _ Hs) as Hmono. cbn in Hmono.
  pose proof (parse_body_BodyEnd _ _ _ _ _ _ _ _ _ Hb) as [Hi' _].
  eapply scan_pass.
  - rewrite argc_of_app. lia.
  - apply (parse_body_BodyEnd_agree _ _ _ _ _ _ _ _ _ _ Hb).
    + rewrite !argv_at_app by (unfold argc_of in *; lia). reflexivity.
    + intros Hcons. rewrite !argv_at_app by (unfold argc_of in *; lia).
      reflexivity.
    + rewrite argc_of_app. lia.
    + rewrite argc_of_app. lia.
  - apply IH; cbn; lia.
Qed.

(** An option written in one token, with a value that coerces: bare for a
    boolean field, or with an inline value. *)
Lemma one_token_option_pass Options m_argv j positionalIndex m_options
    m_name m_altName T m_field parsed :
  sv.starts_with "-"%char (argv_at m_argv j) = true ->
  argv_at m_argv j <> "--" ->
  first_match Options (optName_of (argv_at m_argv j))
  = Some (Option_ m_name m_altName T m_field) ->
  match inlineValue_of (argv_at m_argv j) with
  | Some v => ValueParser_parse (unwrap_optional_t T) v = Some parsed
  | None => is_bool (unwrap_optional_t T) = true /\ parsed = VBool true
  end ->
  parse_body Options m_argv j positionalIndex (-1) m_options
  = BodyEnd j positionalIndex (<[m_field := store T parsed]> m_options).
Proof.
  intros Hdash Hsep Hfm Hval.
  rewrite parse_body_option by assumption. cbv zeta.
  rewrite tryParseOption_first_match. cbv zeta. rewrite Hfm.
  unfold tryParseOption_func.
  rewrite (first_match_matches _ _ _ _ _ _ Hfm). cbn [negb].
  destruct (inlineValue_of (argv_at m_argv j)) as [v|].
  - destruct (unwrap_optional_t T) eqn:HT; cbn [is_bool];
      rewrite Hval; reflexivity.
  - destruct Hval as [-> ->]. reflexivity.
Qed.

Lemma positional_pass Options m_argv j positionalIndex m_options
    m_name T m_field parsed :
  sv.starts_with "-"%char (argv_at m_argv j) = false ->
  nth_error (slots Options) positionalIndex = Some (Arg m_name T m_field) ->
  ValueParser_parse (unwrap_optional_t T) (argv_at m_argv j) = Some parsed ->
  parse_body Options m_argv j positionalIndex (-1) m_options
  = BodyEnd j (S positionalIndex) (<[m_field := store T parsed]> m_options).
Proof.
  intros Hdash Hslot Hval.
  rewrite parse_body_positional by assumption. cbv zeta.
  rewrite tryParsePositional_slot. cbv zeta. rewrite Hslot.
  unfold tryParsePositional_func. rewrite Nat.eqb_refl. cbn [negb].
  now rewrite Hval.
Qed.

(** X15. An option written in one token (a bare boolean flag, or
    [name=value]) and a positional token next to it can be exchanged: when
    both coerce and they are bound to different fields, [parse] gives the
    same result and the same options struct for either order. *)
Theorem option_and_positional_commute Options pre a b rest m0 s
    m_name m_altName Ta fa pa nb Tb fb pb :
  scan Options (pre ++ a :: b :: rest) (initial m0) s ->
  st_i s = Z.of_nat (length pre) ->
  sv.starts_with "-"%char a = true ->
  a <> "--" ->
  first_match Options (optName_of a) = Some (Option_ m_name m_altName Ta fa) ->
  match inlineValue_of a with
  | Some v => ValueParser_parse (unwrap_optional_t Ta) v = Some pa
  | None => is_bool (unwrap_optional_t Ta) = true /\ pa = VBool true
  end ->
  sv.starts_with "-"%char b = false ->
  nth_error (slots Options) (st_positionalIndex s) = Some (Arg nb Tb fb) ->
  ValueParser_parse (unwrap_optional_t Tb) b = Some pb ->
  fa <> fb ->
  parse Options (pre ++ a :: b :: rest) m0
  = parse Options (pre ++ b :: a :: rest) m0.
Proof.
  intros Hs Hi Hda Hsa Hfm Hva Hdb Hslot Hvb Hne.
  assert (Hs2 : scan Options (pre ++ b :: a :: rest) (initial m0) s).
  { apply (scan_prefix_strong Options pre (a :: b :: rest) (b :: a :: rest)
             _ _ Hs); [cbn; lia|unfold argc_of; lia|discriminate|discriminate]. }
  set (argv1 := pre ++ a :: b :: rest) in *.
  set (argv2 := pre ++ b :: a :: rest) in *.
  assert (Hat : forall x y k,
             argv_at (pre ++ x :: y :: rest) (st_i s + Z.of_nat k)
             = nth k (x :: y :: rest) EmptyString).
  { intros x y k. rewrite argv_at_app_r by lia. unfold argv_at.
    f_equal. lia. }
  pose proof (Hat a b O) as H1a. pose proof (Hat a b 1%nat) as H1b.
  pose proof (Hat b a O) as H2b. pose proof (Hat b a 1%nat) as H2a.
  cbn [nth] in H1a, H1b, H2b, H2a.
  replace (st_i s + Z.of_nat 0) with (st_i s) in H1a, H2b by lia.
  replace (st_i s + Z.of_nat 1) with (st_i s + 1) in H1b, H2a by lia.
  fold argv1 in H1a, H1b. fold argv2 in H2a, H2b.
  assert (Hc1 : argc_of argv1 = Z.of_nat (length pre) + 2 + argc_of rest).
  { unfold argv1, argc_of. rewrite length_app. cbn [length]. lia. }
  assert (Hc2 : argc_of argv2 = Z.of_nat (length pre) + 2 + argc_of rest).
  { unfold argv2, argc_of. rewrite length_app. cbn [length]. lia. }
  pose proof (argc_of_nonneg rest) as Hrest.
  destruct (parse_scan _ _ _ _ Hs) as [-> Hi1].
  destruct (parse_scan _ _ _ _ Hs2) as [-> _].
  (* first order: the option, then the positional *)
  rewrite (parse_from_unfold Options argv1 s) by lia.
  destruct (Z.leb_spec (argc_of argv1) (st_i s)); [lia|].
  rewrite (one_token_option_pass Options argv1 (st_i s) _ _
             m_name m_altName Ta fa pa)
    by (rewrite ?H1a; assumption).
  rewrite parse_from_unfold by (cbn; lia). cbn [st_i st_positionalIndex st_options].
  destruct (Z.leb_spec (argc_of argv1) (st_i s + 1)); [lia|].
  rewrite (positional_pass Options argv1 (st_i s + 1) _ _ nb Tb fb pb)
    by (rewrite ?H1b; assumption).
  (* second order: the positional, then the option *)
  rewrite (parse_from_unfold Options argv2 s) by lia.
  destruct (Z.leb_spec (argc_of argv2) (st_i s)); [lia|].
  rewrite (positional_pass Options argv2 (st_i s) _ _ nb Tb fb pb)
    by (rewrite ?H2b; assumption).
  rewrite (parse_from_unfold Options argv2) by (cbn; lia).
  cbn [st_i st_positionalIndex st_options].
  destruct (Z.leb_spec (argc_of argv2) (st_i s + 1)); [lia|].
  rewrite (one_token_option_pass Options argv2 (st_i s + 1) _ _
             m_name m_altName Ta fa pa)
    by (rewrite ?H2a; assumption).
  (* the rest of the scan *)
  rewrite (insert_insert_ne (st_options s) fb fa) by congruence.
  unfold parse_from. cbn [st_i st_positionalIndex st_options].
  replace (length argv2) with (length argv1)
    by (unfold argv1, argv2; rewrite !length_app; reflexivity).
  apply parse_loop_ext; [congruence|].
  intros k Hk. unfold argv1, argv2.
  change (pre ++ a :: b :: rest) with (pre ++ [a; b] ++ rest).
  change (pre ++ b :: a :: rest) with (pre ++ [b; a] ++ rest).
  rewrite !app_assoc.
  rewrite !argv_at_app_r by (rewrite length_app; cbn [length]; lia).
  rewrite !length_app. reflexivity.
Qed.

(** ** What triggers each error *)

Lemma is_bool_TBool T : is_bool T = true -> T = TBool.
Proof. destruct T; try discriminate. reflexivity. Qed.

Lemma tryParseOption_failure Options m_argv arg i m_options :
  let c := tryParseOption Options m_argv arg i m_options in
  isOk (oc_result c) = false ->
  (first_match Options (optName_of arg) = None
   /\ oc_result c = failure UnknownOption (optName_of arg))
  \/ exists m_name m_altName T m_field,
       first_match Options (optName_of arg)
       = Some (Option_ m_name m_altName T m_field)
       /\ ((needsValue T = true
            /\ inlineValue_of arg = None
            /\ argc_of m_argv <= i + 1
            /\ oc_result c = failure MissingValue (optName_of arg))
           \/ exists value,
                (inlineValue_of arg = Some value
                 \/ (inlineValue_of arg = None
                     /\ needsValue T = true
                     /\ i + 1 < argc_of m_argv
                     /\ value = argv_at m_argv (i + 1)))
                /\ ValueParser_parse (unwrap_optional_t T) value = None
                /\ oc_result c = failure InvalidValue arg).
Proof.
  cbv zeta. rewrite tryParseOption_first_match. cbv zeta.
  destruct (first_match Options (optName_of arg)) as [d|] eqn:Hfm;
    [|intros _; left; auto].
  destruct (first_match_Some _ _ _ Hfm) as (n & a & T & f & -> & Hm).
  intros Hfail. right. exists n, a, T, f. split; [reflexivity|].
  revert Hfail. unfold tryParseOption_func, needsValue. rewrite Hm.
  cbn [negb oc_index oc_options].
  destruct (is_bool (unwrap_optional_t T)) eqn:Hbool; cbn [negb].
  - apply is_bool_TBool in Hbool. rewrite Hbool.
    destruct (inlineValue_of arg) as [v|]; [|discriminate].
    destruct (ValueParser_parse TBool v) eqn:Hp; [discriminate|].
    intros _. right. exists v. auto.
  - destruct (inlineValue_of arg) as [v|].
    + destruct (ValueParser_parse (unwrap_optional_t T) v) eqn:Hp;
        [discriminate|].
      intros _. right. exists v. auto.
    + destruct (Z.ltb_spec (i + 1) (argc_of m_argv)).
      * destruct (ValueParser_parse (unwrap_optional_t T) _) eqn:Hp;
          [discriminate|].
        intros _. right. eexists. split; [right; eauto|]. auto.
      * intros _. left. auto.
Qed.

Lemma tryParsePositional_failure Options value targetIndex m_options :
  let c := tryParsePositional Options value targetIndex m_options in
  isOk (ac_result c) = false ->
  (nth_error (slots Options) targetIndex = None
   /\ ac_result c = failure TooManyArgs value)
  \/ exists m_name T m_field,
       nth_error (slots Options) targetIndex = Some (Arg m_name T m_field)
       /\ ValueParser_parse (unwrap_optional_t T) value = None
       /\ ac_result c = failure InvalidValue value.
Proof.
  cbv zeta. rewrite tryParsePositional_slot. cbv zeta.
  destruct (nth_error (slots Options) targetIndex) as [d|] eqn:Hn;
    [|intros _; left; auto].
  destruct (slots_are_args _ _ _ Hn) as (n & T & f & ->).
  unfold tryParsePositional_func. rewrite Nat.eqb_refl. cbn [negb].
  destruct (ValueParser_parse (unwrap_optional_t T) value) eqn:Hp;
    [discriminate|].
  intros _. right. exists n, T, f. auto.
Qed.

(** X16. Each error kind has one trigger.  When [parse] returns
    UnknownOption, MissingValue, InvalidValue or TooManyArgs, the scan
    reached, without error, a token for which: no declared option has its
    option name (UnknownOption); the matching option needs a value and the
    token has no inline value and is the last token (MissingValue); the
    value of the matching option, inline or taken from the next token, or
    the token itself for a positional slot, does not coerce
    (InvalidValue); the token is not an option, no positional slot is left
    and no variadic slot is declared (TooManyArgs).  MissingRequiredArg is
    returned only by the required-slot check, after the scan ended
    without error. *)
Theorem error_kind_triggers Options m_argv m0 result m_final :
  parse Options m_argv m0 = Some (result, m_final) ->
  isOk result = false ->
  exists s,
    scan Options m_argv (initial m0) s
    /\ let arg := argv_at m_argv (st_i s) in
       match error result with
       | PE_None => False
       | UnknownOption =>
           st_i s < argc_of m_argv
           /\ sv.starts_with "-"%char arg = true
           /\ first_match Options (optName_of arg) = None
       | MissingValue =>
           st_i s < argc_of m_argv
           /\ sv.starts_with "-"%char arg = true
           /\ inlineValue_of arg = None
           /\ argc_of m_argv <= st_i s + 1
           /\ exists m_name m_altName T m_field,
                first_match Options (optName_of arg)
                = Some (Option_ m_name m_altName T m_field)
                /\ needsValue T = true
       | InvalidValue =>
           st_i s < argc_of m_argv
           /\ ((sv.starts_with "-"%char arg = true
                /\ exists m_name m_altName T m_field value,
                     first_match Options (optName_of arg)
                     = Some (Option_ m_name m_altName T m_field)
                     /\ (inlineValue_of arg = Some value
                         \/ (inlineValue_of arg = None
                             /\ needsValue T = true
                             /\ st_i s + 1 < argc_of m_argv
                             /\ value = argv_at m_argv (st_i s + 1)))
                     /\ ValueParser_parse (unwrap_optional_t T) value = None)
               \/ (sv.starts_with "-"%char arg = false
                   /\ exists m_name T m_field,
                        nth_error (slots Options) (st_positionalIndex s)
                        = Some (Arg m_name T m_field)
                        /\ ValueParser_parse (unwrap_optional_t T) arg
                           = None))
       | TooManyArgs =>
           st_i s < argc_of m_argv
           /\ sv.starts_with "-"%char arg = false
           /\ (argumentCount Options <= st_positionalIndex s)%nat
           /\ hasVarArgs Options = false
       | MissingRequiredArg =>
           result = checkRequired Options (st_positionalIndex s)
           /\ (argc_of m_argv <= st_i s
               \/ exists varArgsStart,
                    parse_body Options m_argv (st_i s) (st_positionalIndex s)
                      (-1) (st_options s)
                    = BodyBreak varArgsStart (st_positionalIndex s)
                        (st_options s))
       end.
Proof.
  intros Hparse Hfail.
  destruct (parse_from_outcome Options m_argv (length m_argv) (initial m0)
              (result, m_final)) as (s & Hs & Hcase);
    [unfold argc_of; cbn; lia|cbn; lia|exact Hparse|].
  exists s. split; [exact Hs|]. cbv zeta.
  assert (Hcheck : forall count,
             result = checkRequired Options count ->
             error result = MissingRequiredArg).
  { intros count Hr. rewrite checkRequired_first_unmet in Hr.
    destruct (first_unmet Options O count) as [n|];
      [destruct (sv.empty n)|]; subst result; try discriminate Hfail.
    reflexivity. }
  destruct Hcase as [[Hle Hr]|[[Hlt (v & Hb & Hr)]|[Hlt (res & Hb & Hr)]]].
  - unfold parse_tail in Hr. injection Hr as Hr _.
    rewrite (Hcheck _ Hr). auto.
  - unfold parse_tail in Hr. injection Hr as Hr _.
    rewrite (Hcheck _ Hr). eauto.
  - injection Hr as -> _. clear Hcheck. revert Hb. unfold parse_body.
    destruct (String.eqb _ "--"); [discriminate|].
    destruct (sv.starts_with "-"%char (argv_at m_argv (st_i s))) eqn:Hdash.
    + pose proof (tryParseOption_failure Options m_argv
                    (argv_at m_argv (st_i s)) (st_i s) (st_options s))
        as Hres.
      cbv zeta in Hres.
      destruct (isOk (oc_result _)) eqn:Hok; cbn [negb]; [discriminate|].
      intros [= <- _].
      destruct (Hres eq_refl)
        as [[Hnone ->]
           |(n & a & T & f & Hfm & [(Hnv & Hinl & Hlast & ->)
                                   |(value & Hsrc & Hp & ->)])];
        cbn [error failure].
      * auto.
      * repeat split; auto. eauto 8.
      * split; [exact Hlt|]. left. split; [reflexivity|]. eauto 10.
    + pose proof (tryParsePositional_failure Options
                    (argv_at m_argv (st_i s)) (st_positionalIndex s)
                    (st_options s)) as Hres.
      cbv zeta in Hres.
      destruct (isOk (ac_result _)) eqn:Hok; [discriminate|].
      destruct (Hres eq_refl) as [[Hnone Hr]|(n & T & f & Hn & Hp & Hr)];
        rewrite Hr; cbn [error failure].
      * destruct (hasVarArgs Options) eqn:Hva; [discriminate|].
        intros [= <- _]. cbn [error].
        repeat split; auto.
        rewrite argumentCount_slots. now apply nth_error_None.
      * intros [= <- _]. cbn [error]. split; [exact Hlt|]. right.
        split; [reflexivity|]. eauto.
Qed.

(** ** The options struct as a list of assignments *)

Lemma tryParseOption_uniform Options m_argv arg i :
  (exists r index,
      isOk r = false
      /\ forall m, tryParseOption Options m_argv arg i m
                   = mkOptionCapture r index m)
  \/ (exists index f v,
         forall m, tryParseOption Options m_argv arg i m
                   = mkOptionCapture success index (<[f := v]> m)).
Proof.
  destruct (first_match Options (optName_of arg)) as [d|] eqn:Hfm.
  2:{ left. exists (failure UnknownOption (optName_of arg)), i.
      split; [reflexivity|]. intros m.
      rewrite tryParseOption_first_match. cbv zeta. now rewrite Hfm. }
  destruct (first_match_Some _ _ _ Hfm) as (n & a & T & f & -> & Hm).
  assert (Hrw : forall m,
             tryParseOption Options m_argv arg i m
             = snd (tryParseOption_func m_argv arg (optName_of arg)
                      (inlineValue_of arg) (Option_ n a T f)
                      (mkOptionCapture
                         (failure UnknownOption (optName_of arg)) i m))).
  { intros m. rewrite tryParseOption_first_match. cbv zeta.
    now rewrite Hfm. }
  unfold tryParseOption_func in Hrw. rewrite Hm in Hrw.
  cbn [negb oc_index oc_options] in Hrw.
  destruct (is_bool (unwrap_optional_t T)).
  - destruct (inlineValue_of arg) as [v|].
    + destruct (ValueParser_parse TBool v) as [parsed|].
      * right. eexists _, _, _. intros m. rewrite Hrw. reflexivity.
      * left. eexists _, _. split; [|intros m; rewrite Hrw; reflexivity].
        reflexivity.
    + right. eexists _, _, _. intros m. rewrite Hrw. reflexivity.
  - destruct (inlineValue_of arg) as [v|].
    + destruct (ValueParser_parse (unwrap_optional_t T) v) as [parsed|].
      * right. eexists _, _, _. intros m. rewrite Hrw. reflexivity.
      * left. eexists _, _. split; [|intros m; rewrite Hrw; reflexivity].
        reflexivity.
    + destruct (i + 1 <? argc_of m_argv).
      * destruct (ValueParser_parse (unwrap_optional_t T) _) as [parsed|].
        -- right. eexists _, _, _. intros m. rewrite Hrw. reflexivity.
        -- left. eexists _, _. split; [|intros m; rewrite Hrw; reflexivity].
           reflexivity.
      * left. eexists _, _. split; [|intros m; rewrite Hrw; reflexivity].
        reflexivity.
Qed.

Lemma tryParsePositional_uniform Options value targetIndex :
  (exists r,
      isOk r = false
      /\ forall m, tryParsePositional Options value targetIndex m
                   = mkArgCapture r m)
  \/ (exists f v,
         forall m, tryParsePositional Options value targetIndex m
                   = mkArgCapture success (<[f := v]> m)).
Proof.
  destruct (nth_error (slots Options) targetIndex) as [d|] eqn:Hn.
  2:{ left. exists (failure TooManyArgs value). split; [reflexivity|].
      intros m. rewrite tryParsePositional_slot. cbv zeta. now rewrite Hn. }
  destruct (slots_are_args _ _ _ Hn) as (n & T & f & ->).
  assert (Hrw : forall m,
             tryParsePositional Options value targetIndex m
             = snd (tryParsePositional_func value targetIndex (Arg n T f)
                      targetIndex
                      (mkArgCapture (failure TooManyArgs value) m))).
  { intros m. rewrite tryParsePositional_slot. cbv zeta. now rewrite Hn. }
  unfold tryParsePositional_func in Hrw. rewrite Nat.eqb_refl in Hrw.
  cbn [negb ac_options] in Hrw.
  destruct (ValueParser_parse (unwrap_optional_t T) value) as [parsed|].
  - right. eexists _, _. intros m. rewrite Hrw. reflexivity.
  - left. eexists. split; [|intros m; rewrite Hrw; reflexivity]. reflexivity.
Qed.

(** How a pass ends does not depend on the options struct, which it
    leaves alone or assigns one field of. *)
Lemma parse_body_uniform Options m_argv i positionalIndex varArgsStart :
  (exists i' positionalIndex' f v,
      forall m, parse_body Options m_argv i positionalIndex varArgsStart m
                = BodyEnd i' positionalIndex' (<[f := v]> m))
  \/ (exists varArgsStart' positionalIndex',
         forall m, parse_body Options m_argv i positionalIndex varArgsStart m
                   = BodyBreak varArgsStart' positionalIndex' m)
  \/ (exists r,
         forall m, parse_body Options m_argv i positionalIndex varArgsStart m
                   = BodyReturn r m).
Proof.
  unfold parse_body.
  destruct (String.eqb (argv_at m_argv i) "--").
  { right. left. eexists _, _. intros m. reflexivity. }
  destruct (sv.starts_with "-"%char (argv_at m_argv i)).
  - destruct (tryParseOption_uniform Options m_argv (argv_at m_argv i) i)
      as [(r & idx & Hr & H)|(idx & f & v & H)].
    + right. right. exists r. intros m. rewrite H. cbn. now rewrite Hr.
    + left. exists idx, positionalIndex, f, v. intros m. now rewrite H.
  - destruct (tryParsePositional_uniform Options (argv_at m_argv i)
                positionalIndex) as [(r & Hr & H)|(f & v & H)].
    + destruct (error r) eqn:He;
        try (right; right; exists r; intros m; rewrite H; cbn;
             rewrite Hr, He; reflexivity).
      destruct (hasVarArgs Options).
      * right. left. exists i, positionalIndex. intros m. rewrite H. cbn.
        now rewrite Hr, He.
      * right. right. exists r. intros m. rewrite H. cbn.
        now rewrite Hr, He.
    + left. exists i, (S positionalIndex), f, v. intros m. now rewrite H.
Qed.

Lemma parse_tail_uniform Options m_argv varArgsStart positionalIndex :
  exists r log,
    forall m, parse_tail Options m_argv varArgsStart positionalIndex m
              = (r, assign_all log m).
Proof.
  unfold parse_tail, setVarArgs.
  exists (checkRequired Options positionalIndex).
  destruct (0 <=? varArgsStart); [|exists []; reflexivity].
  destruct (hasVarArgs Options); [|exists []; reflexivity].
  destruct (nth_error Options (varArgsIndex Options)) as [[| |g]|];
    try (exists []; reflexivity).
  eexists [(g, _)]. reflexivity.
Qed.

Lemma parse_loop_uniform Options m_argv varArgsStart fuel :
  forall i positionalIndex,
    (exists r log,
        forall m,
          parse_loop fuel Options m_argv i positionalIndex varArgsStart m
          = Some (r, assign_all log m))
    \/ (forall m,
           parse_loop fuel Options m_argv i positionalIndex varArgsStart m
           = None).
Proof.
  induction fuel as [|fuel IH]; intros i pos; cbn [parse_loop];
    destruct (argc_of m_argv <=? i);
    try (left;
         destruct (parse_tail_uniform Options m_argv varArgsStart pos)
           as (r & log & H);
         exists r, log; intros m; now rewrite H).
  - right. reflexivity.
  - destruct (parse_body_uniform Options m_argv i pos varArgsStart)
      as [(i' & pos' & f & v & H)|[(v & pos' & H)|(r & H)]].
    + destruct (IH (i' + 1) pos') as [(r & log & Hloop)|Hnone].
      * left. exists r, ((f, v) :: log). intros m. rewrite H, Hloop.
        reflexivity.
      * right. intros m. now rewrite H, Hnone.
    + left.
      destruct (parse_tail_uniform Options m_argv v pos') as (r & log & Ht).
      exists r, log. intros m. now rewrite H, Ht.
    + left. exists r, []. intros m. now rewrite H.
Qed.

(** X17. The result of [parse] does not depend on what the options struct
    holds at the start, and the struct it leaves is the initial one
    overwritten by a list of assignments that the declarations and the
    tokens alone determine. *)
Theorem parse_is_a_list_of_assignments Options m_argv :
  exists result log,
    forall m0,
      parse Options m_argv m0 = Some (result, assign_all log m0).
Proof.
  destruct (parse_loop_uniform Options m_argv (-1) (length m_argv) 1 O)
    as [H|H]; [exact H|].
  destruct (parse_total Options m_argv ∅) as [r Hr].
  unfold parse in Hr. rewrite H in Hr. discriminate.
Qed.

Lemma assign_all_snoc log f v (m : gmap nat FieldVal) :
  assign_all (log ++ [(f, v)]) m = <[f := v]> (assign_all log m).
Proof. unfold assign_all. now rewrite fold_left_app. Qed.

Lemma insert_absorbs log :
  forall f v w (m : gmap nat FieldVal),
    <[f := v]> (assign_all log (<[f := w]> m))
    = <[f := v]> (assign_all log m).
Proof.
  induction log as [|[g u] log IH]; intros f v w m.
  - cbn. apply insert_insert_eq.
  - cbn [assign_all fold_left fst snd]. fold (assign_all log).
    destruct (decide (g = f)) as [->|Hne].
    + now rewrite insert_insert_eq.
    + rewrite (insert_insert_ne m g f) by exact Hne. apply IH.
Qed.

Lemma assign_all_idempotent log :
  forall m : gmap nat FieldVal,
    assign_all log (assign_all log m) = assign_all log m.
Proof.
  induction log as [|[f v] log IH] using rev_ind; intros m; [reflexivity|].
  rewrite !assign_all_snoc. rewrite insert_absorbs. now rewrite IH.
Qed.

(** X18. Running [parse] again on the struct that a first run left gives
    the same result and leaves the struct as it is. *)
Theorem parse_twice Options m_argv m0 result m_final :
  parse Options m_argv m0 = Some (result, m_final) ->
  parse Options m_argv m_final = Some (result, m_final).
Proof.
  destruct (parse_loop_uniform Options m_argv (-1) (length m_argv) 1 O)
    as [(r & log & H)|H]; unfold parse.
  - rewrite H. intros [= <- <-]. rewrite H.
    now rewrite assign_all_idempotent.
  - rewrite H. discriminate.
Qed.

End Slic.

(** * The parser at concrete inputs *)

Arguments VBool {F} b.
Arguments VStringView {F} s.
Arguments VInt {F} z.
Arguments VFloat {F} x.
Arguments FPlain {F} v.
Arguments FOptional {F} o.
Arguments FArgSpan {F} sp.

(** * Floating-point coercion *)

(** ** Runs of digits *)

Lemma substr_from_length s t : sv.substr_from (String.length s) (s +:+ t) = t.
Proof. induction s as [|a s IH]; [reflexivity|exact IH]. Qed.

Lemma append_empty_r s : s +:+ EmptyString = s.
Proof.
  induction s as [|a s IH]; [reflexivity|]. rewrite append_cons. now f_equal.
Qed.

Lemma append_assoc s t u : (s +:+ t) +:+ u = s +:+ (t +:+ u).
Proof.
  induction s as [|a s IH]; [reflexivity|]. rewrite !append_cons. now f_equal.
Qed.

Lemma substr_split n s : s = sv.substr_to n s +:+ sv.substr_from n s.
Proof.
  revert s. induction n as [|n IH]; intros [|a s]; try reflexivity.
  cbn [sv.substr_to sv.substr_from]. rewrite append_cons. f_equal. apply IH.
Qed.

Lemma all_digits_digits s :
  all_digits s = true <-> digits s = true /\ s <> EmptyString.
Proof.
  induction s as [|c s IH]; [simpl; intuition congruence|].
  rewrite all_digits_cons. cbn [digits]. destruct (is_digit c); cbn [andb].
  - destruct s as [|c' s]; [simpl; intuition congruence|].
    cbn [sv.empty orb]. rewrite IH. intuition congruence.
  - intuition congruence.
Qed.

Lemma decimal_value_app s t :
  decimal_value (s +:+ t)
  = decimal_value s * 10 ^ Z.of_nat (String.length t) + decimal_value t.
Proof.
  induction s as [|c s IH]; [reflexivity|].
  rewrite append_cons. cbn [decimal_value]. rewrite IH, str_length_app.
  rewrite Nat2Z.inj_add, Z.pow_add_r by lia. ring.
Qed.

(** A run of digits in front of something that is no digit is scanned
    entirely, and no further. *)
Lemma scan_digits_app ds rest n acc :
  digits ds = true ->
  (forall c r, rest = String c r -> is_digit c = false) ->
  scan_digits (ds +:+ rest) n acc
  = ((n + String.length ds)%nat,
     acc * 10 ^ Z.of_nat (String.length ds) + decimal_value ds).
Proof.
  intros Hd Hrest. revert n acc Hd.
  induction ds as [|c ds IH]; intros n acc Hd.
  - change (EmptyString +:+ rest) with rest.
    cbn [String.length decimal_value]. change (10 ^ Z.of_nat 0) with 1.
    rewrite Nat.add_0_r, Z.mul_1_r, Z.add_0_r.
    destruct rest as [|c r]; [reflexivity|].
    cbn [scan_digits]. now rewrite (Hrest c r eq_refl).
  - cbn [digits] in Hd. apply andb_true_iff in Hd as [Hc Hd].
    rewrite append_cons. cbn [scan_digits String.length decimal_value].
    rewrite Hc, (IH _ _ Hd). f_equal; [lia|].
    rewrite Nat2Z.inj_succ, Z.pow_succ_r by lia. ring.
Qed.

(** What [scan_digits] reads is the run of digits at the head. *)
Lemma scan_digits_split s n acc :
  exists ds rest,
    s = ds +:+ rest
    /\ digits ds = true
    /\ (forall c r, rest = String c r -> is_digit c = false)
    /\ scan_digits s n acc
       = ((n + String.length ds)%nat,
          acc * 10 ^ Z.of_nat (String.length ds) + decimal_value ds).
Proof.
  revert n acc. induction s as [|c s IH]; intros n acc.
  - exists EmptyString, EmptyString. repeat split; [discriminate|].
    simpl. f_equal; lia.
  - cbn [scan_digits]. destruct (is_digit c) eqn:Hc.
    + destruct (IH (S n) (10 * acc + digit_value c))
        as (ds & rest & -> & Hd & Hrest & ->).
      exists (String c ds), rest. rewrite append_cons.
      cbn [digits String.length decimal_value]. rewrite Hc, Hd.
      repeat split; [exact Hrest|]. f_equal; [lia|].
      rewrite Nat2Z.inj_succ, Z.pow_succ_r by lia. ring.
    + exists EmptyString, (String c s). repeat split.
      * intros c' r [= <- _]. exact Hc.
      * simpl. f_equal; lia.
Qed.

Lemma digit_is_no_sign c :
  is_digit c = true ->
  Ascii.eqb c "-" = false /\ Ascii.eqb c "+" = false
  /\ Ascii.eqb c "." = false.
Proof.
  intros H. repeat split;
    match goal with
    | |- Ascii.eqb c ?a = false =>
        destruct (Ascii.eqb_spec c a) as [->|]; [discriminate H|reflexivity]
    end.
Qed.

(** ** The exponent part *)

Lemma exponent_letter c t :
  c = "e"%char \/ c = "E"%char ->
  sv.starts_with "e" (String c t) || sv.starts_with "E" (String c t) = true.
Proof. intros [->| ->]; reflexivity. Qed.

Lemma digits_unsigned ds :
  all_digits ds = true ->
  sv.starts_with "-" ds = false /\ sv.starts_with "+" ds = false
  /\ sv.starts_with "." ds = false.
Proof.
  destruct ds as [|d ds]; [discriminate|]. rewrite all_digits_cons.
  intros Hd. apply andb_true_iff in Hd as [Hd _].
  exact (digit_is_no_sign _ Hd).
Qed.

Lemma scan_exponent_whole es e :
  exponent es e -> scan_exponent es = (String.length es, e).
Proof.
  intros [|c ds Hc Hd|c ds Hc Hd|c ds Hc Hd]; [reflexivity| | |];
    unfold scan_exponent; rewrite (exponent_letter _ _ Hc);
    cbn [sv.substr_from];
    destruct (scan_digits_whole _ Hd) as [Hscan Hne].
  - destruct (digits_unsigned _ Hd) as (-> & -> & _). cbn [orb].
    rewrite Hscan. cbn [String.length].
    destruct (String.length ds); [congruence|reflexivity].
  - change (sv.starts_with "-" (String "+" ds)) with false.
    change (sv.starts_with "+" (String "+" ds)) with true.
    cbn [orb sv.substr_from]. rewrite Hscan. cbn [String.length].
    destruct (String.length ds); [congruence|reflexivity].
  - change (sv.starts_with "-" (String "-" ds)) with true.
    cbn [orb sv.substr_from]. rewrite Hscan. cbn [String.length].
    destruct (String.length ds); [congruence|reflexivity].
Qed.

(** What [scan_exponent] reads is an exponent part at the head, or
    nothing. *)
Lemma scan_exponent_split s n x :
  scan_exponent s = (n, x) ->
  exists es rest,
    s = es +:+ rest /\ String.length es = n /\ exponent es x.
Proof.
  assert (Hnone : exists es rest,
             s = es +:+ rest /\ String.length es = O /\ exponent es 0).
  { exists EmptyString, s. repeat split. constructor. }
  unfold scan_exponent.
  destruct (sv.starts_with "e" s || sv.starts_with "E" s) eqn:He;
    [|intros [= <- <-]; exact Hnone].
  destruct s as [|c s1]; [discriminate|].
  assert (Hc : c = "e"%char \/ c = "E"%char).
  { cbn [sv.starts_with] in He. apply orb_true_iff in He as [He|He];
      apply Ascii.eqb_eq in He; auto. }
  cbn [sv.substr_from].
  destruct (sv.starts_with "-" s1) eqn:Hminus; cbn [orb].
  - destruct s1 as [|sg s2]; [discriminate|].
    apply Ascii.eqb_eq in Hminus. subst sg. cbn [sv.substr_from].
    destruct (scan_digits_split s2 O 0) as (ds & rest & -> & Hd & _ & ->).
    destruct ds as [|d ds]; cbn [String.length Nat.add];
      [intros [= <- <-]; exact Hnone|].
    intros [= <- <-]. exists (String c (String "-" (String d ds))), rest.
    split; [reflexivity|]. split; [reflexivity|].
    rewrite Z.mul_0_l, Z.add_0_l. apply exponent_minus; [exact Hc|].
    apply all_digits_digits. split; [exact Hd|discriminate].
  - destruct (sv.starts_with "+" s1) eqn:Hplus.
    + destruct s1 as [|sg s2]; [discriminate|].
      apply Ascii.eqb_eq in Hplus. subst sg. cbn [sv.substr_from].
      destruct (scan_digits_split s2 O 0) as (ds & rest & -> & Hd & _ & ->).
      destruct ds as [|d ds]; cbn [String.length Nat.add];
        [intros [= <- <-]; exact Hnone|].
      intros [= <- <-]. exists (String c (String "+" (String d ds))), rest.
      split; [reflexivity|]. split; [reflexivity|].
      rewrite Z.mul_0_l, Z.add_0_l. apply exponent_plus; [exact Hc|].
      apply all_digits_digits. split; [exact Hd|discriminate].
    + destruct (scan_digits_split s1 O 0) as (ds & rest & -> & Hd & _ & ->).
      destruct ds as [|d ds]; cbn [String.length Nat.add];
        [intros [= <- <-]; exact Hnone|].
      intros [= <- <-]. exists (String c (String d ds)), rest.
      split; [reflexivity|]. split; [reflexivity|].
      rewrite Z.mul_0_l, Z.add_0_l. apply exponent_unsigned; [exact Hc|].
      apply all_digits_digits. split; [exact Hd|discriminate].
Qed.

(** ** The decimal form *)

Lemma nat_case_pos {A : Type} (n : nat) (x y : A) :
  (0 < n)%nat -> match n with O => x | S _ => y end = y.
Proof. destruct n; [lia|reflexivity]. Qed.

Lemma scan_digits_app0 ds rest acc :
  digits ds = true ->
  (forall c r, rest = String c r -> is_digit c = false) ->
  scan_digits (ds +:+ rest) O acc
  = (String.length ds,
     acc * 10 ^ Z.of_nat (String.length ds) + decimal_value ds).
Proof. intros Hd Hr. now rewrite scan_digits_app. Qed.

Lemma exponent_head es e :
  exponent es e ->
  sv.starts_with "." es = false
  /\ forall c r, es = String c r -> is_digit c = false.
Proof.
  intros [|c ds Hc _|c ds Hc _|c ds Hc _]; (split; [|intros c' r [=]]);
    try reflexivity; subst; destruct Hc as [->| ->]; reflexivity.
Qed.

(** A mantissa followed by an exponent part, or by nothing, is scanned
    entirely. *)
Lemma scan_decimal_whole ms es m k e :
  mantissa ms m k -> exponent es e ->
  scan_decimal (ms +:+ es)
  = (String.length (ms +:+ es), m, e - Z.of_nat k).
Proof.
  intros Hm He. destruct (exponent_head _ _ He) as [Hpoint Hhead].
  unfold scan_decimal. destruct Hm as [ds Hd|ip fp Hip Hfp Hlen].
  - apply all_digits_digits in Hd as [Hd Hne].
    rewrite (scan_digits_app0 _ _ _ Hd Hhead), substr_from_length, Hpoint.
    rewrite Nat.add_0_r, nat_case_pos
      by (destruct ds; [congruence|cbn; lia]).
    rewrite Nat.add_0_r, substr_from_length, (scan_exponent_whole _ _ He).
    rewrite str_length_app. reflexivity.
  - rewrite append_assoc, append_cons.
    rewrite (scan_digits_app0 ip (String "." (fp +:+ es)) 0 Hip)
      by (intros c r [= <- _]; reflexivity).
    rewrite substr_from_length.
    change (sv.starts_with "." (String "." (fp +:+ es))) with true.
    cbn [sv.substr_from].
    rewrite (scan_digits_app0 _ _ _ Hfp Hhead).
    rewrite nat_case_pos by exact Hlen.
    replace (String.length ip + 1 + String.length fp)%nat
      with (String.length (ip +:+ String "." fp))
      by (rewrite str_length_app; cbn [String.length]; lia).
    rewrite <- append_cons, <- append_assoc, substr_from_length.
    rewrite (scan_exponent_whole _ _ He), <- str_length_app.
    rewrite decimal_value_app. reflexivity.
Qed.

(** What [scan_decimal] reads is a mantissa at the head, with the
    exponent part that follows it, if any. *)
Lemma scan_decimal_split body n m e :
  scan_decimal body = (n, m, e) -> (0 < n)%nat ->
  exists ms es rest k e',
    body = (ms +:+ es) +:+ rest
    /\ String.length (ms +:+ es) = n
    /\ mantissa ms m k /\ exponent es e' /\ e = e' - Z.of_nat k.
Proof.
  unfold scan_decimal.
  destruct (scan_digits_split body O 0) as (ip & r1 & -> & Hip & Hr1 & ->).
  cbn [Nat.add]. rewrite substr_from_length.
  destruct (sv.starts_with "." r1) eqn:Hpoint.
  - destruct r1 as [|c r1]; [discriminate|].
    apply Ascii.eqb_eq in Hpoint. subst c. cbn [sv.substr_from].
    destruct (scan_digits_split r1 O (0 * 10 ^ Z.of_nat (String.length ip)
                                      + decimal_value ip))
      as (fp & r2 & -> & Hfp & Hr2 & ->).
    cbn [Nat.add].
    destruct (String.length ip + String.length fp)%nat eqn:Hlen;
      [intros [= <- _ _]; lia|].
    replace (String.length ip + 1 + String.length fp)%nat
      with (String.length (ip +:+ String "." fp))
      by (rewrite str_length_app; cbn [String.length]; lia).
    replace (ip +:+ String "." (fp +:+ r2))
      with ((ip +:+ String "." fp) +:+ r2)
      by (now rewrite append_assoc, append_cons).
    rewrite substr_from_length.
    destruct (scan_exponent r2) as [n3 x] eqn:Hexp.
    destruct (scan_exponent_split _ _ _ Hexp) as (es & rest & -> & <- & He).
    intros [= <- <- <-] _.
    exists (ip +:+ String "." fp), es, rest, (String.length fp), x.
    split; [symmetry; apply append_assoc|].
    split; [now rewrite str_length_app|].
    split; [|split; [exact He|reflexivity]].
    rewrite Z.mul_0_l, Z.add_0_l, <- decimal_value_app.
    apply mantissa_point; [exact Hip|exact Hfp|lia].
  - rewrite Nat.add_0_r.
    destruct (String.length ip) eqn:Hlen; [intros [= <- _ _]; lia|].
    rewrite Nat.add_0_r, <- Hlen, substr_from_length.
    destruct (scan_exponent r1) as [n3 x] eqn:Hexp.
    destruct (scan_exponent_split _ _ _ Hexp) as (es & rest & -> & <- & He).
    intros [= <- <- <-] _.
    exists ip, es, rest, O, x.
    split; [symmetry; apply append_assoc|].
    split; [now rewrite str_length_app|].
    split; [|split; [exact He|reflexivity]].
    rewrite Z.mul_0_l, Z.add_0_l. apply mantissa_integer.
    apply all_digits_digits. split; [exact Hip|].
    intros ->. discriminate Hlen.
Qed.

(** ** Infinities and NaNs *)

Lemma lower_length s : String.length (lower s) = String.length s.
Proof. induction s as [|c s IH]; [reflexivity|]. cbn. now rewrite IH. Qed.

Lemma substr_to_all n s :
  (String.length s <= n)%nat -> sv.substr_to n s = s.
Proof.
  revert n. induction s as [|c s IH]; intros [|n] H; try reflexivity.
  - cbn in H. lia.
  - cbn [sv.substr_to]. rewrite IH; [reflexivity|cbn in H; lia].
Qed.

Lemma substr_to_app_add s t k :
  sv.substr_to (String.length s + k) (s +:+ t) = s +:+ sv.substr_to k t.
Proof.
  induction s as [|c s IH]; [reflexivity|].
  rewrite !append_cons. cbn [String.length Nat.add sv.substr_to].
  now rewrite IH.
Qed.

Lemma lower_app s t : lower (s +:+ t) = lower s +:+ lower t.
Proof.
  induction s as [|c s IH]; [reflexivity|].
  rewrite append_cons. cbn [lower]. rewrite append_cons. now rewrite IH.
Qed.

(** A character that is a letter once put in lower case is no digit, no
    decimal point and no minus sign. *)
Lemma letter_head c :
  is_alpha (to_lower c) = true ->
  is_digit c = false /\ Ascii.eqb c "." = false /\ Ascii.eqb c "-" = false.
Proof.
  destruct c as [[] [] [] [] [] [] [] []]; vm_compute; intros H;
    repeat split; congruence.
Qed.

Lemma scan_decimal_none c r :
  is_digit c = false -> Ascii.eqb c "." = false ->
  scan_decimal (String c r) = (O, 0, 0).
Proof.
  intros Hd Hp. unfold scan_decimal. cbn [scan_digits]. rewrite Hd.
  cbn [sv.substr_from sv.starts_with]. rewrite Hp. reflexivity.
Qed.

(** A word of letters is not of the decimal form. *)
Lemma scan_decimal_word s t a w :
  lower s = String a w -> is_alpha a = true ->
  scan_decimal (s +:+ t) = (O, 0, 0)
  /\ sv.starts_with "-" (s +:+ t) = false.
Proof.
  destruct s as [|c s]; [discriminate|]. intros [= Hc _] Ha.
  rewrite <- Hc in Ha. destruct (letter_head _ Ha) as (Hd & Hp & Hm).
  rewrite append_cons. split; [now apply scan_decimal_none|exact Hm].
Qed.

Lemma scan_nchars_app cs rest :
  nchars cs = true ->
  (forall c r, rest = String c r -> is_nchar c = false) ->
  scan_nchars (cs +:+ rest) = String.length cs.
Proof.
  intros Hcs Hrest. induction cs as [|c cs IH].
  - destruct rest as [|c r]; [reflexivity|].
    change (EmptyString +:+ String c r) with (String c r).
    cbn [scan_nchars]. now rewrite (Hrest c r eq_refl).
  - cbn [nchars] in Hcs. apply andb_true_iff in Hcs as [Hc Hcs].
    rewrite append_cons. cbn [scan_nchars String.length].
    now rewrite Hc, (IH Hcs).
Qed.

Lemma scan_nchars_split s :
  exists cs rest,
    s = cs +:+ rest /\ nchars cs = true /\ scan_nchars s = String.length cs.
Proof.
  induction s as [|c s (cs & rest & -> & Hcs & IH)].
  - exists EmptyString, EmptyString. auto.
  - cbn [scan_nchars]. destruct (is_nchar c) eqn:Hc.
    + exists (String c cs), rest. rewrite append_cons. cbn [nchars].
      rewrite Hc, Hcs, IH. auto.
    + exists EmptyString, (String c (cs +:+ rest)). auto.
Qed.

(** ** The pattern *)

Lemma mantissa_head ms m k t :
  mantissa ms m k ->
  (0 < String.length ms)%nat /\ sv.starts_with "-" (ms +:+ t) = false.
Proof.
  intros [ds Hd|ip fp Hip Hfp Hlen].
  - destruct (digits_unsigned _ Hd) as (Hm & _).
    destruct ds as [|d ds]; [discriminate|]. split; [cbn; lia|exact Hm].
  - split; [rewrite str_length_app; cbn [String.length]; lia|].
    destruct ip as [|d ip]; [reflexivity|].
    cbn [digits] in Hip. apply andb_true_iff in Hip as [Hd _].
    now destruct (digit_is_no_sign _ Hd) as (Hm & _).
Qed.

(** A string of the form of a number is matched entirely, and it does
    not start with a minus sign. *)
Lemma match_float_whole neg body lit :
  float_body neg body lit ->
  match_float neg body = (String.length body, lit)
  /\ (0 < String.length body)%nat
  /\ sv.starts_with "-" body = false.
Proof.
  intros [ms es m k e Hm He|s Hs|s Hs|s cs Hs Hcs]; unfold match_float.
  - rewrite (scan_decimal_whole _ _ _ _ _ Hm He).
    destruct (mantissa_head _ _ _ es Hm) as [Hpos Hminus].
    assert (Hlen : (0 < String.length (ms +:+ es))%nat)
      by (rewrite str_length_app; lia).
    split; [|split; [exact Hlen|exact Hminus]].
    destruct (String.length (ms +:+ es)); [lia|reflexivity].
  - assert (Hword : scan_decimal (s +:+ EmptyString) = (O, 0, 0)
                    /\ sv.starts_with "-" (s +:+ EmptyString) = false)
      by (destruct Hs as [Hs|Hs];
          eapply scan_decimal_word; try exact Hs; reflexivity).
    rewrite append_empty_r in Hword. destruct Hword as [-> Hminus].
    pose proof (lower_length s) as Hlen. unfold starts_with_nocase.
    cbn [String.length].
    destruct Hs as [Hs|Hs]; rewrite Hs in Hlen; cbn in Hlen.
    + rewrite !substr_to_all by lia. rewrite Hs, <- Hlen.
      repeat split; [lia|exact Hminus].
    + rewrite !substr_to_all by lia. rewrite Hs, <- Hlen.
      repeat split; [lia|exact Hminus].
  - destruct (scan_decimal_word s EmptyString "n" "an" Hs eq_refl)
      as [Hdec Hminus].
    rewrite append_empty_r in Hdec, Hminus. rewrite Hdec.
    pose proof (lower_length s) as Hlen. rewrite Hs in Hlen. cbn in Hlen.
    assert (Hrest : sv.substr_from 3 s = EmptyString).
    { rewrite Hlen. rewrite <- (append_empty_r s) at 2.
      apply substr_from_length. }
    unfold starts_with_nocase. cbn [String.length].
    rewrite !substr_to_all by lia. rewrite Hs, Hrest, <- Hlen.
    repeat split; [lia|exact Hminus].
  - destruct (scan_decimal_word s (String "(" (cs +:+ ")")) "n" "an" Hs
                eq_refl) as [-> Hminus].
    pose proof (lower_length s) as Hlen. rewrite Hs in Hlen. cbn in Hlen.
    assert (H8 : forall t, sv.substr_to 8 (s +:+ t) = s +:+ sv.substr_to 5 t).
    { intros t. change 8%nat with (3 + 5)%nat. rewrite Hlen.
      apply substr_to_app_add. }
    assert (H3 : forall t, sv.substr_to 3 (s +:+ t) = s)
      by (intros t; rewrite Hlen; apply substr_to_app).
    assert (Hrest : forall t, sv.substr_from 3 (s +:+ t) = t)
      by (intros t; rewrite Hlen; apply substr_from_length).
    unfold starts_with_nocase. cbn [String.length].
    rewrite H8, H3, Hrest, lower_app, Hs.
    change (String.eqb ("nan" +:+ _) "infinity") with false.
    change (String.eqb "nan" "inf") with false.
    change (String.eqb "nan" "nan") with true. cbv iota.
    unfold scan_nan_sequence.
    change (sv.starts_with "(" (String "(" (cs +:+ ")"))) with true.
    cbn [sv.substr_from].
    rewrite (scan_nchars_app cs ")" Hcs)
      by (intros c r [= <- _]; reflexivity).
    rewrite substr_from_length.
    change (sv.starts_with ")" ")") with true. cbv iota.
    rewrite str_length_app. cbn [String.length].
    rewrite str_length_app. cbn [String.length].
    repeat split; [f_equal; lia|lia|exact Hminus].
Qed.

Lemma starts_with_nocase_split word s :
  starts_with_nocase word s = true ->
  exists pre rest,
    s = pre +:+ rest /\ lower pre = word
    /\ String.length pre = String.length word.
Proof.
  unfold starts_with_nocase. intros H. apply String.eqb_eq in H.
  exists (sv.substr_to (String.length word) s),
         (sv.substr_from (String.length word) s).
  split; [apply substr_split|]. split; [exact H|].
  now rewrite <- (lower_length (sv.substr_to _ s)), H.
Qed.

(** What [match_float] reads is a number at the head. *)
Lemma match_float_split neg body n lit :
  match_float neg body = (n, lit) -> (0 < n)%nat ->
  exists pre rest,
    body = pre +:+ rest /\ String.length pre = n /\ float_body neg pre lit.
Proof.
  unfold match_float.
  destruct (scan_decimal body) as [[n0 m] e] eqn:Hdec.
  destruct n0 as [|n0].
  - clear Hdec.
    destruct (starts_with_nocase "infinity" body) eqn:H8.
    { destruct (starts_with_nocase_split _ _ H8)
        as (pre & rest & -> & Hpre & Hlen).
      intros [= <- <-] _. exists pre, rest.
      repeat split; [exact Hlen|]. apply body_infinity. now right. }
    destruct (starts_with_nocase "inf" body) eqn:H3.
    { destruct (starts_with_nocase_split _ _ H3)
        as (pre & rest & -> & Hpre & Hlen).
      intros [= <- <-] _. exists pre, rest.
      repeat split; [exact Hlen|]. apply body_infinity. now left. }
    destruct (starts_with_nocase "nan" body) eqn:Hnan;
      [|intros [= <- _]; lia].
    destruct (starts_with_nocase_split _ _ Hnan)
      as (pre & rest & -> & Hpre & Hlen).
    cbn [String.length] in Hlen.
    replace (sv.substr_from 3 (pre +:+ rest)) with rest
      by (rewrite <- Hlen; symmetry; apply substr_from_length).
    intros [= <- <-] _.
    assert (Hplain : exists pre0 rest0,
               pre +:+ rest = pre0 +:+ rest0
               /\ String.length pre0 = (3 + 0)%nat
               /\ float_body neg pre0 (LitNaN neg)).
    { exists pre, rest. repeat split; [exact Hlen|]. now apply body_nan. }
    unfold scan_nan_sequence.
    destruct (sv.starts_with "(" rest) eqn:Hopen; [|exact Hplain].
    destruct rest as [|c rest]; [discriminate|].
    apply Ascii.eqb_eq in Hopen. subst c. cbn [sv.substr_from].
    destruct (scan_nchars_split rest) as (cs & rest' & -> & Hcs & ->).
    rewrite substr_from_length.
    destruct (sv.starts_with ")" rest') eqn:Hclose; [|exact Hplain].
    destruct rest' as [|c rest']; [discriminate|].
    apply Ascii.eqb_eq in Hclose. subst c.
    exists (pre +:+ String "(" (cs +:+ ")")), rest'.
    split; [|split].
    + rewrite append_assoc, append_cons, append_assoc. reflexivity.
    + rewrite str_length_app. cbn [String.length].
      rewrite str_length_app. cbn [String.length]. lia.
    + now apply body_nan_sequence.
  - intros [= <- <-] Hpos.
    destruct (scan_decimal_split _ _ _ _ Hdec Hpos)
      as (ms & es & rest & k & e' & -> & Hlen & Hm & He & ->).
    exists (ms +:+ es), rest. repeat split; [exact Hlen|].
    now apply body_decimal.
Qed.

(** When [from_chars] reports no error at the end of the token, the
    whole token is read by the floating-point grammar and the number it
    denotes is in the range of the type. *)
Lemma from_chars_floating_ok k input value x :
  from_chars_floating k input value
  = (mk_from_chars_result (String.length input) errc_ok, x) ->
  exists lit, float_literal input lit /\ parsed_value k lit = Some x.
Proof.
  unfold from_chars_floating, float_literal.
  destruct (sv.starts_with "-" input) eqn:Hminus.
  - destruct input as [|c body]; [discriminate|].
    apply Ascii.eqb_eq in Hminus. subst c. cbn [sv.substr_from].
    destruct (match_float true body) as [n lit] eqn:Hmatch.
    destruct n as [|n]; [discriminate|].
    destruct (parsed_value k lit) as [y|] eqn:Hval; [|discriminate].
    intros [= Hp <-]. cbn [String.length] in Hp.
    destruct (match_float_split _ _ _ _ Hmatch)
      as (pre & rest & -> & Hlen & Hbody); [lia|].
    rewrite str_length_app in Hp.
    destruct rest; [|cbn [String.length] in Hp; lia].
    rewrite append_empty_r. exists lit. split; [|exact Hval].
    right. eauto.
  - destruct (match_float false input) as [n lit] eqn:Hmatch.
    destruct n as [|n]; [discriminate|].
    destruct (parsed_value k lit) as [y|] eqn:Hval; [|discriminate].
    intros [= Hp <-].
    destruct (match_float_split _ _ _ _ Hmatch)
      as (pre & rest & -> & Hlen & Hbody); [lia|].
    rewrite str_length_app in Hp.
    destruct rest; [|cbn [String.length] in Hp; lia].
    rewrite append_empty_r. exists lit. split; [|exact Hval].
    now left.
Qed.

(** A token that the floating-point grammar reads entirely and that
    denotes a number in the range of the type is read entirely by
    [from_chars], without error. *)
Lemma from_chars_floating_literal k input value lit x :
  float_literal input lit -> parsed_value k lit = Some x ->
  from_chars_floating k input value
  = (mk_from_chars_result (String.length input) errc_ok, x).
Proof.
  unfold from_chars_floating.
  intros [Hbody|(body & -> & Hbody)] Hval;
    destruct (match_float_whole _ _ _ Hbody) as (Hmatch & Hpos & Hminus).
  - rewrite Hminus, Hmatch, Hval.
    destruct (String.length input); [lia|reflexivity].
  - change (sv.starts_with "-" (String "-" body)) with true.
    cbn [sv.substr_from String.length]. rewrite Hmatch, Hval.
    destruct (String.length body); [lia|reflexivity].
Qed.

(** Floating-point coercion is the floating-point grammar on the whole
    token followed by the range check of the target type. *)
Lemma ValueParser_floating k input v :
  ValueParser_parse spec_float from_chars_floating float_zero
    (TFloating k) input = Some v
  <-> exists lit x,
        float_literal input lit
        /\ parsed_value k lit = Some x
        /\ v = VFloat x.
Proof.
  unfold ValueParser_parse. split.
  - destruct (from_chars_floating k input float_zero) as [[p e] x] eqn:H.
    cbn [ec ptr]. destruct e; try discriminate.
    destruct (Nat.eqb_spec p (String.length input)) as [->|];
      [|discriminate].
    intros [= <-]. destruct (from_chars_floating_ok _ _ _ _ H) as (lit & Hl).
    exists lit, x. tauto.
  - intros (lit & x & Hlit & Hval & ->).
    rewrite (from_chars_floating_literal _ _ float_zero _ _ Hlit Hval).
    cbn [ec ptr]. now rewrite Nat.eqb_refl.
Qed.

(** ** Rounding *)

Lemma digits2_pos_bound m : Zpos m < 2 ^ Zpos (digits2_pos m).
Proof.
  induction m as [m IH|m IH|]; cbn [digits2_pos];
    try rewrite Pos2Z.inj_succ, Z.pow_succ_r by lia; lia.
Qed.

(** A finite value of a format has an exponent not below the least one
    and a mantissa of at most [prec] bits. *)
Lemma valid_binary_bounds prec emax s m e :
  valid_binary prec emax (S754_finite s m e) = true ->
  emin prec emax <= e /\ Zpos m < 2 ^ prec.
Proof.
  unfold valid_binary, bounded, canonical_mantissa, fexp.
  intros H. apply andb_true_iff in H as [H _]. apply Z.eqb_eq in H.
  pose proof (digits2_pos_bound m) as Hm.
  assert (Hd : Zpos (digits2_pos m) <= prec) by lia.
  split; [lia|].
  apply (Z.lt_le_trans _ _ _ Hm), Z.pow_le_mono_r; lia.
Qed.

(** The positive value [m * 2^e] is nearest to [num / den] when it lies
    within half a unit in the last place of it and [num / den] is not
    below the binade of the exponent [e]. *)
Lemma nearest_within_half_ulp prec emax num den m e :
  0 < prec -> 0 < den -> e <= 0 -> emin prec emax <= e ->
  2 * Z.abs (den * Zpos m - num * 2 ^ (- e)) <= den ->
  den * 2 ^ prec <= 2 * (num * 2 ^ (- e)) ->
  forall y,
    valid_binary prec emax y = true -> is_finite y = true ->
    Z.abs (den * scaled_value (- emin prec emax) (S754_finite false m e)
           - num * 2 ^ (- emin prec emax))
    <= Z.abs (den * scaled_value (- emin prec emax) y
              - num * 2 ^ (- emin prec emax)).
Proof.
  intros Hprec Hden He Hemin Hhalf Hbinade y Hvalid Hfin.
  set (K := - emin prec emax) in *.
  set (N := num * 2 ^ (- e)) in *.
  set (P := 2 ^ (e + K)).
  assert (HP : 0 < P) by (apply Z.pow_pos_nonneg; lia).
  assert (HK : num * 2 ^ K = N * P).
  { unfold N, P. rewrite <- Z.mul_assoc, <- Z.pow_add_r by lia.
    do 2 f_equal. lia. }
  assert (Hx : Z.abs (den * scaled_value K (S754_finite false m e)
                      - num * 2 ^ K)
               = Z.abs (den * Zpos m - N) * P).
  { cbn [scaled_value]. fold P. rewrite HK.
    replace (den * (Zpos m * P) - N * P) with ((den * Zpos m - N) * P)
      by ring.
    rewrite Z.abs_mul, (Z.abs_eq P) by lia. reflexivity. }
  rewrite Hx.
  assert (Hmultiple : forall j,
             Z.abs (den * Zpos m - N) * P <= Z.abs (den * (j * P) - N * P)).
  { intros j.
    replace (den * (j * P) - N * P) with ((den * j - N) * P) by ring.
    rewrite Z.abs_mul, (Z.abs_eq P) by lia.
    apply Z.mul_le_mono_nonneg_r; [lia|].
    destruct (Z.lt_trichotomy j (Zpos m)) as [Hj|[->|Hj]]; [|lia|].
    - assert (den * j <= den * Zpos m - den) by nia. lia.
    - assert (den * Zpos m + den <= den * j) by nia. lia. }
  destruct y as [s'| | |s' m' e']; try discriminate Hfin.
  - cbn [scaled_value]. rewrite HK.
    replace 0 with (0 * P) at 1 by ring. apply Hmultiple.
  - destruct (valid_binary_bounds _ _ _ _ _ Hvalid) as [Hemin' Hm'].
    cbn [scaled_value]. rewrite HK.
    destruct (Z_le_gt_dec e e') as [Hle|Hgt].
    + replace (2 ^ (e' + K)) with (2 ^ (e' - e) * P)
        by (unfold P; rewrite <- Z.pow_add_r by lia; f_equal; lia).
      rewrite (Z.mul_assoc _ (2 ^ (e' - e)) P). apply Hmultiple.
    + set (Ph := 2 ^ (e - 1 + K)).
      assert (HPh : 0 < Ph) by (apply Z.pow_pos_nonneg; lia).
      assert (HP2 : P = 2 * Ph).
      { unfold P, Ph. rewrite <- Z.pow_succ_r by lia. f_equal. lia. }
      assert (Hq : 0 < 2 ^ (e' + K) <= Ph).
      { split; [apply Z.pow_pos_nonneg; lia|].
        apply Z.pow_le_mono_r; lia. }
      set (q := 2 ^ (e' + K)) in *.
      assert (Hy : (if s' then - Zpos m' else Zpos m') * q
                   <= (2 ^ prec - 1) * Ph).
      { destruct s'; [nia|].
        apply Z.mul_le_mono_nonneg; lia. }
      set (vy := (if s' then - Zpos m' else Zpos m') * q) in *.
      assert (Hfar : den * Ph <= N * P - den * vy) by nia.
      rewrite (Z.abs_neq (den * vy - N * P)) by lia.
      assert (Z.abs (den * Zpos m - N) * P <= den * Ph) by nia.
      lia.
Qed.

Import Tests.

Local Abbreviation parse0 := (parse spec_float from_chars_floating float_zero).
Local Abbreviation scan0 := (scan spec_float from_chars_floating float_zero).
Local Abbreviation coerce0 :=
  (ValueParser_parse spec_float from_chars_floating float_zero).
Local Abbreviation fields := (gmap nat (FieldVal spec_float)).

(** ** Cases of [tests/tests.cpp] *)

Example test_EmptyArgs : parse0 BoolOptions ["program"] ∅ = Some (success, ∅).
Proof. reflexivity. Qed.

Example test_MultipleBoolOptions :
  parse0 BoolOptions ["program"; "-a"; "-b"] ∅
  = Some (success,
          <[1%nat := FPlain (VBool true)]>
            (<[0%nat := FPlain (VBool true)]> ∅)).
Proof. reflexivity. Qed.

Example test_WithValueFalse :
  parse0 BoolOptions ["program"; "--flag1=false"] ∅
  = Some (success, <[0%nat := FPlain (VBool false)]> ∅).
Proof. reflexivity. Qed.

Example test_OptionalBoolOption :
  parse0 BoolOptions ["program"; "--opt-flag=true"] ∅
  = Some (success, <[2%nat := FOptional (Some (VBool true))]> ∅).
Proof. reflexivity. Qed.

Example test_NegativeInt :
  parse0 NumericOptions ["program"; "--int=-50"] ∅
  = Some (success, <[0%nat := FPlain (VInt (-50))]> ∅).
Proof. reflexivity. Qed.

Example test_LongValue :
  parse0 NumericOptions ["program"; "--long"; "9999999999"] ∅
  = Some (success, <[1%nat := FPlain (VInt 9999999999)]> ∅).
Proof. reflexivity. Qed.

Example test_UnsignedInt :
  parse0 NumericOptions ["program"; "--uint"; "4294967295"] ∅
  = Some (success, <[2%nat := FPlain (VInt 4294967295)]> ∅).
Proof. reflexivity. Qed.

Example test_FloatValue :
  parse0 NumericOptions ["program"; "--float"; "3.14"] ∅
  = Some (success,
          <[3%nat := FPlain (VFloat (S754_finite false 13170115 (-22)))]> ∅).
Proof. reflexivity. Qed.

Example test_DoubleValue :
  parse0 NumericOptions ["program"; "--double"; "3.14159265359"] ∅
  = Some (success,
          <[4%nat := FPlain (VFloat (S754_finite false 7074237752028906
                                      (-51)))]> ∅).
Proof. reflexivity. Qed.

Example test_OptionWithValueThenPositional :
  parse0 SimpleOptions ["program"; "-c"; "5"; "myname"] ∅
  = Some (success,
          <[2%nat := FPlain (VStringView "myname")]>
            (<[1%nat := FPlain (VInt 5)]> ∅)).
Proof. reflexivity. Qed.

Example test_WithOptionAfter :
  parse0 SimpleOptions ["program"; "myname"; "-v"] ∅
  = Some (success,
          <[0%nat := FPlain (VBool true)]>
            (<[2%nat := FPlain (VStringView "myname")]> ∅)).
Proof. reflexivity. Qed.

Example test_OptionalMissing :
  parse0 OptionalArgOptions ["program"; "required_val"] ∅
  = Some (success, <[0%nat := FPlain (VStringView "required_val")]> ∅).
Proof. reflexivity. Qed.

Example test_VarArgs_Basic :
  exists m : fields,
    parse0 VarArgsOptions ["program"; "cmd"; "arg1"; "arg2"; "arg3"] ∅
    = Some (success, m)
    /\ m !! 0%nat = Some (FPlain (VStringView "cmd"))
    /\ exists sp,
         m !! 1%nat = Some (FArgSpan sp)
         /\ ArgSpan_tokens ["program"; "cmd"; "arg1"; "arg2"; "arg3"] sp
            = ["arg1"; "arg2"; "arg3"].
Proof.
  eexists. split; [reflexivity|]. split; [reflexivity|].
  eexists. split; reflexivity.
Qed.

Example test_VarArgs_WithSeparator :
  exists m : fields,
    parse0 VarArgsOptions ["program"; "cmd"; "--"; "arg1"; "arg2"] ∅
    = Some (success, m)
    /\ m !! 0%nat = Some (FPlain (VStringView "cmd"))
    /\ exists sp,
         m !! 1%nat = Some (FArgSpan sp)
         /\ ArgSpan_tokens ["program"; "cmd"; "--"; "arg1"; "arg2"] sp
            = ["arg1"; "arg2"].
Proof.
  eexists. split; [reflexivity|]. split; [reflexivity|].
  eexists. split; reflexivity.
Qed.

Example test_VarArgs_Empty :
  parse0 VarArgsOptions ["program"; "cmd"] ∅
  = Some (success, <[0%nat := FPlain (VStringView "cmd")]> ∅).
Proof. reflexivity. Qed.

Example test_MissingValue :
  parse0 NumericOptions ["program"; "--int"] ∅
  = Some (failure MissingValue "--int", ∅).
Proof. reflexivity. Qed.

Example test_InvalidValue :
  parse0 NumericOptions ["program"; "--int"; "not_a_number"] ∅
  = Some (failure InvalidValue "--int", ∅).
Proof. reflexivity. Qed.

Example test_UnknownOption :
  parse0 BoolOptions ["program"; "--unknown"] ∅
  = Some (failure UnknownOption "--unknown", ∅).
Proof. reflexivity. Qed.

Example test_MissingRequiredArg :
  parse0 SimpleOptions ["program"] ∅
  = Some (failure MissingRequiredArg "name", ∅).
Proof. reflexivity. Qed.

Example test_TooManyArgs :
  parse0 OptionalArgOptions ["program"; "arg1"; "arg2"; "arg3"] ∅
  = Some (failure TooManyArgs "arg3",
          <[1%nat := FOptional (Some (VStringView "arg2"))]>
            (<[0%nat := FPlain (VStringView "arg1")]> ∅)).
Proof. reflexivity. Qed.

Example test_InvalidBoolValue :
  parse0 BoolOptions ["program"; "--flag1=invalid"] ∅
  = Some (failure InvalidValue "--flag1=invalid", ∅).
Proof. reflexivity. Qed.

Example test_ValueParser_Int :
  coerce0 t_int "42" = Some (VInt 42)
  /\ coerce0 t_int "-10" = Some (VInt (-10))
  /\ coerce0 t_int "0" = Some (VInt 0)
  /\ coerce0 t_int "abc" = None
  /\ coerce0 t_int "12abc" = None
  /\ coerce0 t_int "" = None.
Proof. repeat split. Qed.

Example test_ValueParser_StringView :
  coerce0 TStringView "with spaces" = Some (VStringView "with spaces")
  /\ coerce0 TStringView "" = Some (VStringView "").
Proof. repeat split. Qed.

(** "9999999999" is read entirely by the integer grammar, but as a 32-bit
    [int] it is out of range and the coercion fails: being read entirely
    by the grammar is not enough for success. *)
Lemma whole_token_read_yet_rejected :
  ~ (forall sgn bits input,
        is_Some (coerce0 (TInt sgn bits) input)
        <-> is_Some (int_literal sgn input)).
Proof.
  intros H. destruct (H true 32%N "9999999999") as [_ H2].
  destruct H2 as [v Hv]; [eexists; reflexivity|]. discriminate Hv.
Qed.

(** The values stored for "3.14": within half a unit in the last place
    of 3.14, hence nearest to it. *)
Lemma nearest_314_double :
  nearest_value Double 314 100 (S754_finite false 7070651414971679 (-51)).
Proof.
  split; [reflexivity|]. split; [reflexivity|].
  apply nearest_within_half_ulp; vm_compute; congruence.
Qed.

Lemma nearest_314_float :
  nearest_value Float 314 100 (S754_finite false 13170115 (-22)).
Proof.
  split; [reflexivity|]. split; [reflexivity|].
  apply nearest_within_half_ulp; vm_compute; congruence.
Qed.

(** C3 (amended). Numeric coercion succeeds exactly when the whole token
    is read by the numeric grammar of the target type, nothing before and
    nothing after, and the number it denotes is representable in the
    target type.  For an integer type the grammar is an optional minus
    sign (signed types only) and decimal digits, and the result is the
    number written.  For a floating-point type it is an optional minus
    sign and a decimal number with optional point and exponent, an
    infinity or a NaN, and the result is the parsed value of the type.
    The empty token fails for every numeric type.  "-50" read as [int]
    gives -50, "9999999999" read as a 64-bit [long] gives 9999999999 and
    read as a 32-bit [int] fails, "3.14" read as [double] or [float]
    gives the value of the type nearest to 3.14 (7070651414971679 * 2^-51
    and 13170115 * 2^-22), and "12abc" fails for every numeric type. *)
Theorem numeric_coercion :
  (forall sgn bits input v,
      coerce0 (TInt sgn bits) input = Some v
      <-> exists z,
            int_literal sgn input = Some z
            /\ int_in_range sgn bits z = true
            /\ v = VInt z)
  /\ (forall k input v,
         coerce0 (TFloating k) input = Some v
         <-> exists lit x,
               float_literal input lit
               /\ parsed_value k lit = Some x
               /\ v = VFloat x)
  /\ (forall sgn bits, coerce0 (TInt sgn bits) EmptyString = None)
  /\ (forall k, coerce0 (TFloating k) EmptyString = None)
  /\ coerce0 t_int "-50" = Some (VInt (-50))
  /\ coerce0 t_long "9999999999" = Some (VInt 9999999999)
  /\ coerce0 t_int "9999999999" = None
  /\ (coerce0 (TFloating Double) "3.14"
      = Some (VFloat (S754_finite false 7070651414971679 (-51)))
      /\ nearest_value Double 314 100
           (S754_finite false 7070651414971679 (-51)))
  /\ (coerce0 (TFloating Float) "3.14"
      = Some (VFloat (S754_finite false 13170115 (-22)))
      /\ nearest_value Float 314 100 (S754_finite false 13170115 (-22)))
  /\ (forall sgn bits, coerce0 (TInt sgn bits) "12abc" = None)
  /\ (forall k, coerce0 (TFloating k) "12abc" = None).
Proof.
  repeat match goal with |- _ /\ _ => split end.
  - intros sgn bits input v. rewrite ValueParser_int.
    destruct (int_literal sgn input) as [z|].
    + destruct (int_in_range sgn bits z) eqn:Hr.
      * split; [intros [= <-]; eauto|].
        intros (z' & [= <-] & _ & ->). reflexivity.
      * split; [discriminate|]. intros (z' & [= <-] & Hr' & _). congruence.
    + split; [discriminate|]. intros (z' & Hz & _). discriminate.
  - apply ValueParser_floating.
  - intros sgn bits. rewrite ValueParser_int. now destruct sgn.
  - reflexivity.
  - reflexivity.
  - reflexivity.
  - reflexivity.
  - reflexivity.
  - exact nearest_314_double.
  - reflexivity.
  - exact nearest_314_float.
  - intros sgn bits. rewrite ValueParser_int. now destruct sgn.
  - intros []; reflexivity.
Qed.

Lemma option_lookup_witness :
  tryParseOption spec_float from_chars_floating float_zero SimpleOptions
    ["prog"; "--count=5"] "--count=5" 1 ∅
  = mkOptionCapture spec_float success 1 (<[1%nat := FPlain (VInt 5)]> ∅)
  /\ parse0 SimpleOptions ["prog"; "--colour=red"] ∅
     = Some (failure UnknownOption "--colour", ∅).
Proof.
  split.
  - destruct (option_lookup spec_float from_chars_floating float_zero
        SimpleOptions
                ["prog"; "--count=5"] "--count=5" 1 ∅) as (_ & H & _).
    rewrite (H [Option_ "-v" "--verbose" (plain TBool) 0%nat]
               "-c" "--count" (plain t_int) 1%nat
               [Arg "name" (plain TStringView) 2%nat]).
    + reflexivity.
    + reflexivity.
    + intros n a T f [[= <- <- _ _]|[]]. split; discriminate.
    + right. reflexivity.
  - destruct (option_lookup spec_float from_chars_floating float_zero
        SimpleOptions
                ["prog"; "--colour=red"] "--colour=red" 1 ∅) as (_ & _ & H).
    destruct H as [_ H].
    + intros n a T f [[= <- <- _ _]|[[= <- <- _ _]|[[=]|[]]]];
        split; discriminate.
    + apply (H ∅ (initial spec_float ∅)).
      * apply scan_here.
      * reflexivity.
      * reflexivity.
      * discriminate.
      * reflexivity.
Defined.

Lemma option_with_value_witness :
  scan0 SimpleOptions ["prog"; "-c"; "5"; "myname"] (initial spec_float ∅)
    (mkScanState spec_float 3 0 (<[1%nat := FPlain (VInt 5)]> ∅)).
Proof.
  apply (option_with_value spec_float from_chars_floating float_zero
        SimpleOptions
           ["prog"; "-c"; "5"; "myname"] ∅ (initial spec_float ∅)
           "-c" "--count" (plain t_int) 1%nat).
  - apply scan_here.
  - reflexivity.
  - discriminate.
  - reflexivity.
  - reflexivity.
  - reflexivity.
Defined.

Lemma boolean_option_witness :
  scan0 BoolOptions ["prog"; "-a"] (initial spec_float ∅)
    (mkScanState spec_float 2 0 (<[0%nat := FPlain (VBool true)]> ∅)).
Proof.
  apply (boolean_option spec_float from_chars_floating float_zero BoolOptions
           ["prog"; "-a"] ∅ (initial spec_float ∅)
           "-a" "--flag1" (plain TBool) 0%nat).
  - apply scan_here.
  - reflexivity.
  - discriminate.
  - reflexivity.
  - reflexivity.
  - reflexivity.
Defined.

(** After the token "cmd" the scan of the variadic test struct stands at
    index 2 with one slot filled. *)
Lemma scan_after_cmd rest :
  scan0 VarArgsOptions ("prog" :: "cmd" :: rest) (initial spec_float ∅)
    (mkScanState spec_float 2 1 (<[0%nat := FPlain (VStringView "cmd")]> ∅)).
Proof.
  apply (scan_pass spec_float from_chars_floating float_zero _ _ _ 1 1%nat
           (<[0%nat := FPlain (VStringView "cmd")]> ∅)).
  - unfold argc_of. cbn [length st_i initial]. lia.
  - reflexivity.
  - apply scan_here.
Defined.

Lemma separator_starts_variadic_slice_witness :
  parse0 VarArgsOptions ["prog"; "cmd"; "--"; "a"; "b"] ∅
  = Some (success,
          <[1%nat := FArgSpan (mkArgSpan 3 2)]>
            (<[0%nat := FPlain (VStringView "cmd")]> ∅)).
Proof.
  destruct (separator_starts_variadic_slice
      spec_float from_chars_floating float_zero
              VarArgsOptions ["prog"; "cmd"; "--"; "a"; "b"] ∅ _
              (scan_after_cmd ["--"; "a"; "b"])) as [H _].
  - reflexivity.
  - reflexivity.
  - destruct H as [H _]; [reflexivity|]. exact H.
Defined.

Lemma positional_overflow_witness :
  exists sp,
    parse0 VarArgsOptions ["prog"; "cmd"; "arg1"; "arg2"] ∅
    = Some (success,
            <[1%nat := FArgSpan sp]>
              (<[0%nat := FPlain (VStringView "cmd")]> ∅))
    /\ ArgSpan_tokens ["prog"; "cmd"; "arg1"; "arg2"] sp = ["arg1"; "arg2"].
Proof.
  destruct (positional_overflow spec_float from_chars_floating float_zero
              VarArgsOptions ["prog"; "cmd"; "arg1"; "arg2"] ∅ _
              (scan_after_cmd ["arg1"; "arg2"])) as [H _].
  - reflexivity.
  - reflexivity.
  - cbn. lia.
  - apply (H 1%nat). exists [Arg "command" (plain TStringView) 0%nat], [].
    split; [reflexivity|]. intros d [].
Defined.

Lemma separator_without_variadic_slot_witness :
  parse0 SimpleOptions (["prog"; "n"] ++ "--" :: ["-x"; "y"]) ∅
  = Some (success, <[2%nat := FPlain (VStringView "n")]> ∅)
  /\ parse0 SimpleOptions (["prog"; "n"] ++ "--" :: ["z"]) ∅
     = parse0 SimpleOptions (["prog"; "n"] ++ "--" :: ["-x"; "y"]) ∅.
Proof.
  refine (let H := separator_without_variadic_slot
      spec_float from_chars_floating float_zero
                     SimpleOptions ["prog"; "n"] ["-x"; "y"] ∅
                     (mkScanState spec_float 2 1
                        (<[2%nat := FPlain (VStringView "n")]> ∅))
                     _ _ _ _ in
          conj (proj1 H) (proj2 H ["z"])).
  - intros f [[=]|[[=]|[[=]|[]]]].
  - discriminate.
  - apply (scan_pass spec_float from_chars_floating float_zero _ _ _ 1 1%nat
             (<[2%nat := FPlain (VStringView "n")]> ∅)).
    + reflexivity.
    + reflexivity.
    + apply scan_here.
  - reflexivity.
Defined.

Lemma fail_fast_no_rollback_witness :
  exists s,
    scan0 SimpleOptions ["prog"; "-v"] (initial spec_float ∅) s
    /\ <[0%nat := FPlain (VBool true)]> ∅ = st_options spec_float s.
Proof.
  destruct (fail_fast_no_rollback spec_float from_chars_floating float_zero
              SimpleOptions ["prog"; "-v"] ∅
              (failure MissingRequiredArg "name")
              (<[0%nat := FPlain (VBool true)]> ∅))
    as (s & Hs & Hcase & _).
  - reflexivity.
  - reflexivity.
  - exists s. split; [exact Hs|].
    destruct Hcase as [(_ & _ & Hm)|[(_ & _ & Hm)|(_ & v & _ & _ & Hm)]].
    + exact Hm.
    + exact Hm.
    + destruct (0 <=? v); exact Hm.
Defined.

(** ** The further properties at concrete inputs *)

Lemma programName_is_basename_witness :
  programName ["/usr/bin/myprogram"] = "myprogram".
Proof.
  destruct programName_is_basename as [_ H].
  destruct (H "/usr/bin/myprogram" []) as (_ & _ & H3).
  apply (H3 "/usr/bin" "myprogram"); [reflexivity|].
  apply find_None_iff. reflexivity.
Defined.

Lemma print_identifies_failure_witness :
  print (failure MissingValue "-c") <> print (failure InvalidValue "-c").
Proof.
  intros H. apply (proj2 print_identifies_failure) in H;
    [discriminate H|reflexivity|reflexivity].
Defined.

Lemma ArgSpan_members_agree_witness :
  exists visited,
    ArgSpan_collect ["prog"; "cmd"; "--"; "a"; "b"] (mkArgSpan 3 2)
    = Some visited
    /\ length visited = 2%nat.
Proof.
  destruct (ArgSpan_members_agree ["prog"; "cmd"; "--"; "a"; "b"]
              (mkArgSpan 3 2)) as (visited & Hc & Hl & _).
  - cbn. lia.
  - unfold argc_of. cbn. lia.
  - exists visited. split; [exact Hc|exact Hl].
Defined.

Lemma VarArgsOptions_slot : is_variadic_slot VarArgsOptions 1.
Proof.
  exists [Arg "command" (plain TStringView) 0%nat], [].
  split; [reflexivity|]. intros d [].
Defined.

Lemma variadic_span_in_bounds_witness :
  exists s,
    scan0 VarArgsOptions ["prog"; "cmd"; "--"; "a"; "b"]
      (initial spec_float ∅) s.
Proof.
  destruct (variadic_span_in_bounds spec_float from_chars_floating float_zero
              VarArgsOptions ["prog"; "cmd"; "--"; "a"; "b"] ∅ success
              (<[1%nat := FArgSpan (mkArgSpan 3 2)]>
                 (<[0%nat := FPlain (VStringView "cmd")]> ∅))
              1%nat eq_refl VarArgsOptions_slot) as (s & Hs & _).
  exists s. exact Hs.
Defined.

Lemma varArgsIndex_is_last_VarArgs_witness :
  exists m_field,
    nth_error VarArgsOptions (varArgsIndex VarArgsOptions)
    = Some (VarArgs m_field).
Proof.
  destruct (proj2 (varArgsIndex_is_last_VarArgs VarArgsOptions) eq_refl)
    as (f & H & _).
  exists f. exact H.
Defined.

Lemma positional_slot_filled_witness :
  scan0 SimpleOptions ["prog"; "myname"] (initial spec_float ∅)
    (mkScanState spec_float 2 1 (<[2%nat := FPlain (VStringView "myname")]> ∅)).
Proof.
  refine (positional_slot_filled spec_float from_chars_floating float_zero
        SimpleOptions
            ["prog"; "myname"] ∅ (initial spec_float ∅)
            "name" (plain TStringView) 2%nat _ _ _ _).
  - apply scan_here.
  - reflexivity.
  - reflexivity.
  - reflexivity.
Defined.

Lemma no_equals_in_count : ~ contains "="%char "--count".
Proof. apply find_None_iff. reflexivity. Defined.

Lemma split_inverts_join_witness :
  optName_of "--count=5" = "--count"
  /\ inlineValue_of "--count=5" = Some "5".
Proof.
  destruct (split_inverts_join "--count" "5" no_equals_in_count)
    as (H1 & H2 & _).
  exact (conj H1 H2).
Defined.

Lemma value_spellings_agree_witness :
  oc_options spec_float
    (tryParseOption spec_float from_chars_floating float_zero SimpleOptions
       ["prog"; "--count=5"] "--count=5" 1 ∅)
  = oc_options spec_float
      (tryParseOption spec_float from_chars_floating float_zero SimpleOptions
         ["prog"; "--count"; "5"] "--count" 1 ∅).
Proof.
  refine (proj1 (value_spellings_agree spec_float from_chars_floating float_zero
                   SimpleOptions ["prog"; "--count=5"]
                   ["prog"; "--count"; "5"] 1 1 "--count" "5" ∅
                   "-c" "--count" (plain t_int) 1%nat
                   no_equals_in_count _ _ _ _)).
  - reflexivity.
  - reflexivity.
  - reflexivity.
  - reflexivity.
Defined.

Lemma bare_flag_is_true_spelling_witness :
  tryParseOption spec_float from_chars_floating float_zero
        BoolOptions ["prog"; "-a=yes"]
    "-a=yes" 1 ∅
  = tryParseOption spec_float from_chars_floating float_zero
        BoolOptions ["prog"; "-a=yes"]
      "-a" 1 ∅.
Proof.
  refine (bare_flag_is_true_spelling spec_float from_chars_floating float_zero
        BoolOptions
            ["prog"; "-a=yes"] 1 "-a" "yes" ∅
            "-a" "--flag1" (plain TBool) 0%nat _ _ _ _).
  - apply find_None_iff. reflexivity.
  - reflexivity.
  - reflexivity.
  - right. right. left. reflexivity.
Defined.

Lemma needsValue_describes_parsing_witness :
  tryParseOption spec_float from_chars_floating float_zero
        NumericOptions ["prog"; "--int"]
    "--int" 1 ∅
  = mkOptionCapture spec_float (failure MissingValue "--int") 1 ∅.
Proof.
  destruct (needsValue_describes_parsing
      spec_float from_chars_floating float_zero
              NumericOptions ["prog"; "--int"] "--int" 1 ∅
              "-i" "--int" (plain t_int) 0%nat eq_refl) as (_ & _ & H).
  apply H; reflexivity || (cbn; lia).
Defined.

Lemma scan_stays_in_bounds_witness :
  (1 <= argumentCount VarArgsOptions)%nat.
Proof.
  exact (proj1 (proj2 (scan_stays_in_bounds
      spec_float from_chars_floating float_zero
                         VarArgsOptions ["prog"; "cmd"; "a"] ∅ _
                         (scan_after_cmd ["a"])))).
Defined.

Lemma SimpleOptions_named :
  forall m_name T m_field,
    In (Arg m_name T m_field) SimpleOptions -> m_name <> EmptyString.
Proof.
  intros n T f [[=]|[[=]|[[= <- _ _]|[]]]]. discriminate.
Defined.

Lemma success_fills_required_slots_witness :
  is_Some ((<[2%nat := FPlain (VStringView "myname")]> ∅ : fields) !! 2%nat).
Proof.
  refine (success_fills_required_slots spec_float from_chars_floating float_zero
            SimpleOptions ["prog"; "myname"] ∅ success
            (<[2%nat := FPlain (VStringView "myname")]> ∅)
            SimpleOptions_named _ _ 0%nat "name" (plain TStringView) 2%nat
            _ _).
  - reflexivity.
  - reflexivity.
  - reflexivity.
  - reflexivity.
Defined.

Lemma parse_writes_declared_fields_only_witness :
  (<[2%nat := FPlain (VStringView "myname")]> ∅ : fields) !! 7%nat
  = (∅ : fields) !! 7%nat.
Proof.
  refine (parse_writes_declared_fields_only
      spec_float from_chars_floating float_zero
            SimpleOptions ["prog"; "myname"] ∅ success
            (<[2%nat := FPlain (VStringView "myname")]> ∅) 7%nat _ _).
  - reflexivity.
  - intros d [<-|[<-|[<-|[]]]]; discriminate.
Defined.

Lemma failure_context_provenance_witness :
  exists i,
    1 <= i < argc_of ["prog"; "--int"]
    /\ sv.starts_with "-"%char (argv_at ["prog"; "--int"] i) = true
    /\ "--int" = optName_of (argv_at ["prog"; "--int"] i).
Proof.
  exact (failure_context_provenance spec_float from_chars_floating float_zero
           NumericOptions ["prog"; "--int"] ∅
           (failure MissingValue "--int") ∅ eq_refl).
Defined.

Lemma option_and_positional_commute_witness :
  parse0 SimpleOptions (["prog"] ++ "-v" :: "myname" :: []) ∅
  = parse0 SimpleOptions (["prog"] ++ "myname" :: "-v" :: []) ∅.
Proof.
  refine (option_and_positional_commute
      spec_float from_chars_floating float_zero
            SimpleOptions ["prog"] "-v" "myname" [] ∅ (initial spec_float ∅)
            "-v" "--verbose" (plain TBool) 0%nat (VBool true)
            "name" (plain TStringView) 2%nat (VStringView "myname")
            _ _ _ _ _ _ _ _ _ _).
  - apply scan_here.
  - reflexivity.
  - reflexivity.
  - discriminate.
  - reflexivity.
  - split; reflexivity.
  - reflexivity.
  - reflexivity.
  - reflexivity.
  - discriminate.
Defined.

Lemma error_kind_triggers_witness :
  exists s,
    scan0 OptionalArgOptions ["prog"; "a"; "b"; "c"] (initial spec_float ∅) s
    /\ st_i spec_float s < argc_of ["prog"; "a"; "b"; "c"]
    /\ hasVarArgs OptionalArgOptions = false.
Proof.
  destruct (error_kind_triggers spec_float from_chars_floating float_zero
              OptionalArgOptions ["prog"; "a"; "b"; "c"] ∅
              (failure TooManyArgs "c")
              (<[1%nat := FOptional (Some (VStringView "b"))]>
                 (<[0%nat := FPlain (VStringView "a")]> ∅))
              eq_refl eq_refl) as (s & Hs & Hlt & _ & _ & Hva).
  exists s. exact (conj Hs (conj Hlt Hva)).
Defined.

Lemma parse_twice_witness :
  parse0 SimpleOptions ["prog"; "-c"; "5"; "myname"]
    (<[2%nat := FPlain (VStringView "myname")]>
       (<[1%nat := FPlain (VInt 5)]> ∅))
  = Some (success,
          <[2%nat := FPlain (VStringView "myname")]>
            (<[1%nat := FPlain (VInt 5)]> ∅)).
Proof.
  exact (parse_twice spec_float from_chars_floating float_zero SimpleOptions
           ["prog"; "-c"; "5"; "myname"] ∅ success _ eq_refl).
Defined.
